(** * Lovefield: relations, relation entries and the service registry

    A shallow embedding of [lib/proc/relation.js] (lf.proc.Relation and
    lf.proc.RelationEntry) and of lf.Global, together with the parts of the
    Closure Library they rest on (goog.structs.Map, goog.structs.Set and
    goog.asserts), and the properties the specification states about them.

    Conventions of the embedding:
    - a JavaScript exception is an explicit [Throw] outcome;
    - static fields and the object heap are explicit state that every
      function threads;
    - the counter RelationEntry.id_ is a JavaScript number that holds a
      non-negative integer, kept as an [N]; [id_++] adds one and rounds as
      the number type does, which is exact up to 2^53 and not from there on;
    - a JavaScript object used as a record of named slots is a finite map
      from property names to values, its own properties only. What an object
      inherits from Object.prototype is not in the map: the model of a
      property read is exact on an own property and on a name that
      Object.prototype does not define ([plainName]), and the model of a
      property write is exact on every name but __proto__, the accessor
      through which an assignment sets the prototype ([storableName]).
      goog.structs.Map keeps its entries in such an object, so its model is
      exact on every key but __proto__. The properties that read or write
      a name chosen by the caller carry these conditions as premises. *)

From stdpp Require Import gmap strings list fin_maps.

(** * Part I: the program *)

(** ** Outcomes of a JavaScript call *)

(** lf.Exception.Type, the error kinds of section 7 of the specification. *)
Inductive ExceptionType :=
  | NOT_FOUND | SYNTAX | CONSTRAINT | TYPE | SCOPE | STORE | CANCELLED | UNKNOWN.

(** What a call can throw: goog.asserts.AssertionError with its message, the
    engine's TypeError (a property access on undefined or null), and
    lf.Exception with its type and message. *)
Inductive exn :=
  | AssertionError (message : string)
  | TypeError
  | Exception (type : ExceptionType) (message : string).

Inductive completion (A : Type) :=
  | Normal (a : A)
  | Throw (e : exn).
Arguments Normal {A} a.
Arguments Throw {A} e.

#[global] Instance completion_ret : MRet completion := λ A a, Normal a.
#[global] Instance completion_bind : MBind completion := λ A B k c,
  match c with
  | Normal a => k a
  | Throw e => Throw e
  end.

#[global] Instance completion_fmap : FMap completion := λ A B f c,
  match c with
  | Normal a => Normal (f a)
  | Throw e => Throw e
  end.

(** Code that reads and writes process state [S] and may throw; the state
    reached when an exception is thrown is kept, as in JavaScript. *)
Definition M (S A : Type) : Type := S → completion A * S.

#[global] Instance M_ret S : MRet (M S) := λ A a s, (Normal a, s).
#[global] Instance M_bind S : MBind (M S) := λ A B k c s,
  match c s with
  | (Normal a, s') => k a s'
  | (Throw e, s') => (Throw e, s')
  end.

Definition lift {S A} (c : completion A) : M S A := λ s, (c, s).
Definition reads {S A} (f : S → A) : M S A := λ s, (Normal (f s), s).

(** A loop whose body may throw: Array.prototype.forEach and reduce over an
    accumulator, left to right, stopping at the first exception. *)
Fixpoint foldlM {A B} (f : B → A → completion B) (b : B) (l : list A) : completion B :=
  match l with
  | [] => Normal b
  | x :: l' => b' ← f b x; foldlM f b' l'
  end.

(** Array.prototype.forEach with a body that acts on the state. *)
Fixpoint forEach {S A} (l : list A) (f : A → M S unit) : M S unit :=
  match l with
  | [] => mret tt
  | x :: l' => f x;; forEach l' f
  end.

(** Array.prototype.map with a callback that acts on the state. *)
Fixpoint mapM {S A B} (f : A → M S B) (l : list A) : M S (list B) :=
  match l with
  | [] => mret []
  | x :: l' => y ← f x; ys ← mapM f l'; mret (y :: ys)
  end.

(** goog.asserts.assert(condition, message), with assertions enabled: the
    error says "Assertion failed", followed by a colon and the message given
    when there is one. *)
Definition goog_asserts_assert (condition : bool) (message : string) : completion unit :=
  if condition then Normal tt
  else Throw (AssertionError
                match message with
                | EmptyString => "Assertion failed"
                | _ => "Assertion failed: " +:+ message
                end).

(** A JavaScript array with holes: [new Array(n)] and [a[i] = x]. A write
    past the end extends the array with holes up to the index. *)
Definition Array_new {A} (n : nat) : list (option A) := replicate n None.

Definition Array_set {A} (i : nat) (x : A) (a : list (option A)) : list (option A) :=
  if decide (i < length a) then <[i := Some x]> a
  else a ++ replicate (i - length a) None ++ [Some x].

(** ** goog.structs.Map

    The Closure Library map keeps an object [map_] from keys to values, the
    array [keys_] of the keys in the order they were first set, and their
    number [count_]. Keys are used as property names; the keys of this
    program are strings and entry ids, on which that conversion is
    injective. The object holds a key as an own property, which an
    assignment makes of every name but __proto__: the model is that of the
    map on all other keys. The keys of the program's maps of entries are
    numerals and those of its sets start with the letter s; the service
    registry is keyed by names the caller chooses, and what is proved of it
    is proved for names other than __proto__ ([storableName]). *)
Module StructsMap.
Section structs_map.
Context {K : Type} `{Countable K} {V : Type}.

Record t := mk {
  map_ : gmap K V;
  keys_ : list K;
  count_ : nat
}.

(** new goog.structs.Map() *)
Definition empty : t := mk ∅ [] 0.

(** goog.structs.Map.hasKey_(obj, key) *)
Definition hasKey_ (obj : gmap K V) (key : K) : bool :=
  bool_decide (is_Some (obj !! key)).

(** set(key, value): a new key is counted and pushed on [keys_]; the
    value is written in either case. *)
Definition set (key : K) (value : V) (m : t) : t :=
  if hasKey_ (map_ m) key
  then mk (<[key := value]> (map_ m)) (keys_ m) (count_ m)
  else mk (<[key := value]> (map_ m)) (keys_ m ++ [key]) (S (count_ m)).

(** get(key, opt_val) *)
Definition get (key : K) (opt_val : V) (m : t) : V :=
  if hasKey_ (map_ m) key then default opt_val (map_ m !! key) else opt_val.

Definition containsKey (key : K) (m : t) : bool := hasKey_ (map_ m) key.

Definition getCount (m : t) : nat := count_ m.

(** getValues(): the values in the order of [keys_]. *)
Definition getValues (m : t) : list V :=
  omap (λ key, map_ m !! key) (keys_ m).

Definition getKeys (m : t) : list K := keys_ m.

(** The representation invariant every map built by [set] satisfies. *)
Definition wf (m : t) : Prop :=
  NoDup (keys_ m) ∧ (∀ k, k ∈ keys_ m ↔ is_Some (map_ m !! k))
  ∧ count_ m = length (keys_ m).

(** for each x of l: m.set(key(x), val(x)) *)
Definition setAll {A} (key : A → K) (val : A → V) (l : list A) (m : t) : t :=
  foldl (λ m x, set (key x) (val x) m) m l.

End structs_map.
Arguments t K {_ _} V.
End StructsMap.

(** ** goog.structs.Set, of strings

    A set keeps a goog.structs.Map from the key of an element to the
    element; the key of a string is the string after the letter s. *)
Module StructsSet.

Record t := mk { map_ : StructsMap.t string string }.

Definition getKey_ (val : string) : string := "s" +:+ val.

Definition add (element : string) (s : t) : t :=
  mk (StructsMap.set (getKey_ element) element (map_ s)).

Definition addAll (col : list string) (s : t) : t :=
  foldl (λ s element, add element s) s col.

(** new goog.structs.Set(opt_values) *)
Definition new (opt_values : list string) : t :=
  addAll opt_values (mk StructsMap.empty).

Definition getCount (s : t) : nat := StructsMap.getCount (map_ s).

Definition contains (element : string) (s : t) : bool :=
  StructsMap.containsKey (getKey_ element) (map_ s).

Definition getValues (s : t) : list string := StructsMap.getValues (map_ s).

(** isSubsetOf(col), for a collection that is a set. *)
Definition isSubsetOf (s col : t) : bool :=
  let colCount := getCount col in
  if decide (colCount < getCount s) then false
  else forallb (λ value, contains value col) (getValues s).

(** equals(col) *)
Definition equals (s col : t) : bool :=
  bool_decide (getCount s = getCount col) && isSubsetOf s col.

(** The sets [new] builds: a well-formed map that binds the key of each
    element to the element. *)
Definition wf (s : t) : Prop :=
  StructsMap.wf (map_ s)
  ∧ ∀ k v, StructsMap.map_ (map_ s) !! k = Some v → k = getKey_ v.

End StructsSet.

(** ** Values, objects and the heap *)

Abbreviation loc := positive.

(** A JavaScript value: a primitive, or a reference to an object. *)
Inductive value :=
  | VUndefined
  | VNull
  | VBoolean (b : bool)
  | VNumber (z : Z)
  | VString (s : string)
  | VObject (l : loc).

#[global] Instance value_eq_dec : EqDecision value.
Proof. solve_decision. Defined.

(** An object is the finite map of its own properties; the heap maps the
    address of each live object to it. *)
Abbreviation object := (gmap string value).
Abbreviation heap := (gmap loc object).

(** goog.isDefAndNotNull(val) *)
Definition isDefAndNotNull (val : value) : bool :=
  match val with
  | VUndefined | VNull => false
  | _ => true
  end.

(** ** Rows and schema objects (lf.Row, lf.schema.Table, lf.schema.Column)

    The accessors relation.js calls on them. A row carries its id and a
    reference to its payload object; an alias of a column that is null or
    undefined is [None]. *)
Module Row.
Record t := mk { id : Z; payload : loc }.

#[global] Instance t_eq_dec : EqDecision t.
Proof. solve_decision. Defined.
End Row.

Module Table.
Record t := mk { getName : string; getPrimaryKey : option (list string) }.
End Table.

Module Column.
Record t := mk { getName : string; getAlias : option string; getTable : Table.t }.
End Column.

(** ** lf.proc.RelationEntry *)
Module RelationEntry.

Record t := mk {
  row : Row.t;
  id : N;
  isPrefixApplied_ : bool
}.

#[global] Instance entry_eq_dec : EqDecision t.
Proof. solve_decision. Defined.

(** The process state this class works on: the heap that holds the payload
    objects, and the static counter lf.proc.RelationEntry.id_, a number
    that holds a non-negative integer. *)
Record State := mkState {
  objects : heap;
  id_ : N
}.

Definition with_objects (h : heap) (s : State) : State := mkState h (id_ s).
Definition with_id_ (n : N) (s : State) : State := mkState (objects s) n.

(** The own properties of the object at an address. *)
Definition props (h : heap) (l : loc) : object := default ∅ (h !! l).

(** [o[name]]: a TypeError on undefined and null, the own property or
    undefined on an object. What an object inherits is not modelled: the
    read is that of the code where the object has the property itself and
    where Object.prototype does not define the name ([plainName]); the
    properties a boolean, number or string inherits from its prototype are
    not modelled either, the read yields undefined. *)
Definition getProp (o : value) (name : string) : M State value := λ s,
  match o with
  | VUndefined | VNull => (Throw TypeError, s)
  | VObject l => (Normal (default VUndefined (props (objects s) l !! name)), s)
  | _ => (Normal VUndefined, s)
  end.

(** [o[name] = v]: a TypeError on undefined and null, a write to the object
    otherwise; a write to a boolean, number or string is dropped. The write
    is that of the code on every name but __proto__, which on an object
    without such a property of its own is the accessor of Object.prototype
    and stores nothing ([storableName]). *)
Definition putProp (o : value) (name : string) (v : value) : M State unit := λ s,
  match o with
  | VUndefined | VNull => (Throw TypeError, s)
  | VObject l =>
      (Normal tt, with_objects (<[l := <[name := v]> (props (objects s) l)]> (objects s)) s)
  | _ => (Normal tt, s)
  end.

(** The object literal [{}]: a new object at an address no live object has. *)
Definition newObject : M State loc := λ s,
  let l := fresh (dom (objects s)) in
  (Normal l, with_objects (<[l := ∅]> (objects s)) s).

(** The names [for (var prefix in o)] ranges over. *)
Definition ownKeys (l : loc) : M State (list string) :=
  reads (λ s, (map_to_list (props (objects s) l)).*1).

(** Up to 2^53 every integer is a JavaScript number. *)
Definition MAX_EXACT : N := 9007199254740992.

(** The number that an exact non-negative integer result is rounded to: the
    integer itself up to 2^53, and above that the nearest number with a
    mantissa of 53 bits, a tie going to the even mantissa. *)
Definition roundToNumber (m : N) : N :=
  if (m <=? MAX_EXACT)%N then m
  else
    let shift := (N.size m - 53)%N in
    let mantissa := N.shiftr m shift in
    let rest := (m - N.shiftl mantissa shift)%N in
    let half := N.shiftl 1 (shift - 1) in
    N.shiftl (if (rest <? half)%N then mantissa
              else if (half <? rest)%N then (mantissa + 1)%N
              else if N.even mantissa then mantissa else (mantissa + 1)%N)
             shift.

(** lf.proc.RelationEntry.getNextId_: [return id_++]. *)
Definition getNextId_ : M State N := λ s,
  (Normal (id_ s), with_id_ (roundToNumber (id_ s + 1)) s).

(** new lf.proc.RelationEntry(row, isPrefixApplied) *)
Definition new (row : Row.t) (isPrefixApplied : bool) : M State t :=
  id ← getNextId_;
  mret (mk row id isPrefixApplied).

(** lf.proc.RelationEntry.prototype.getField *)
Definition getField (this : t) (column : Column.t) : M State value :=
  if isPrefixApplied_ this then
    container ← getProp (VObject (Row.payload (row this)))
                        (Table.getName (Column.getTable column));
    getProp container (Column.getName column)
  else
    getProp (VObject (Row.payload (row this))) (Column.getName column).

(** lf.proc.RelationEntry.prototype.setField *)
Definition setField (this : t) (column : Column.t) (value : value) : M State unit :=
  match Column.getAlias column with
  | Some alias => putProp (VObject (Row.payload (row this))) alias value
  | None =>
      if isPrefixApplied_ this then
        containerObj ← getProp (VObject (Row.payload (row this)))
                               (Table.getName (Column.getTable column));
        containerObj ←
          (if isDefAndNotNull containerObj then mret containerObj
           else
             containerObj ← newObject;
             putProp (VObject (Row.payload (row this)))
                     (Table.getName (Column.getTable column)) (VObject containerObj);;
             mret (VObject containerObj));
        putProp containerObj (Column.getName column) value
      else
        putProp (VObject (Row.payload (row this))) (Column.getName column) value
  end.

(** The closure mergeEntry of combineEntries, writing to the object
    [result]. A read of [entryTables[0]] on an empty array is undefined,
    which names the property "undefined". *)
Definition mergeEntry (result : loc) (entry : t) (entryTables : list string) : M State unit :=
  if isPrefixApplied_ entry then
    let payload := Row.payload (row entry) in
    prefixes ← ownKeys payload;
    forEach prefixes (λ prefix,
      slot ← getProp (VObject payload) prefix;
      putProp (VObject result) prefix slot)
  else
    putProp (VObject result) (default "undefined" (head entryTables))
            (VObject (Row.payload (row entry))).

Section combine.
(** lf.Row.DUMMY_ID, the id of a row that is in no table. *)
Context (DUMMY_ID : Z).

(** lf.proc.RelationEntry.combineEntries *)
Definition combineEntries (leftEntry : t) (leftEntryTables : list string)
    (rightEntry : t) (rightEntryTables : list string) : M State t :=
  result ← newObject;
  mergeEntry result leftEntry leftEntryTables;;
  mergeEntry result rightEntry rightEntryTables;;
  let row := Row.mk DUMMY_ID result in
  new row true.
End combine.

End RelationEntry.

(** ** lf.proc.Relation *)
Module Relation.

(** A relation object. Relations are immutable, so an object is its fields
    together with [oid], the address [new] allocated it at, which tells two
    objects with equal fields apart. *)
Record t := mk {
  oid : N;
  entries : list RelationEntry.t;
  tables_ : StructsSet.t
}.

(** The process state: that of RelationEntry, the static field
    lf.proc.Relation.emptyRelation_ (null is [None]), and the next address
    for a relation object. *)
Record World := mkWorld {
  entryState : RelationEntry.State;
  emptyRelation_ : option t;
  nextOid : N
}.

Definition liftEntry {A} (c : M RelationEntry.State A) : M World A := λ w,
  let '(r, s) := c (entryState w) in
  (r, mkWorld s (emptyRelation_ w) (nextOid w)).

(** new lf.proc.Relation(entries, tables) *)
Definition new (entries : list RelationEntry.t) (tables : list string) : M World t := λ w,
  (Normal (mk (nextOid w) entries (StructsSet.new tables)),
   mkWorld (entryState w) (emptyRelation_ w) (nextOid w + 1)%N).

(** lf.proc.Relation.prototype.isCompatible *)
Definition isCompatible (this relation : t) : bool :=
  StructsSet.equals (tables_ this) (tables_ relation).

(** lf.proc.Relation.assertCompatible_ *)
Definition assertCompatible_ (lhs rhs : t) : completion unit :=
  goog_asserts_assert (isCompatible lhs rhs)
    "Intersection/union operations only apply to compatible relations.".

(** lf.proc.Relation.prototype.getTables *)
Definition getTables (this : t) : list string := StructsSet.getValues (tables_ this).

(** lf.proc.Relation.prototype.isPrefixApplied *)
Definition isPrefixApplied (this : t) : bool :=
  bool_decide (1 < StructsSet.getCount (tables_ this)).

(** lf.proc.Relation.prototype.getPayloads: the payload object of each row. *)
Definition getPayloads (this : t) : list loc :=
  (λ entry, Row.payload (RelationEntry.row entry)) <$> entries this.

(** lf.proc.Relation.prototype.getRowIds *)
Definition getRowIds (this : t) : list Z :=
  (λ entry, Row.id (RelationEntry.row entry)) <$> entries this.

(** lf.proc.Relation.createEmpty *)
Definition createEmpty : M World t := λ w,
  match emptyRelation_ w with
  | None =>
      match new [] [] w with
      | (Normal r, w') => (Normal r, mkWorld (entryState w') (Some r) (nextOid w'))
      | (Throw e, w') => (Throw e, w')
      end
  | Some r => (Normal r, w)
  end.

(** The second statement of intersect: relations.reduce(..., 0). *)
Definition totalCount (relations0 : t) (relations : list t) : completion nat :=
  foldlM (λ soFar relation,
            assertCompatible_ relations0 relation;;
            mret (soFar + length (entries relation)))
         0 relations.

(** The body of relations.map in intersect, for one relation: every entry
    goes to allEntries[entryCounter++] and to the relation's map. *)
Definition fillEntries (relation : t)
    (acc : list (option RelationEntry.t) * nat)
    : list (option RelationEntry.t) * nat * StructsMap.t N RelationEntry.t :=
  foldl (λ '(allEntries, entryCounter, map) entry,
           (Array_set entryCounter entry allEntries, S entryCounter,
            StructsMap.set (RelationEntry.id entry) entry map))
        (acc.1, acc.2, StructsMap.empty) (entries relation).

Definition fillAll (relations : list t) (allEntries : list (option RelationEntry.t))
    : list (option RelationEntry.t) * nat * list (StructsMap.t N RelationEntry.t) :=
  foldl (λ '(allEntries, entryCounter, relationMaps) relation,
           let '(allEntries, entryCounter, map) :=
             fillEntries relation (allEntries, entryCounter) in
           (allEntries, entryCounter, relationMaps ++ [map]))
        (allEntries, 0, []) relations.

(** The for loop of intersect. Reading [.id] of a hole of allEntries is a
    TypeError. *)
Definition intersection (relationMaps : list (StructsMap.t N RelationEntry.t))
    (allEntries : list (option RelationEntry.t))
    : completion (StructsMap.t N RelationEntry.t) :=
  foldlM (λ intersection slot,
            match slot with
            | None => Throw TypeError
            | Some entry =>
                let existsInAll :=
                  forallb (λ relation,
                             StructsMap.containsKey (RelationEntry.id entry) relation)
                          relationMaps in
                mret (if existsInAll
                      then StructsMap.set (RelationEntry.id entry) entry intersection
                      else intersection)
            end)
         StructsMap.empty allEntries.

(** lf.proc.Relation.intersect *)
Definition intersect (relations : list t) : M World t :=
  match relations with
  | [] => createEmpty
  | relations0 :: _ =>
      totalCount ← lift (totalCount relations0 relations);
      let allEntries := Array_new totalCount in
      let '(allEntries, _, relationMaps) := fillAll relations allEntries in
      intersection ← lift (intersection relationMaps allEntries);
      new (StructsMap.getValues intersection) (StructsSet.getValues (tables_ relations0))
  end.

(** The loop of union. *)
Definition unionMap (relations0 : t) (relations : list t)
    : completion (StructsMap.t N RelationEntry.t) :=
  foldlM (λ union relation,
            assertCompatible_ relations0 relation;;
            mret (StructsMap.setAll RelationEntry.id (λ entry, entry)
                                    (entries relation) union))
         StructsMap.empty relations.

(** lf.proc.Relation.union *)
Definition union (relations : list t) : M World t :=
  match relations with
  | [] => createEmpty
  | relations0 :: _ =>
      union ← lift (unionMap relations0 relations);
      new (StructsMap.getValues union) (StructsSet.getValues (tables_ relations0))
  end.

(** lf.proc.Relation.fromRows *)
Definition fromRows (rows : list Row.t) (tables : list string) : M World t :=
  let isPrefixApplied := bool_decide (1 < length tables) in
  entries ← mapM (λ row, liftEntry (RelationEntry.new row isPrefixApplied)) rows;
  new entries tables.

End Relation.

(** ** lf.Global, the registry of services *)
Module ServiceId.
(** lf.service.ServiceId: toString() is the name the id was made with. *)
Record t := mk { toString : string }.
End ServiceId.

Module Global.
Section global.
(** The service objects, none of them null (the annotation [!T]). *)
Context {Service : Type}.

(** [services_] holds a service or, to the reader of [get(key, null)],
    null: [None] is null. *)
Record t := mk { services_ : StructsMap.t string (option Service) }.

(** new lf.Global() *)
Definition new : t := mk StructsMap.empty.

(** lf.Global.prototype.registerService *)
Definition registerService (serviceId : ServiceId.t) (service : Service) (this : t)
    : Service * t :=
  (service,
   mk (StructsMap.set (ServiceId.toString serviceId) (Some service) (services_ this))).

(** lf.Global.prototype.getService *)
Definition getService (serviceId : ServiceId.t) (this : t) : completion Service :=
  let service := StructsMap.get (ServiceId.toString serviceId) None (services_ this) in
  match service with
  | None => Throw (Exception NOT_FOUND (ServiceId.toString serviceId))
  | Some service => Normal service
  end.

(** lf.Global.prototype.isRegistered *)
Definition isRegistered (serviceId : ServiceId.t) (this : t) : bool :=
  StructsMap.containsKey (ServiceId.toString serviceId) (services_ this).

(** A run of registerService calls on a registry, first call first. *)
Definition registerAll (calls : list (ServiceId.t * Service)) (this : t) : t :=
  foldl (λ this call, (registerService call.1 call.2 this).2) this calls.

End global.
Arguments t : clear implicits.
End Global.

(** ** lf.query.InsertBuilder *)
Module InsertBuilder.

(** Modelled from the spec: lf.query.InsertBuilder, of which only the test
    is among the sources. Section 4.9: builder calls check fluent-call
    legality at call time ([into] twice fails with SYNTAX, [values] twice
    fails), and exec() requires the required clauses. Scenario S2: no
    into() gives SYNTAX, no values() gives SYNTAX, allowReplace on a table
    without primary key gives CONSTRAINT, a doubled values() or into()
    gives SYNTAX at builder time. *)
Record t := mk {
  allowReplace : bool;
  into_ : option Table.t;
  values_ : option (list Row.t)
}.

(** Modelled from the spec: new lf.query.InsertBuilder(opt_allowReplace). *)
Definition new (opt_allowReplace : bool) : t := mk opt_allowReplace None None.

(** Modelled from the spec: into(table), refused when called before. *)
Definition into (table : Table.t) (this : t) : completion t :=
  match into_ this with
  | Some _ => Throw (Exception SYNTAX "into() has already been called.")
  | None => Normal (mk (allowReplace this) (Some table) (values_ this))
  end.

(** Modelled from the spec: values(rows), refused when called before. *)
Definition values (rows : list Row.t) (this : t) : completion t :=
  match values_ this with
  | Some _ => Throw (Exception SYNTAX "values() has already been called.")
  | None => Normal (mk (allowReplace this) (into_ this) (Some rows))
  end.

(** Modelled from the spec: exec(), which accepts the query (the table, the
    rows and whether rows may be replaced) or fails. *)
Definition exec (this : t) : completion (Table.t * list Row.t * bool) :=
  match into_ this, values_ this with
  | Some table, Some rows =>
      if allowReplace this && bool_decide (Table.getPrimaryKey table = None)
      then Throw (Exception CONSTRAINT "Attempted to insert or replace in a table with no primary key.")
      else Normal (table, rows, allowReplace this)
  | _, _ => Throw (Exception SYNTAX "Invalid usage of insert()")
  end.

End InsertBuilder.

(** ** Vocabulary of the properties *)

(** The entry ids of a relation, in the order of its entries. *)
Definition entryIds (r : Relation.t) : list N :=
  RelationEntry.id <$> Relation.entries r.

(** A relation has a source table when its table set contains the name. *)
Definition hasTable (name : string) (r : Relation.t) : Prop :=
  StructsSet.contains name (Relation.tables_ r) = true.

(** Two relations have equal source-table sets. *)
Definition sameTables (r1 r2 : Relation.t) : Prop :=
  ∀ name, hasTable name r1 ↔ hasTable name r2.

(** Two relations are equal as sets of entry ids. *)
Definition sameIds (r1 r2 : Relation.t) : Prop :=
  ∀ i, i ∈ entryIds r1 ↔ i ∈ entryIds r2.

(** The table set of a relation is one the constructor of
    goog.structs.Set builds. *)
Definition wfRelation (r : Relation.t) : Prop :=
  StructsSet.wf (Relation.tables_ r).

Definition pairwiseCompatible (rs : list Relation.t) : Prop :=
  ∀ r1 r2, r1 ∈ rs → r2 ∈ rs → Relation.isCompatible r1 r2 = true.

(** Entries are objects, and an object gets its id when it is constructed:
    among the entries of the given relations, two with one id are one
    entry. *)
Definition idsIdentifyEntries (rs : list Relation.t) : Prop :=
  ∀ r1 r2 e1 e2, r1 ∈ rs → r2 ∈ rs →
    e1 ∈ Relation.entries r1 → e2 ∈ Relation.entries r2 →
    RelationEntry.id e1 = RelationEntry.id e2 → e1 = e2.

(** The static field emptyRelation_ is null or holds a relation that
    createEmpty made: no entries, no tables, an address already given out. *)
Definition wfWorld (w : Relation.World) : Prop :=
  ∀ r, Relation.emptyRelation_ w = Some r →
    Relation.entries r = [] ∧ Relation.tables_ r = StructsSet.new []
    ∧ (Relation.oid r < Relation.nextOid w)%N.

(** The state of a process that has constructed no entry and no relation. *)
Definition initialWorld (h : heap) : Relation.World :=
  Relation.mkWorld (RelationEntry.mkState h 0) None 0.

(** All entries of a list of relations, in order: what intersect collects
    in allEntries. *)
Definition allEntriesOf (rs : list Relation.t) : list RelationEntry.t :=
  concat (Relation.entries <$> rs).

(** The map from entry id to entry that a loop of [set]s over a list of
    entries builds from the empty map. *)
Definition mapOfEntries (l : list RelationEntry.t) : StructsMap.t N RelationEntry.t :=
  StructsMap.setAll RelationEntry.id (λ entry, entry) l StructsMap.empty.

(** Every relation of a list passes the assertion against [r0]. *)
Definition allCompatible (r0 : Relation.t) (rs : list Relation.t) : bool :=
  forallb (Relation.isCompatible r0) rs.

(** The maps intersect builds, one for each relation. *)
Definition relationMapsOf (rs : list Relation.t) : list (StructsMap.t N RelationEntry.t) :=
  (λ r, mapOfEntries (Relation.entries r)) <$> rs.

(** The test existsInAll of intersect, for one entry. *)
Definition existsInAll (rs : list Relation.t) (entry : RelationEntry.t) : bool :=
  forallb (λ relation, StructsMap.containsKey (RelationEntry.id entry) relation)
          (relationMapsOf rs).

(** The world after [new lf.proc.Relation] has taken an address. *)
Definition allocated (w : Relation.World) : Relation.World :=
  Relation.mkWorld (Relation.entryState w) (Relation.emptyRelation_ w)
                   (Relation.nextOid w + 1)%N.

(** What one side contributes to the payload combineEntries builds: its
    own slots when it is prefix-applied, its payload object under the
    first of its table names otherwise. *)
Definition contribution (h : heap) (entry : RelationEntry.t) (entryTables : list string)
    : object :=
  if RelationEntry.isPrefixApplied_ entry
  then RelationEntry.props h (Row.payload (RelationEntry.row entry))
  else {[ default "undefined" (head entryTables)
          := VObject (Row.payload (RelationEntry.row entry)) ]}.

(** The names that every object inherits from Object.prototype: those of
    the language standard and its annex for browsers, and three more that
    engines of the time of this code define. A read of one of them finds a
    value also where the object has no such property of its own. *)
Definition objectPrototypeNames : list string :=
  ["constructor"; "hasOwnProperty"; "isPrototypeOf"; "propertyIsEnumerable";
   "toLocaleString"; "toString"; "valueOf"; "__proto__";
   "__defineGetter__"; "__defineSetter__"; "__lookupGetter__"; "__lookupSetter__";
   "toSource"; "watch"; "unwatch"].

(** A name that no object inherits: reading it from an object yields the
    object's own property, or undefined. *)
Definition plainName (name : string) : Prop := name ∉ objectPrototypeNames.

(** A name that an assignment stores as an own property: every name but
    __proto__, which Object.prototype defines as an accessor. It is also
    the one key that goog.structs.Map does not keep. *)
Definition storableName (name : string) : Prop := name ≠ "__proto__".

(** The counter after [count] calls of getNextId_. *)
Definition idAfter (count : nat) (id_ : N) : N :=
  Nat.iter count (λ id_, RelationEntry.roundToNumber (id_ + 1)) id_.
Arguments idAfter : simpl never.

(** The calls that construct entries. *)
Inductive Construction :=
  | NewEntry (row : Row.t) (isPrefixApplied : bool)
  | FromRows (rows : list Row.t) (tables : list string)
  | CombineEntries (leftEntry : RelationEntry.t) (leftEntryTables : list string)
                   (rightEntry : RelationEntry.t) (rightEntryTables : list string).

(** The entries one call constructs, in the order it constructs them. *)
Definition construct (DUMMY_ID : Z) (c : Construction)
    : M Relation.World (list RelationEntry.t) :=
  match c with
  | NewEntry row isPrefixApplied =>
      entry ← Relation.liftEntry (RelationEntry.new row isPrefixApplied);
      mret [entry]
  | FromRows rows tables =>
      relation ← Relation.fromRows rows tables;
      mret (Relation.entries relation)
  | CombineEntries leftEntry leftEntryTables rightEntry rightEntryTables =>
      entry ← Relation.liftEntry
                (RelationEntry.combineEntries DUMMY_ID leftEntry leftEntryTables
                                              rightEntry rightEntryTables);
      mret [entry]
  end.

(** The entries a sequence of calls constructs, earliest first, and the
    state it leaves. *)
Fixpoint constructAll (DUMMY_ID : Z) (cs : list Construction) (w : Relation.World)
    : list RelationEntry.t * Relation.World :=
  match cs with
  | [] => ([], w)
  | c :: cs' =>
      let '(outcome, w') := construct DUMMY_ID c w in
      let '(later, w'') := constructAll DUMMY_ID cs' w' in
      (match outcome with Normal entries => entries | Throw _ => [] end ++ later, w'')
  end.

(** The last service registered under a name by a run of calls. *)
Definition lastRegistered {Service} (name : string) (calls : list (ServiceId.t * Service))
    : option Service :=
  snd <$> last (filter (λ call, ServiceId.toString call.1 = name) calls).

(** The set laws, on results compared as sets of entry ids. An operation
    is union or intersect. *)
Definition commutativeOnIds (op : list Relation.t → M Relation.World Relation.t) : Prop :=
  ∀ rs rs' w, rs ≡ₚ rs' → Forall wfRelation rs → pairwiseCompatible rs →
    ∃ r r' w1 w2,
      op rs w = (Normal r, w1) ∧ op rs' w = (Normal r', w2) ∧ sameIds r r'.

Definition associativeOnIds (op : list Relation.t → M Relation.World Relation.t) : Prop :=
  ∀ a b c w, Forall wfRelation [a; b; c] → pairwiseCompatible [a; b; c] →
    ∃ ab w1 ab_c w2 bc w3 a_bc w4 abc w5,
      op [a; b] w = (Normal ab, w1) ∧ op [ab; c] w1 = (Normal ab_c, w2) ∧
      op [b; c] w = (Normal bc, w3) ∧ op [a; bc] w3 = (Normal a_bc, w4) ∧
      op [a; b; c] w = (Normal abc, w5) ∧
      sameIds ab_c a_bc ∧ sameIds ab_c abc.

Definition idempotentOnIds (op : list Relation.t → M Relation.World Relation.t) : Prop :=
  ∀ a w, wfRelation a →
    ∃ r w1 r' w2,
      op [a; a] w = (Normal r, w1) ∧ sameIds r a ∧
      op [a] w = (Normal r', w2) ∧ sameIds r' a.

(** ** Sample data

    Rows of the tables Movie and Actor of the test schema, entries that wrap
    them, and relations over them. *)
Definition sampleHeap : heap :=
  {[ 1%positive := {[ "id" := VNumber 1; "title" := VString "Alien" ]};
     2%positive := {[ "id" := VNumber 2; "title" := VString "Brazil" ]};
     3%positive := {[ "id" := VNumber 3; "title" := VString "Casablanca" ]};
     4%positive := {[ "Actor" := VObject 3%positive ]} ]}.

(** The state of a process that has constructed the four sample entries
    and the four sample relations below. *)
Definition sampleState : RelationEntry.State := RelationEntry.mkState sampleHeap 4.

Definition sampleWorld : Relation.World := Relation.mkWorld sampleState None 4.

Definition movie1 : RelationEntry.t := RelationEntry.mk (Row.mk 1 1) 0 false.
Definition movie2 : RelationEntry.t := RelationEntry.mk (Row.mk 2 2) 1 false.
Definition movie3 : RelationEntry.t := RelationEntry.mk (Row.mk 3 3) 2 false.

(** A prefix-applied entry, as a join makes it, with a slot for Actor only. *)
Definition joined : RelationEntry.t := RelationEntry.mk (Row.mk (-1) 4) 3 true.

Definition movies12 : Relation.t := Relation.mk 0 [movie1; movie2] (StructsSet.new ["Movie"]).
Definition movies23 : Relation.t := Relation.mk 1 [movie2; movie3] (StructsSet.new ["Movie"]).
Definition movies3 : Relation.t := Relation.mk 2 [movie3] (StructsSet.new ["Movie"]).
Definition actors1 : Relation.t := Relation.mk 3 [movie1] (StructsSet.new ["Actor"]).

Definition movieTable : Table.t := Table.mk "Movie" (Some ["id"]).
Definition movieGenreTable : Table.t := Table.mk "MovieGenre" None.
Definition titleColumn : Column.t := Column.mk "title" None movieTable.
Definition titleAsName : Column.t := Column.mk "title" (Some "name") movieTable.

(** ** Tactics *)

(** Case analysis on membership in a list that is written out. *)
Ltac elem_cases :=
  repeat match goal with
         | H : _ ∈ [] |- _ => by apply elem_of_nil in H
         | H : _ ∈ _ :: _ |- _ => apply elem_of_cons in H as [->|H]
         end.

(** Membership in a list that is written out. *)
Ltac elem_solve :=
  solve [repeat (first [by apply list_elem_of_here | apply list_elem_of_further])].

(** ** lf.Global.get and lf.Global.reset *)
Module GlobalInstance.
Section global_instance.
Context {Service : Type}.

(** The registries that exist, each at its address (a registry is written
    to in place by registerService), and the static field
    lf.Global.instance_, where undefined and null are [None]. *)
Record Statics := mkStatics {
  registries : gmap loc (Global.t Service);
  instance_ : option loc
}.

(** The state of a process before the first call. *)
Definition initial : Statics := mkStatics ∅ None.

(** lf.Global.get *)
Definition get (st : Statics) : loc * Statics :=
  match instance_ st with
  | Some g => (g, st)
  | None =>
      let g := fresh (dom (registries st)) in
      (g, mkStatics (<[g := Global.new]> (registries st)) (Some g))
  end.

(** lf.Global.reset *)
Definition reset (st : Statics) : Statics := mkStatics (registries st) None.

(** The methods of lf.Global called on the registry at an address; [None]
    when there is no registry at the address. *)
Definition registerService (g : loc) (serviceId : ServiceId.t) (service : Service)
    (st : Statics) : option (Service * Statics) :=
  this ← registries st !! g;
  Some ((Global.registerService serviceId service this).1,
        mkStatics (<[g := (Global.registerService serviceId service this).2]>
                     (registries st))
                  (instance_ st)).

Definition getService (g : loc) (serviceId : ServiceId.t) (st : Statics)
    : option (completion Service) :=
  Global.getService serviceId <$> registries st !! g.

Definition isRegistered (g : loc) (serviceId : ServiceId.t) (st : Statics)
    : option bool :=
  Global.isRegistered serviceId <$> registries st !! g.

(** The static field holds the address of a registry, if any. *)
Definition wf (st : Statics) : Prop :=
  ∀ g, instance_ st = Some g → is_Some (registries st !! g).

End global_instance.
Arguments Statics : clear implicits.
End GlobalInstance.

(** ** More vocabulary *)

(** The elements of a list in the order of their first occurrence. *)
Definition firstOccurrences {A} `{EqDecision A} (l : list A) : list A :=
  foldl (λ seen x, if decide (x ∈ seen) then seen else seen ++ [x]) [] l.

(** ** More sample data *)
Definition actorTable : Table.t := Table.mk "Actor" (Some ["id"]).
Definition actorIdColumn : Column.t := Column.mk "id" None actorTable.
Definition yearColumn : Column.t := Column.mk "year" None movieTable.

(** * Part II: the properties *)

(** ** goog.structs.Map *)
Section structs_map_facts.
Context {K : Type} `{Countable K} {V : Type}.
Implicit Types (m : StructsMap.t K V) (key k : K) (value v : V).

Lemma hasKey_true (obj : gmap K V) key :
  StructsMap.hasKey_ obj key = true ↔ is_Some (obj !! key).
Proof. unfold StructsMap.hasKey_. apply bool_decide_eq_true. Qed.

Lemma hasKey_false (obj : gmap K V) key :
  StructsMap.hasKey_ obj key = false ↔ obj !! key = None.
Proof.
  unfold StructsMap.hasKey_. rewrite bool_decide_eq_false, eq_None_not_Some. done.
Qed.

Lemma map_wf_empty : StructsMap.wf (StructsMap.empty (K:=K) (V:=V)).
Proof.
  repeat split; simpl.
  - constructor.
  - intros Hk. by apply elem_of_nil in Hk.
  - rewrite lookup_empty. by intros [? ?].
Qed.

Lemma map_set key value m :
  StructsMap.map_ (StructsMap.set key value m) = <[key := value]> (StructsMap.map_ m).
Proof. unfold StructsMap.set. by destruct (StructsMap.hasKey_ _ key). Qed.

Lemma lookup_set_eq key value m :
  StructsMap.map_ (StructsMap.set key value m) !! key = Some value.
Proof. rewrite map_set. apply lookup_insert_eq. Qed.

Lemma lookup_set_ne key key' value m :
  key ≠ key' →
  StructsMap.map_ (StructsMap.set key value m) !! key' = StructsMap.map_ m !! key'.
Proof. intros. rewrite map_set. by apply lookup_insert_ne. Qed.

Lemma keys_set key value m :
  StructsMap.wf m →
  ∀ k, k ∈ StructsMap.keys_ (StructsMap.set key value m) ↔ k = key ∨ k ∈ StructsMap.keys_ m.
Proof.
  intros (_ & Hdom & _) k. unfold StructsMap.set.
  destruct (StructsMap.hasKey_ (StructsMap.map_ m) key) eqn:E; simpl.
  - apply hasKey_true, Hdom in E. split; [by right|].
    intros [->|]; done.
  - rewrite elem_of_app, list_elem_of_singleton. tauto.
Qed.

Lemma map_wf_set key value m : StructsMap.wf m → StructsMap.wf (StructsMap.set key value m).
Proof.
  intros Hwf. pose proof Hwf as (Hnd & Hdom & Hcnt).
  split; [|split].
  - unfold StructsMap.set.
    destruct (StructsMap.hasKey_ (StructsMap.map_ m) key) eqn:E; simpl; [done|].
    apply hasKey_false in E.
    apply NoDup_app. split; [done|]. split; [|apply NoDup_singleton].
    intros k Hk Hk'. apply list_elem_of_singleton in Hk' as ->.
    apply Hdom in Hk. rewrite E in Hk. by destruct Hk.
  - intros k. rewrite keys_set by done. rewrite map_set.
    destruct (decide (key = k)) as [->|Hne].
    + rewrite lookup_insert_eq. split; [eauto|by left].
    + rewrite lookup_insert_ne by done. rewrite <- Hdom.
      split; [intros [?|?]; [congruence|done]|by right].
  - unfold StructsMap.set.
    destruct (StructsMap.hasKey_ (StructsMap.map_ m) key); simpl; [done|].
    rewrite length_app. simpl. lia.
Qed.

Lemma containsKey_keys key m :
  StructsMap.wf m → StructsMap.containsKey key m = true ↔ key ∈ StructsMap.keys_ m.
Proof.
  intros (_ & Hdom & _). unfold StructsMap.containsKey. by rewrite hasKey_true, Hdom.
Qed.

Lemma elem_of_getValues m v :
  StructsMap.wf m → v ∈ StructsMap.getValues m ↔ ∃ k, StructsMap.map_ m !! k = Some v.
Proof.
  intros (_ & Hdom & _). unfold StructsMap.getValues. rewrite list_elem_of_omap.
  split.
  - intros (k & _ & Hk). eauto.
  - intros (k & Hk). exists k. split; [|done]. apply Hdom. eauto.
Qed.

Lemma length_getValues m :
  StructsMap.wf m → length (StructsMap.getValues m) = StructsMap.getCount m.
Proof.
  intros (_ & Hdom & Hcnt). unfold StructsMap.getValues, StructsMap.getCount.
  rewrite Hcnt.
  assert (Hall : ∀ k, k ∈ StructsMap.keys_ m → is_Some (StructsMap.map_ m !! k))
    by (intros; by apply Hdom).
  clear Hdom Hcnt. induction (StructsMap.keys_ m) as [|k ks IH]; [done|]. simpl.
  destruct (Hall k) as [v ->]; [by left|]. simpl. f_equal.
  apply IH. intros. apply Hall. by right.
Qed.

(** In a map that stores each value under the value's own key, the keys of
    the values, in the order of getValues, are the keys of the map: they are
    pairwise distinct. *)
Lemma getValues_keys (keyOf : V → K) m :
  StructsMap.wf m → (∀ k v, StructsMap.map_ m !! k = Some v → keyOf v = k) →
  keyOf <$> StructsMap.getValues m = StructsMap.keys_ m.
Proof.
  intros (Hnd & Hdom & _) Hkey.
  assert (Hall : ∀ k, k ∈ StructsMap.keys_ m → is_Some (StructsMap.map_ m !! k))
    by (intros; by apply Hdom).
  unfold StructsMap.getValues. clear Hdom Hnd.
  induction (StructsMap.keys_ m) as [|k ks IH]; [done|].
  simpl. destruct (Hall k) as [v Hv]; [by left|]. rewrite Hv. simpl.
  rewrite (Hkey _ _ Hv). f_equal. apply IH. intros. apply Hall. by right.
Qed.

Section set_all.
Context {A : Type} (keyOf : A → K) (valOf : A → V).
Implicit Types (l : list A).

Lemma map_wf_setAll l m : StructsMap.wf m → StructsMap.wf (StructsMap.setAll keyOf valOf l m).
Proof.
  revert m. induction l as [|x l IH]; intros m Hm; simpl; [done|].
  apply IH. by apply map_wf_set.
Qed.

Lemma keys_setAll l m :
  StructsMap.wf m →
  ∀ k, k ∈ StructsMap.keys_ (StructsMap.setAll keyOf valOf l m)
       ↔ k ∈ (keyOf <$> l) ∨ k ∈ StructsMap.keys_ m.
Proof.
  revert m. induction l as [|x l IH]; intros m Hm k; simpl.
  - rewrite elem_of_nil. tauto.
  - rewrite IH by (by apply map_wf_set). rewrite keys_set by done.
    rewrite elem_of_cons. tauto.
Qed.

Lemma setAll_app l1 l2 m :
  StructsMap.setAll keyOf valOf (l1 ++ l2) m
  = StructsMap.setAll keyOf valOf l2 (StructsMap.setAll keyOf valOf l1 m).
Proof. unfold StructsMap.setAll. by rewrite foldl_app. Qed.

(** Whatever a loop of [set]s leaves under a key is one of the elements
    written, under its own key, or what was there before. *)
Lemma lookup_setAll_inv l m k v :
  StructsMap.map_ (StructsMap.setAll keyOf valOf l m) !! k = Some v →
  (∃ x, x ∈ l ∧ keyOf x = k ∧ valOf x = v) ∨ StructsMap.map_ m !! k = Some v.
Proof.
  revert m. induction l as [|x l IH]; intros m Hk; simpl in *; [by right|].
  apply IH in Hk as [(y & Hy & Hky & Hvy)|Hk].
  - left. exists y. split; [by right|done].
  - rewrite map_set in Hk. destruct (decide (keyOf x = k)) as [Heq|Hne].
    + rewrite Heq, lookup_insert_eq in Hk. injection Hk as <-.
      left. exists x. split; [by left|done].
    + rewrite lookup_insert_ne in Hk by done. by right.
Qed.

(** Every element written leaves its key bound, to the value of an element
    written under that key. *)
Lemma lookup_setAll_elem l m x :
  x ∈ l → ∃ y, y ∈ l ∧ keyOf y = keyOf x
             ∧ StructsMap.map_ (StructsMap.setAll keyOf valOf l m) !! keyOf x
               = Some (valOf y).
Proof.
  induction l as [|z l IH] using rev_ind; intros Hx; [by apply elem_of_nil in Hx|].
  rewrite setAll_app. simpl. destruct (decide (keyOf z = keyOf x)) as [Heq|Hne].
  - exists z. split; [apply elem_of_app; right; by left|]. split; [done|].
    rewrite <- Heq. apply lookup_set_eq.
  - apply elem_of_app in Hx as [Hx|Hx].
    2:{ apply list_elem_of_singleton in Hx as ->. done. }
    destruct (IH Hx) as (y & Hy & Hky & Hl). exists y.
    split; [apply elem_of_app; by left|]. split; [done|].
    by rewrite lookup_set_ne.
Qed.

End set_all.
End structs_map_facts.

(** ** goog.structs.Set *)
Section structs_set_facts.
Implicit Types (s col : StructsSet.t) (x y : string).

Lemma getKey_inj x y : StructsSet.getKey_ x = StructsSet.getKey_ y → x = y.
Proof.
  unfold StructsSet.getKey_. intros Heq. cbv [String.append] in Heq. congruence.
Qed.

Lemma sset_wf_empty : StructsSet.wf (StructsSet.mk StructsMap.empty).
Proof.
  split; [apply map_wf_empty|]. simpl. intros k v Hk.
  by rewrite lookup_empty in Hk.
Qed.

Lemma sset_wf_add x s : StructsSet.wf s → StructsSet.wf (StructsSet.add x s).
Proof.
  intros [Hm Hk]. split; simpl; [by apply map_wf_set|].
  intros k v. rewrite map_set.
  destruct (decide (StructsSet.getKey_ x = k)) as [<-|Hne].
  - rewrite lookup_insert_eq. by intros [= <-].
  - rewrite lookup_insert_ne by done. apply Hk.
Qed.

Lemma sset_wf_addAll l s : StructsSet.wf s → StructsSet.wf (StructsSet.addAll l s).
Proof.
  revert s. induction l as [|x l IH]; intros s Hs; simpl; [done|].
  apply IH. by apply sset_wf_add.
Qed.

Lemma sset_wf_new l : StructsSet.wf (StructsSet.new l).
Proof. apply sset_wf_addAll, sset_wf_empty. Qed.

Lemma contains_add x y s :
  StructsSet.wf s →
  StructsSet.contains y (StructsSet.add x s) = true
  ↔ y = x ∨ StructsSet.contains y s = true.
Proof.
  intros [Hm _]. unfold StructsSet.contains, StructsSet.add. simpl.
  rewrite !containsKey_keys by (done || by apply map_wf_set).
  rewrite keys_set by done. split.
  - intros [Heq|?]; [left; by apply getKey_inj|by right].
  - intros [->|?]; [by left|by right].
Qed.

Lemma contains_addAll l y s :
  StructsSet.wf s →
  StructsSet.contains y (StructsSet.addAll l s) = true
  ↔ y ∈ l ∨ StructsSet.contains y s = true.
Proof.
  revert s. induction l as [|x l IH]; intros s Hs; simpl.
  - rewrite elem_of_nil. tauto.
  - rewrite IH by (by apply sset_wf_add). rewrite contains_add by done.
    rewrite elem_of_cons. tauto.
Qed.

(** The set built from an array contains exactly the elements of the array. *)
Lemma contains_new l y : StructsSet.contains y (StructsSet.new l) = true ↔ y ∈ l.
Proof.
  unfold StructsSet.new. rewrite contains_addAll by apply sset_wf_empty.
  split; [|by left]. intros [?|Hc]; [done|].
  unfold StructsSet.contains, StructsMap.containsKey in Hc.
  apply hasKey_true in Hc. simpl in Hc. rewrite lookup_empty in Hc. by destruct Hc.
Qed.

Lemma elem_of_sset_values s x :
  StructsSet.wf s → x ∈ StructsSet.getValues s ↔ StructsSet.contains x s = true.
Proof.
  intros [Hm Hk]. unfold StructsSet.getValues, StructsSet.contains.
  rewrite elem_of_getValues by done. unfold StructsMap.containsKey.
  rewrite hasKey_true. split.
  - intros (k & Hl). rewrite <- (Hk _ _ Hl). eauto.
  - intros [v Hl]. pose proof (Hk _ _ Hl) as Heq. apply getKey_inj in Heq as ->. eauto.
Qed.

Lemma NoDup_sset_values s : StructsSet.wf s → NoDup (StructsSet.getValues s).
Proof.
  intros [Hm Hk]. unfold StructsSet.getValues.
  apply (NoDup_fmap_1 StructsSet.getKey_).
  rewrite (getValues_keys StructsSet.getKey_) by (done || (intros; symmetry; eauto)).
  apply Hm.
Qed.

Lemma length_sset_values s :
  StructsSet.wf s → length (StructsSet.getValues s) = StructsSet.getCount s.
Proof. intros [Hm _]. by apply length_getValues. Qed.

Lemma isSubsetOf_spec s col :
  StructsSet.wf s → StructsSet.wf col →
  StructsSet.isSubsetOf s col = true
  ↔ ∀ x, StructsSet.contains x s = true → StructsSet.contains x col = true.
Proof.
  intros Hs Hcol. unfold StructsSet.isSubsetOf. simpl.
  destruct (decide (StructsSet.getCount col < StructsSet.getCount s)) as [Hlt|Hge].
  - split; [done|]. intros Hsub. exfalso.
    rewrite <- !length_sset_values in Hlt by done.
    assert (StructsSet.getValues s ⊆+ StructsSet.getValues col) as Hsm.
    { apply NoDup_submseteq; [by apply NoDup_sset_values|].
      intros x. rewrite !elem_of_sset_values by done. apply Hsub. }
    apply submseteq_length in Hsm. lia.
  - rewrite forallb_forall. split.
    + intros Hall x Hx. apply Hall, list_elem_of_In, elem_of_sset_values; done.
    + intros Hsub x Hx. apply Hsub, elem_of_sset_values, list_elem_of_In; done.
Qed.

(** equals decides equality of the sets of elements. *)
Lemma equals_spec s col :
  StructsSet.wf s → StructsSet.wf col →
  StructsSet.equals s col = true
  ↔ ∀ x, StructsSet.contains x s = true ↔ StructsSet.contains x col = true.
Proof.
  intros Hs Hcol. unfold StructsSet.equals.
  rewrite andb_true_iff, bool_decide_eq_true, isSubsetOf_spec by done.
  rewrite <- !length_sset_values by done. split.
  - intros [Hlen Hsub] x. split; [apply Hsub|].
    assert (StructsSet.getValues s ⊆+ StructsSet.getValues col) as Hsm.
    { apply NoDup_submseteq; [by apply NoDup_sset_values|].
      intros y. rewrite !elem_of_sset_values by done. apply Hsub. }
    apply submseteq_length_Permutation in Hsm; [|lia].
    rewrite <- !elem_of_sset_values by done. by rewrite Hsm.
  - intros Heq. split; [|intros x; apply Heq].
    apply Permutation_length, NoDup_Permutation; try by apply NoDup_sset_values.
    intros x. rewrite !elem_of_sset_values by done. apply Heq.
Qed.

End structs_set_facts.

(** ** Maps from entry id to entry *)
Section entry_map_facts.
Implicit Types (l : list RelationEntry.t) (e : RelationEntry.t) (i : N).

Lemma mapOfEntries_wf l : StructsMap.wf (mapOfEntries l).
Proof. apply map_wf_setAll, map_wf_empty. Qed.

(** The map binds an id to an entry of the list that has this id. *)
Lemma mapOfEntries_lookup l i e :
  StructsMap.map_ (mapOfEntries l) !! i = Some e → e ∈ l ∧ RelationEntry.id e = i.
Proof.
  intros Hl. apply lookup_setAll_inv in Hl as [(x & Hx & Hk & <-)|Hl]; [done|].
  simpl in Hl. by rewrite lookup_empty in Hl.
Qed.

Lemma mapOfEntries_values_elem l e :
  e ∈ StructsMap.getValues (mapOfEntries l) → e ∈ l.
Proof.
  rewrite elem_of_getValues by apply mapOfEntries_wf.
  intros (k & Hk). by apply mapOfEntries_lookup in Hk as [? _].
Qed.

Lemma mapOfEntries_ids l :
  RelationEntry.id <$> StructsMap.getValues (mapOfEntries l)
  = StructsMap.keys_ (mapOfEntries l).
Proof.
  apply getValues_keys; [apply mapOfEntries_wf|].
  intros k v Hk. by apply mapOfEntries_lookup in Hk as [_ ?].
Qed.

(** getValues of the map has the ids of the list, each once. *)
Lemma mapOfEntries_values_ids l i :
  i ∈ (RelationEntry.id <$> StructsMap.getValues (mapOfEntries l))
  ↔ i ∈ (RelationEntry.id <$> l).
Proof.
  rewrite mapOfEntries_ids. unfold mapOfEntries.
  rewrite keys_setAll by apply map_wf_empty. simpl. rewrite elem_of_nil. tauto.
Qed.

Lemma mapOfEntries_values_NoDup l :
  NoDup (RelationEntry.id <$> StructsMap.getValues (mapOfEntries l)).
Proof. rewrite mapOfEntries_ids. apply mapOfEntries_wf. Qed.

Lemma mapOfEntries_containsKey l i :
  StructsMap.containsKey i (mapOfEntries l) = true ↔ i ∈ (RelationEntry.id <$> l).
Proof.
  rewrite containsKey_keys by apply mapOfEntries_wf.
  by rewrite <- mapOfEntries_ids, mapOfEntries_values_ids.
Qed.

(** When an id names one entry of the list, getValues has every entry of
    the list. *)
Lemma mapOfEntries_values_all l e :
  (∀ x y, x ∈ l → y ∈ l → RelationEntry.id x = RelationEntry.id y → x = y) →
  e ∈ l → e ∈ StructsMap.getValues (mapOfEntries l).
Proof.
  intros Hid He. apply elem_of_getValues; [apply mapOfEntries_wf|].
  destruct (lookup_setAll_elem RelationEntry.id (λ entry, entry) l StructsMap.empty e He)
    as (y & Hy & Hk & Hl).
  exists (RelationEntry.id e). unfold mapOfEntries. rewrite Hl. f_equal.
  by apply Hid.
Qed.

End entry_map_facts.

(** ** The loops of union and intersect *)
Section relation_loops.
Implicit Types (r : Relation.t) (rs : list Relation.t) (w : Relation.World).

Lemma allEntriesOf_cons r rs :
  allEntriesOf (r :: rs) = Relation.entries r ++ allEntriesOf rs.
Proof. done. Qed.

Lemma elem_of_allEntriesOf rs e :
  e ∈ allEntriesOf rs ↔ ∃ r, r ∈ rs ∧ e ∈ Relation.entries r.
Proof.
  induction rs as [|r rs IH].
  - split; [by intros ?%elem_of_nil|by intros (? & ?%elem_of_nil & _)].
  - rewrite allEntriesOf_cons, elem_of_app, IH. split.
    + intros [He|(r' & Hr' & He)]; [exists r; split; [by left|done]|].
      exists r'. split; [by right|done].
    + intros (r' & [->|Hr']%elem_of_cons & He); [by left|right; eauto].
Qed.

Lemma assertCompatible_true r0 r :
  Relation.isCompatible r0 r = true → Relation.assertCompatible_ r0 r = Normal tt.
Proof. unfold Relation.assertCompatible_, goog_asserts_assert. by intros ->. Qed.

Lemma assertCompatible_false r0 r :
  Relation.isCompatible r0 r = false →
  Relation.assertCompatible_ r0 r
  = Throw (AssertionError
             "Assertion failed: Intersection/union operations only apply to compatible relations.").
Proof. unfold Relation.assertCompatible_, goog_asserts_assert. by intros ->. Qed.

(** The loop of union sets every entry of every relation, unless an
    assertion fails. *)
Lemma unionMap_eval r0 rs :
  Relation.unionMap r0 rs
  = if allCompatible r0 rs then Normal (mapOfEntries (allEntriesOf rs))
    else Throw (AssertionError
                  "Assertion failed: Intersection/union operations only apply to compatible relations.").
Proof.
  unfold Relation.unionMap, mapOfEntries. generalize (StructsMap.empty (K:=N) (V:=RelationEntry.t)).
  induction rs as [|r rs IH]; intros u; simpl; [done|].
  destruct (Relation.isCompatible r0 r) eqn:E; simpl.
  - rewrite (assertCompatible_true _ _ E). simpl. rewrite IH.
    by rewrite allEntriesOf_cons, setAll_app.
  - by rewrite (assertCompatible_false _ _ E).
Qed.

(** The reduce of intersect counts all entries, unless an assertion fails. *)
Lemma totalCount_eval r0 rs :
  Relation.totalCount r0 rs
  = if allCompatible r0 rs then Normal (length (allEntriesOf rs))
    else Throw (AssertionError
                  "Assertion failed: Intersection/union operations only apply to compatible relations.").
Proof.
  unfold Relation.totalCount.
  enough (Hgen : ∀ n,
    foldlM (λ soFar relation,
              Relation.assertCompatible_ r0 relation;;
              mret (soFar + length (Relation.entries relation))) n rs
    = if allCompatible r0 rs then Normal (n + length (allEntriesOf rs))
      else Throw (AssertionError
                    "Assertion failed: Intersection/union operations only apply to compatible relations."))
    by apply (Hgen 0).
  induction rs as [|r rs IH]; intros n; simpl; [by rewrite Nat.add_0_r|].
  destruct (Relation.isCompatible r0 r) eqn:E; simpl.
  - rewrite (assertCompatible_true _ _ E). simpl. rewrite IH.
    rewrite allEntriesOf_cons, length_app.
    destruct (allCompatible r0 rs); [f_equal; lia|done].
  - by rewrite (assertCompatible_false _ _ E).
Qed.

(** A write at the first hole of an array filled from the left. *)
Lemma Array_set_next {A} (done : list A) (x : A) (k : nat) :
  Array_set (length done) x ((Some <$> done) ++ replicate (S k) None)
  = (Some <$> (done ++ [x])) ++ replicate k None.
Proof.
  unfold Array_set. rewrite length_app, length_fmap, length_replicate.
  rewrite decide_True by lia.
  rewrite insert_app_r_alt by (by rewrite length_fmap).
  rewrite length_fmap, Nat.sub_diag. simpl. rewrite fmap_app. simpl.
  by rewrite <- app_assoc.
Qed.

Lemma fillEntries_eval r (done : list RelationEntry.t) (k : nat) :
  length (Relation.entries r) ≤ k →
  Relation.fillEntries r ((Some <$> done) ++ replicate k None, length done)
  = ((Some <$> (done ++ Relation.entries r))
       ++ replicate (k - length (Relation.entries r)) None,
     length done + length (Relation.entries r),
     mapOfEntries (Relation.entries r)).
Proof.
  unfold Relation.fillEntries, mapOfEntries. simpl.
  generalize (StructsMap.empty (K:=N) (V:=RelationEntry.t)).
  revert done k. induction (Relation.entries r) as [|e es IH]; intros done k m Hk; simpl.
  - by rewrite app_nil_r, Nat.sub_0_r, Nat.add_0_r.
  - destruct k as [|k]; [simpl in Hk; lia|].
    rewrite Array_set_next.
    replace (S (length done)) with (length (done ++ [e])) by (rewrite length_app; simpl; lia).
    rewrite IH by (simpl in Hk; lia).
    rewrite <- app_assoc. simpl. rewrite length_app. simpl.
    do 2 f_equal. lia.
Qed.

Lemma fillAll_eval rs :
  Relation.fillAll rs (Array_new (length (allEntriesOf rs)))
  = (Some <$> allEntriesOf rs, length (allEntriesOf rs), relationMapsOf rs).
Proof.
  unfold Relation.fillAll, Array_new.
  enough (Hgen : ∀ (done : list RelationEntry.t) k maps,
    length (allEntriesOf rs) ≤ k →
    foldl (λ '(allEntries, entryCounter, relationMaps) relation,
             let '(allEntries, entryCounter, map) :=
               Relation.fillEntries relation (allEntries, entryCounter) in
             (allEntries, entryCounter, relationMaps ++ [map]))
          ((Some <$> done) ++ replicate k None, length done, maps) rs
    = ((Some <$> (done ++ allEntriesOf rs))
         ++ replicate (k - length (allEntriesOf rs)) None,
       length done + length (allEntriesOf rs),
       maps ++ relationMapsOf rs)).
  { specialize (Hgen [] (length (allEntriesOf rs)) [] (Nat.le_refl _)).
    simpl in Hgen. rewrite Hgen. by rewrite Nat.sub_diag, app_nil_r. }
  induction rs as [|r rs IH]; intros done k maps Hk; simpl.
  - by rewrite !app_nil_r, Nat.sub_0_r, Nat.add_0_r.
  - rewrite allEntriesOf_cons, length_app in Hk.
    rewrite fillEntries_eval by lia.
    replace (length done + length (Relation.entries r))
      with (length (done ++ Relation.entries r)) by (by rewrite length_app).
    rewrite IH by lia.
    rewrite allEntriesOf_cons, !length_app, <- !app_assoc. simpl.
    rewrite Nat.add_assoc, Nat.sub_add_distr. done.
Qed.

(** The for loop of intersect sets the entries that are in every map. *)
Lemma intersection_eval rs (l : list RelationEntry.t) :
  Relation.intersection (relationMapsOf rs) (Some <$> l)
  = Normal (mapOfEntries (filter (λ e, existsInAll rs e = true) l)).
Proof.
  unfold Relation.intersection, mapOfEntries.
  generalize (StructsMap.empty (K:=N) (V:=RelationEntry.t)).
  induction l as [|e l IH]; intros m; simpl; [done|].
  rewrite IH. f_equal. rewrite filter_cons. fold (existsInAll rs e).
  destruct (decide (existsInAll rs e = true)) as [->|Hne]; [done|].
  by apply not_true_is_false in Hne as ->.
Qed.

Lemma existsInAll_spec rs e :
  existsInAll rs e = true ↔ ∀ r, r ∈ rs → RelationEntry.id e ∈ entryIds r.
Proof.
  unfold existsInAll, relationMapsOf. rewrite forallb_forall. split.
  - intros Hall r Hr. apply mapOfEntries_containsKey, Hall.
    apply list_elem_of_In, list_elem_of_fmap. eauto.
  - intros Hall m Hm. apply list_elem_of_In, list_elem_of_fmap in Hm as (r & -> & Hr).
    by apply mapOfEntries_containsKey, Hall.
Qed.

End relation_loops.

(** ** Compatibility, union and intersect *)
Section relation_facts.
Implicit Types (r : Relation.t) (rs : list Relation.t) (w : Relation.World).

Lemma isCompatible_spec r1 r2 :
  wfRelation r1 → wfRelation r2 →
  Relation.isCompatible r1 r2 = true ↔ sameTables r1 r2.
Proof. intros H1 H2. unfold Relation.isCompatible. by rewrite equals_spec. Qed.

Lemma isCompatible_false r1 r2 :
  wfRelation r1 → wfRelation r2 →
  Relation.isCompatible r1 r2 = false ↔ ¬ sameTables r1 r2.
Proof.
  intros H1 H2. rewrite <- isCompatible_spec by done.
  destruct (Relation.isCompatible r1 r2); split; done.
Qed.

Lemma allCompatible_true r1 rs :
  allCompatible r1 rs = true ↔ ∀ r, r ∈ rs → Relation.isCompatible r1 r = true.
Proof.
  unfold allCompatible. rewrite forallb_forall.
  split; intros Hall r Hr; apply Hall; by apply list_elem_of_In.
Qed.

Lemma allCompatible_false r1 rs :
  allCompatible r1 rs = false ↔ ∃ r, r ∈ rs ∧ Relation.isCompatible r1 r = false.
Proof.
  split.
  - intros Hf.
    assert (¬ Forall (λ r, Relation.isCompatible r1 r = true) rs) as Hn.
    { intros Hall. rewrite Forall_forall in Hall.
      apply allCompatible_true in Hall. congruence. }
    apply not_Forall_Exists in Hn; [|intros; apply _].
    apply Exists_exists in Hn as (r & Hr & Hc). exists r. split; [done|].
    simpl in Hc. by apply not_true_is_false.
  - intros (r & Hr & Hc). apply not_true_is_false. intros Ht.
    rewrite allCompatible_true in Ht. rewrite (Ht r Hr) in Hc. done.
Qed.

Lemma union_eval r1 rs w :
  Relation.union (r1 :: rs) w
  = if allCompatible r1 (r1 :: rs)
    then (Normal (Relation.mk (Relation.nextOid w)
                    (StructsMap.getValues (mapOfEntries (allEntriesOf (r1 :: rs))))
                    (StructsSet.new (StructsSet.getValues (Relation.tables_ r1)))),
          allocated w)
    else (Throw (AssertionError
                   "Assertion failed: Intersection/union operations only apply to compatible relations."),
          w).
Proof.
  unfold Relation.union, mbind, M_bind, lift. rewrite unionMap_eval.
  by destruct (allCompatible r1 (r1 :: rs)).
Qed.

Lemma intersect_eval r1 rs w :
  Relation.intersect (r1 :: rs) w
  = if allCompatible r1 (r1 :: rs)
    then (Normal (Relation.mk (Relation.nextOid w)
                    (StructsMap.getValues
                       (mapOfEntries (filter (λ e, existsInAll (r1 :: rs) e = true)
                                             (allEntriesOf (r1 :: rs)))))
                    (StructsSet.new (StructsSet.getValues (Relation.tables_ r1)))),
          allocated w)
    else (Throw (AssertionError
                   "Assertion failed: Intersection/union operations only apply to compatible relations."),
          w).
Proof.
  unfold Relation.intersect, mbind, M_bind, lift. rewrite totalCount_eval.
  destruct (allCompatible r1 (r1 :: rs)); [|done].
  rewrite fillAll_eval, intersection_eval. done.
Qed.

(** The table set of a result of union or intersect is that of the first
    input. *)
Lemma result_tables r1 o es :
  wfRelation r1 →
  sameTables (Relation.mk o es (StructsSet.new (StructsSet.getValues (Relation.tables_ r1)))) r1.
Proof.
  intros Hwf name. unfold hasTable. simpl.
  by rewrite contains_new, elem_of_sset_values.
Qed.

Lemma result_wf o es tables : wfRelation (Relation.mk o es (StructsSet.new tables)).
Proof. apply sset_wf_new. Qed.

Lemma pairwiseCompatible_head r1 rs :
  pairwiseCompatible (r1 :: rs) → allCompatible r1 (r1 :: rs) = true.
Proof.
  intros Hp. apply allCompatible_true. intros r Hr. apply Hp; [by left|done].
Qed.

(** The ids of a union are the ids of the inputs. *)
Lemma union_ids r1 rs i :
  i ∈ (RelationEntry.id <$> StructsMap.getValues (mapOfEntries (allEntriesOf (r1 :: rs))))
  ↔ ∃ r, r ∈ r1 :: rs ∧ i ∈ entryIds r.
Proof.
  rewrite mapOfEntries_values_ids, list_elem_of_fmap. unfold entryIds. split.
  - intros (e & -> & He). apply elem_of_allEntriesOf in He as (r & Hr & He).
    exists r. split; [done|]. apply list_elem_of_fmap. eauto.
  - intros (r & Hr & Hi). apply list_elem_of_fmap in Hi as (e & -> & He).
    exists e. split; [done|]. apply elem_of_allEntriesOf. eauto.
Qed.

(** The ids of an intersection are the ids every input has. *)
Lemma intersect_ids r1 rs i :
  i ∈ (RelationEntry.id <$> StructsMap.getValues
         (mapOfEntries (filter (λ e, existsInAll (r1 :: rs) e = true)
                               (allEntriesOf (r1 :: rs)))))
  ↔ ∀ r, r ∈ r1 :: rs → i ∈ entryIds r.
Proof.
  rewrite mapOfEntries_values_ids, list_elem_of_fmap. split.
  - intros (e & -> & He). apply list_elem_of_filter in He as [He _].
    by apply existsInAll_spec.
  - intros Hall. pose proof (Hall r1 (list_elem_of_here _ _)) as Hi.
    apply list_elem_of_fmap in Hi as (e & -> & He). exists e. split; [done|].
    apply list_elem_of_filter. split; [by apply existsInAll_spec|].
    apply elem_of_allEntriesOf. exists r1. split; [by left|done].
Qed.

End relation_facts.

(** ** Union and intersect of compatible relations *)
Section set_operations.
Implicit Types (r a b c : Relation.t) (rs : list Relation.t) (w : Relation.World).

Lemma idsIdentify_all rs x y :
  idsIdentifyEntries rs → x ∈ allEntriesOf rs → y ∈ allEntriesOf rs →
  RelationEntry.id x = RelationEntry.id y → x = y.
Proof.
  intros Hid (rx & Hrx & Hx)%elem_of_allEntriesOf (ry & Hry & Hy)%elem_of_allEntriesOf.
  by apply (Hid rx ry).
Qed.

(** C1. For a non-empty list of pairwise-compatible relations, intersect
    and union complete. The ids of the intersection are exactly the ids
    present in every input, the ids of the union are exactly the ids of the
    inputs, no id is twice in either result, and every entry of a result is
    an entry of an input. Entries are objects that get their id when they
    are constructed, so among the inputs two entries with one id are one
    entry; then the entries of the intersection are exactly the input
    entries whose id is present in every input, and the entries of the
    union are exactly the input entries. The table set of either result
    equals that of the first input. *)
Theorem union_intersect_entries rs (r1 : Relation.t) w :
  head rs = Some r1 →
  Forall wfRelation rs →
  pairwiseCompatible rs →
  ∃ ri ru wi wu,
    Relation.intersect rs w = (Normal ri, wi) ∧
    Relation.union rs w = (Normal ru, wu) ∧
    (∀ i, i ∈ entryIds ri ↔ ∀ r, r ∈ rs → i ∈ entryIds r) ∧
    (∀ i, i ∈ entryIds ru ↔ ∃ r, r ∈ rs ∧ i ∈ entryIds r) ∧
    NoDup (entryIds ri) ∧ NoDup (entryIds ru) ∧
    (∀ e, e ∈ Relation.entries ri → ∃ r, r ∈ rs ∧ e ∈ Relation.entries r) ∧
    (∀ e, e ∈ Relation.entries ru → ∃ r, r ∈ rs ∧ e ∈ Relation.entries r) ∧
    (idsIdentifyEntries rs →
       (∀ e, e ∈ Relation.entries ri
             ↔ (∃ r, r ∈ rs ∧ e ∈ Relation.entries r)
               ∧ ∀ r, r ∈ rs → RelationEntry.id e ∈ entryIds r) ∧
       (∀ e, e ∈ Relation.entries ru ↔ ∃ r, r ∈ rs ∧ e ∈ Relation.entries r)) ∧
    sameTables ri r1 ∧ sameTables ru r1.
Proof.
  intros Hhead Hwf Hcompat. destruct rs as [|r rs]; [done|].
  injection Hhead as ->.
  assert (wfRelation r1) as Hwf1 by (by apply Forall_cons in Hwf as [? _]).
  rewrite intersect_eval, union_eval, pairwiseCompatible_head by done.
  do 4 eexists. split; [done|]. split; [done|]. simpl.
  split; [apply intersect_ids|]. split; [apply union_ids|].
  split; [apply mapOfEntries_values_NoDup|].
  split; [apply mapOfEntries_values_NoDup|].
  split; [|split; [|split; [|split]]].
  - intros e [_ He]%mapOfEntries_values_elem%list_elem_of_filter.
    apply (proj1 (elem_of_allEntriesOf (r1 :: rs) e)). exact He.
  - intros e He%mapOfEntries_values_elem.
    apply (proj1 (elem_of_allEntriesOf (r1 :: rs) e)). exact He.
  - intros Hid. split; intros e.
    + rewrite <- elem_of_allEntriesOf, <- existsInAll_spec. split.
      * intros He%mapOfEntries_values_elem%list_elem_of_filter. tauto.
      * intros [He Hall]. apply mapOfEntries_values_all.
        -- intros x y [_ Hx]%list_elem_of_filter [_ Hy]%list_elem_of_filter.
           by apply (idsIdentify_all (r1 :: rs)).
        -- by apply list_elem_of_filter.
    + rewrite <- elem_of_allEntriesOf. split.
      * apply mapOfEntries_values_elem.
      * apply mapOfEntries_values_all. intros x y.
        by apply (idsIdentify_all (r1 :: rs)).
  - by apply result_tables.
  - by apply result_tables.
Qed.

End set_operations.

Lemma union_intersect_entries_witness :
  ∃ ri ru,
    (Relation.intersect [movies12; movies23] sampleWorld).1 = Normal ri ∧
    (Relation.union [movies12; movies23] sampleWorld).1 = Normal ru ∧
    (∀ e, e ∈ Relation.entries ri
          ↔ (∃ r, r ∈ [movies12; movies23] ∧ e ∈ Relation.entries r)
            ∧ ∀ r, r ∈ [movies12; movies23] → RelationEntry.id e ∈ entryIds r) ∧
    (∀ e, e ∈ Relation.entries ru
          ↔ ∃ r, r ∈ [movies12; movies23] ∧ e ∈ Relation.entries r) ∧
    NoDup (entryIds ri) ∧ NoDup (entryIds ru) ∧
    sameTables ri movies12 ∧ sameTables ru movies12.
Proof.
  destruct (union_intersect_entries [movies12; movies23] movies12 sampleWorld)
    as (ri & ru & wi & wu & Hi & Hu & _ & _ & Hndi & Hndu & _ & _ & Hexact & Hti & Htu).
  - reflexivity.
  - apply Forall_forall. intros r Hr. elem_cases; apply sset_wf_new.
  - intros r1 r2 H1 H2. elem_cases; vm_compute; reflexivity.
  - destruct Hexact as [Hei Heu].
    + intros r1 r2 e1 e2 H1 H2 He1 He2. elem_cases; simpl in *; elem_cases;
        simpl; intros; (reflexivity || discriminate).
    + exists ri, ru. rewrite Hi, Hu. auto 10.
Defined.

(** For example: the intersection of {movie1, movie2} and {movie2, movie3}
    is {movie2}, their union has the three entries in the order they were
    first seen. *)
Example intersect_union_sample :
  Relation.entries <$> (Relation.intersect [movies12; movies23] sampleWorld).1
    = Normal [movie2]
  ∧ Relation.entries <$> (Relation.union [movies12; movies23] sampleWorld).1
    = Normal [movie1; movie2; movie3].
Proof. split; vm_compute; reflexivity. Qed.

Section compatibility.
Implicit Types (r : Relation.t) (rs : list Relation.t) (w : Relation.World).

Lemma allCompatible_sameTables r1 rs :
  wfRelation r1 → Forall wfRelation rs →
  allCompatible r1 rs = true ↔ ∀ r, r ∈ rs → sameTables r1 r.
Proof.
  intros Hwf1 Hwf. rewrite Forall_forall in Hwf. rewrite allCompatible_true.
  split; intros Hall r Hr; apply isCompatible_spec; auto.
Qed.

Lemma allCompatible_differs r1 rs :
  wfRelation r1 → Forall wfRelation rs →
  allCompatible r1 rs = false ↔ ∃ r, r ∈ rs ∧ ¬ sameTables r1 r.
Proof.
  intros Hwf1 Hwf. rewrite Forall_forall in Hwf. rewrite allCompatible_false.
  split; intros (r & Hr & Hc); exists r; (split; [done|]);
    apply isCompatible_false; auto.
Qed.

(** C3. isCompatible holds exactly of relations with equal source-table
    sets. union and intersect assert every input compatible with the first
    one: the assertion on an input fails exactly when its table set differs
    from that of the first input, the call throws the assertion's error
    exactly when some input differs, and completes when all inputs share
    the table set of the first. *)
Theorem compatibility_is_table_set_equality :
  (∀ r1 r2, wfRelation r1 → wfRelation r2 →
     (Relation.isCompatible r1 r2 = true ↔ sameTables r1 r2)) ∧
  (∀ r1 rs w, Forall wfRelation (r1 :: rs) →
     (∀ r, r ∈ r1 :: rs →
        (Relation.assertCompatible_ r1 r = Normal tt ↔ sameTables r1 r) ∧
        ((∃ msg, Relation.assertCompatible_ r1 r = Throw (AssertionError msg))
         ↔ ¬ sameTables r1 r)) ∧
     ((∃ msg w', Relation.union (r1 :: rs) w = (Throw (AssertionError msg), w'))
      ↔ ∃ r, r ∈ r1 :: rs ∧ ¬ sameTables r1 r) ∧
     ((∃ msg w', Relation.intersect (r1 :: rs) w = (Throw (AssertionError msg), w'))
      ↔ ∃ r, r ∈ r1 :: rs ∧ ¬ sameTables r1 r) ∧
     ((∃ ru wu, Relation.union (r1 :: rs) w = (Normal ru, wu))
      ↔ ∀ r, r ∈ r1 :: rs → sameTables r1 r) ∧
     ((∃ ri wi, Relation.intersect (r1 :: rs) w = (Normal ri, wi))
      ↔ ∀ r, r ∈ r1 :: rs → sameTables r1 r)).
Proof.
  split; [apply isCompatible_spec|].
  intros r1 rs w Hwf.
  assert (wfRelation r1) as Hwf1 by (by apply Forall_cons in Hwf as [? _]).
  pose proof (allCompatible_sameTables r1 (r1 :: rs) Hwf1 Hwf) as Hsame.
  pose proof (allCompatible_differs r1 (r1 :: rs) Hwf1 Hwf) as Hdiff.
  rewrite union_eval, intersect_eval.
  split.
  { intros r Hr. rewrite Forall_forall in Hwf. specialize (Hwf r Hr).
    rewrite <- isCompatible_spec by done.
    unfold Relation.assertCompatible_, goog_asserts_assert.
    destruct (Relation.isCompatible r1 r).
    - split; [done|]. split; [by intros [? ?]|done].
    - split; [done|]. split; [done|eauto]. }
  destruct (allCompatible r1 (r1 :: rs)) eqn:E.
  - assert (¬ ∃ r, r ∈ r1 :: rs ∧ ¬ sameTables r1 r) as Hno.
    { intros Hex. apply Hdiff in Hex. done. }
    assert (∀ r, r ∈ r1 :: rs → sameTables r1 r) as Hall by (by apply Hsame).
    split; [split; [by intros (? & ? & ?)|done]|].
    split; [split; [by intros (? & ? & ?)|done]|].
    split; (split; [done|eauto]).
  - assert (∃ r, r ∈ r1 :: rs ∧ ¬ sameTables r1 r) as Hex by (by apply Hdiff).
    assert (¬ ∀ r, r ∈ r1 :: rs → sameTables r1 r) as Hno.
    { intros Hall. apply Hsame in Hall. done. }
    split; [split; [done|eauto]|].
    split; [split; [done|eauto]|].
    split; (split; [by intros (? & ? & ?)|done]).
Qed.

Lemma compatibility_is_table_set_equality_witness :
  (Relation.isCompatible movies12 movies23 = true ↔ sameTables movies12 movies23) ∧
  ((∃ msg w', Relation.union [movies12; actors1] sampleWorld
              = (Throw (AssertionError msg), w'))
   ↔ ∃ r, r ∈ [movies12; actors1] ∧ ¬ sameTables movies12 r) ∧
  ((∃ ri wi, Relation.intersect [movies12; movies23] sampleWorld = (Normal ri, wi))
   ↔ ∀ r, r ∈ [movies12; movies23] → sameTables movies12 r).
Proof.
  split; [|split].
  - apply (proj1 compatibility_is_table_set_equality); apply sset_wf_new.
  - apply (proj2 compatibility_is_table_set_equality movies12 [actors1] sampleWorld).
    apply Forall_forall. intros r Hr. elem_cases; apply sset_wf_new.
  - apply (proj2 compatibility_is_table_set_equality movies12 [movies23] sampleWorld).
    apply Forall_forall. intros r Hr. elem_cases; apply sset_wf_new.
Defined.

(** For example: a relation over Movie and one over Actor are not
    compatible, and their union throws. *)
Example union_incompatible_sample :
  Relation.isCompatible movies12 actors1 = false
  ∧ (Relation.union [movies12; actors1] sampleWorld).1
    = Throw (AssertionError
               "Assertion failed: Intersection/union operations only apply to compatible relations.").
Proof. split; vm_compute; reflexivity. Qed.

End compatibility.

(** ** The set laws and the empty relation *)
Section set_laws.
Implicit Types (r a b c : Relation.t) (rs : list Relation.t) (w : Relation.World).

Lemma sameTables_refl r : sameTables r r.
Proof. by intros name. Qed.

Lemma sameTables_sym r1 r2 : sameTables r1 r2 → sameTables r2 r1.
Proof. intros Hs name. by rewrite (Hs name). Qed.

Lemma sameTables_trans r1 r2 r3 : sameTables r1 r2 → sameTables r2 r3 → sameTables r1 r3.
Proof. intros H12 H23 name. by rewrite (H12 name), (H23 name). Qed.

Lemma pairwiseCompatible_sameTables rs r1 r2 :
  Forall wfRelation rs → pairwiseCompatible rs → r1 ∈ rs → r2 ∈ rs → sameTables r1 r2.
Proof.
  intros Hwf Hp H1 H2. rewrite Forall_forall in Hwf.
  apply isCompatible_spec; auto.
Qed.

Lemma pairwiseCompatible_intro rs :
  Forall wfRelation rs → (∀ r1 r2, r1 ∈ rs → r2 ∈ rs → sameTables r1 r2) →
  pairwiseCompatible rs.
Proof.
  intros Hwf Hs r1 r2 H1 H2. rewrite Forall_forall in Hwf.
  apply isCompatible_spec; auto.
Qed.

(** What union returns on compatible inputs: a well-formed relation over
    the tables of the first input whose ids are the ids of the inputs. *)
Lemma union_ok r1 rs w :
  Forall wfRelation (r1 :: rs) → pairwiseCompatible (r1 :: rs) →
  ∃ r, Relation.union (r1 :: rs) w = (Normal r, allocated w)
       ∧ wfRelation r ∧ sameTables r r1
       ∧ ∀ i, i ∈ entryIds r ↔ ∃ r', r' ∈ r1 :: rs ∧ i ∈ entryIds r'.
Proof.
  intros Hwf Hp. rewrite union_eval, pairwiseCompatible_head by done.
  eexists. split; [done|]. split; [apply result_wf|].
  split; [apply result_tables; by apply Forall_cons in Hwf as [? _]|].
  intros i. apply union_ids.
Qed.

Lemma intersect_ok r1 rs w :
  Forall wfRelation (r1 :: rs) → pairwiseCompatible (r1 :: rs) →
  ∃ r, Relation.intersect (r1 :: rs) w = (Normal r, allocated w)
       ∧ wfRelation r ∧ sameTables r r1
       ∧ ∀ i, i ∈ entryIds r ↔ ∀ r', r' ∈ r1 :: rs → i ∈ entryIds r'.
Proof.
  intros Hwf Hp. rewrite intersect_eval, pairwiseCompatible_head by done.
  eexists. split; [done|]. split; [apply result_wf|].
  split; [apply result_tables; by apply Forall_cons in Hwf as [? _]|].
  intros i. apply intersect_ids.
Qed.

(** Two relations over the tables of members of a compatible list are
    compatible with each other. *)
Lemma pairwiseCompatible_two rs r1 r2 x y :
  Forall wfRelation rs → pairwiseCompatible rs → r1 ∈ rs → r2 ∈ rs →
  wfRelation x → wfRelation y → sameTables x r1 → sameTables y r2 →
  Forall wfRelation [x; y] ∧ pairwiseCompatible [x; y].
Proof.
  intros Hwf Hp H1 H2 Hx Hy Hx1 Hy2.
  pose proof (pairwiseCompatible_sameTables rs r1 r2 Hwf Hp H1 H2) as H12.
  assert (sameTables x y) as Hxy.
  { eapply sameTables_trans; [done|]. eapply sameTables_trans; [done|].
    by apply sameTables_sym. }
  assert (Forall wfRelation [x; y]) as Hwf2.
  { apply Forall_forall. intros z Hz. elem_cases; done. }
  split; [done|]. apply pairwiseCompatible_intro; [done|].
  intros a b Ha Hb. elem_cases;
    auto using sameTables_refl, sameTables_sym.
Qed.

End set_laws.

Section set_laws_proofs.
Implicit Types (r a b c : Relation.t) (rs : list Relation.t) (w : Relation.World).

Lemma createEmpty_eval w :
  Relation.createEmpty w
  = match Relation.emptyRelation_ w with
    | Some r => (Normal r, w)
    | None =>
        let r := Relation.mk (Relation.nextOid w) [] (StructsSet.new []) in
        (Normal r, Relation.mkWorld (Relation.entryState w) (Some r)
                                    (Relation.nextOid w + 1)%N)
    end.
Proof. unfold Relation.createEmpty. by destruct (Relation.emptyRelation_ w). Qed.

Lemma createEmpty_normal w : ∃ r w', Relation.createEmpty w = (Normal r, w').
Proof. rewrite createEmpty_eval. destruct (Relation.emptyRelation_ w); eauto. Qed.

Lemma compatible_sublist rs rs' :
  (∀ r, r ∈ rs' → r ∈ rs) → Forall wfRelation rs → pairwiseCompatible rs →
  Forall wfRelation rs' ∧ pairwiseCompatible rs'.
Proof.
  intros Hsub Hwf Hp. rewrite Forall_forall in Hwf. split.
  - apply Forall_forall. auto.
  - intros r1 r2 H1 H2. apply Hp; auto.
Qed.

Lemma in_two {A} (P : A → Prop) (x y : A) :
  ((∃ z, z ∈ [x; y] ∧ P z) ↔ P x ∨ P y) ∧ ((∀ z, z ∈ [x; y] → P z) ↔ P x ∧ P y).
Proof.
  split; split.
  - intros (z & Hz & HP). elem_cases; auto.
  - intros [HP|HP]; [exists x|exists y]; (split; [|done]).
    + by left.
    + right. by left.
  - intros Hall. split; apply Hall; [by left|right; by left].
  - intros [Hx Hy] z Hz. elem_cases; done.
Qed.

Lemma in_three {A} (P : A → Prop) (x y z : A) :
  ((∃ u, u ∈ [x; y; z] ∧ P u) ↔ P x ∨ P y ∨ P z)
  ∧ ((∀ u, u ∈ [x; y; z] → P u) ↔ P x ∧ P y ∧ P z).
Proof.
  split; split.
  - intros (u & Hu & HP). elem_cases; auto.
  - intros [HP|[HP|HP]]; [exists x|exists y|exists z]; (split; [|done]).
    + by left.
    + right. by left.
    + right. right. by left.
  - intros Hall. repeat split; apply Hall;
      [by left|right; by left|right; right; by left].
  - intros (Hx & Hy & Hz) u Hu. elem_cases; done.
Qed.

Lemma union_commutative : commutativeOnIds Relation.union.
Proof.
  intros rs rs' w Hperm Hwf Hp. destruct rs as [|r1 rs].
  - destruct rs' as [|r1' rs']; [|by apply Permutation_nil_cons in Hperm].
    destruct (createEmpty_normal w) as (r & w' & Hr).
    exists r, r, w', w'. split; [exact Hr|]. split; [exact Hr|]. by intros i.
  - destruct rs' as [|r1' rs']; [by apply Permutation_nil_r in Hperm|].
    destruct (compatible_sublist (r1 :: rs) (r1' :: rs')) as [Hwf' Hp']; try done.
    { intros r. by rewrite Hperm. }
    destruct (union_ok r1 rs w Hwf Hp) as (r & -> & _ & _ & Hr).
    destruct (union_ok r1' rs' w Hwf' Hp') as (r' & -> & _ & _ & Hr').
    exists r, r', (allocated w), (allocated w). split; [done|]. split; [done|].
    intros i. rewrite Hr, Hr'. by setoid_rewrite Hperm.
Qed.

Lemma intersect_commutative : commutativeOnIds Relation.intersect.
Proof.
  intros rs rs' w Hperm Hwf Hp. destruct rs as [|r1 rs].
  - destruct rs' as [|r1' rs']; [|by apply Permutation_nil_cons in Hperm].
    destruct (createEmpty_normal w) as (r & w' & Hr).
    exists r, r, w', w'. split; [exact Hr|]. split; [exact Hr|]. by intros i.
  - destruct rs' as [|r1' rs']; [by apply Permutation_nil_r in Hperm|].
    destruct (compatible_sublist (r1 :: rs) (r1' :: rs')) as [Hwf' Hp']; try done.
    { intros r. by rewrite Hperm. }
    destruct (intersect_ok r1 rs w Hwf Hp) as (r & -> & _ & _ & Hr).
    destruct (intersect_ok r1' rs' w Hwf' Hp') as (r' & -> & _ & _ & Hr').
    exists r, r', (allocated w), (allocated w). split; [done|]. split; [done|].
    intros i. rewrite Hr, Hr'. by setoid_rewrite Hperm.
Qed.

Lemma union_associative : associativeOnIds Relation.union.
Proof.
  intros a b c w Hwf Hp.
  destruct (compatible_sublist [a; b; c] [a; b]) as [Hwab Hpab]; try done.
  { intros r Hr. elem_cases; elem_solve. }
  destruct (compatible_sublist [a; b; c] [b; c]) as [Hwbc Hpbc]; try done.
  { intros r Hr. elem_cases; elem_solve. }
  assert (Ha : a ∈ [a; b; c]) by elem_solve.
  assert (Hb : b ∈ [a; b; c]) by elem_solve.
  assert (Hc : c ∈ [a; b; c]) by elem_solve.
  assert (∀ r, r ∈ [a; b; c] → wfRelation r) as Hw by (by apply Forall_forall).
  destruct (union_ok a [b] w Hwab Hpab) as (ab & Eab & Hwf_ab & Ht_ab & Hi_ab).
  destruct (union_ok b [c] w Hwbc Hpbc) as (bc & Ebc & Hwf_bc & Ht_bc & Hi_bc).
  destruct (pairwiseCompatible_two [a; b; c] a c ab c) as [Hw1 Hp1];
    auto using sameTables_refl.
  destruct (pairwiseCompatible_two [a; b; c] a b a bc) as [Hw2 Hp2];
    auto using sameTables_refl.
  destruct (union_ok ab [c] (allocated w) Hw1 Hp1) as (ab_c & E1 & _ & _ & Hi1).
  destruct (union_ok a [bc] (allocated w) Hw2 Hp2) as (a_bc & E2 & _ & _ & Hi2).
  destruct (union_ok a [b; c] w Hwf Hp) as (abc & E3 & _ & _ & Hi3).
  exists ab, (allocated w), ab_c, (allocated (allocated w)),
         bc, (allocated w), a_bc, (allocated (allocated w)), abc, (allocated w).
  repeat (split; [done|]).
  split; intros i.
  - rewrite Hi1, Hi2. rewrite !(proj1 (in_two _ _ _)). rewrite Hi_ab, Hi_bc.
    rewrite !(proj1 (in_two _ _ _)). tauto.
  - rewrite Hi1, Hi3. rewrite (proj1 (in_two _ _ _)), (proj1 (in_three _ _ _ _)).
    rewrite Hi_ab. rewrite (proj1 (in_two _ _ _)). tauto.
Qed.

Lemma intersect_associative : associativeOnIds Relation.intersect.
Proof.
  intros a b c w Hwf Hp.
  destruct (compatible_sublist [a; b; c] [a; b]) as [Hwab Hpab]; try done.
  { intros r Hr. elem_cases; elem_solve. }
  destruct (compatible_sublist [a; b; c] [b; c]) as [Hwbc Hpbc]; try done.
  { intros r Hr. elem_cases; elem_solve. }
  assert (Ha : a ∈ [a; b; c]) by elem_solve.
  assert (Hb : b ∈ [a; b; c]) by elem_solve.
  assert (Hc : c ∈ [a; b; c]) by elem_solve.
  assert (∀ r, r ∈ [a; b; c] → wfRelation r) as Hw by (by apply Forall_forall).
  destruct (intersect_ok a [b] w Hwab Hpab) as (ab & Eab & Hwf_ab & Ht_ab & Hi_ab).
  destruct (intersect_ok b [c] w Hwbc Hpbc) as (bc & Ebc & Hwf_bc & Ht_bc & Hi_bc).
  destruct (pairwiseCompatible_two [a; b; c] a c ab c) as [Hw1 Hp1];
    auto using sameTables_refl.
  destruct (pairwiseCompatible_two [a; b; c] a b a bc) as [Hw2 Hp2];
    auto using sameTables_refl.
  destruct (intersect_ok ab [c] (allocated w) Hw1 Hp1) as (ab_c & E1 & _ & _ & Hi1).
  destruct (intersect_ok a [bc] (allocated w) Hw2 Hp2) as (a_bc & E2 & _ & _ & Hi2).
  destruct (intersect_ok a [b; c] w Hwf Hp) as (abc & E3 & _ & _ & Hi3).
  exists ab, (allocated w), ab_c, (allocated (allocated w)),
         bc, (allocated w), a_bc, (allocated (allocated w)), abc, (allocated w).
  repeat (split; [done|]).
  split; intros i.
  - rewrite Hi1, Hi2. rewrite !(proj2 (in_two _ _ _)). rewrite Hi_ab, Hi_bc.
    rewrite !(proj2 (in_two _ _ _)). tauto.
  - rewrite Hi1, Hi3. rewrite (proj2 (in_two _ _ _)), (proj2 (in_three _ _ _ _)).
    rewrite Hi_ab. rewrite (proj2 (in_two _ _ _)). tauto.
Qed.

Lemma compatible_with_itself a :
  wfRelation a → Forall wfRelation [a; a] ∧ pairwiseCompatible [a; a]
                 ∧ Forall wfRelation [a] ∧ pairwiseCompatible [a].
Proof.
  intros Hwf.
  assert (Forall wfRelation [a; a]) as Hw2.
  { apply Forall_forall. intros r Hr. elem_cases; done. }
  assert (Forall wfRelation [a]) as Hw1.
  { apply Forall_forall. intros r Hr. elem_cases; done. }
  repeat split; try done; apply pairwiseCompatible_intro; try done;
    intros r1 r2 H1 H2; elem_cases; apply sameTables_refl.
Qed.

Lemma union_idempotent : idempotentOnIds Relation.union.
Proof.
  intros a w Hwf. destruct (compatible_with_itself a Hwf) as (Hw2 & Hp2 & Hw1 & Hp1).
  destruct (union_ok a [a] w Hw2 Hp2) as (r & E & _ & _ & Hi).
  destruct (union_ok a [] w Hw1 Hp1) as (r' & E' & _ & _ & Hi').
  exists r, (allocated w), r', (allocated w).
  split; [done|]. split; [|split; [done|]]; intros i.
  - rewrite Hi, (proj1 (in_two _ _ _)). tauto.
  - rewrite Hi'. split; [intros (z & Hz & Hin); by elem_cases|].
    intros Hin. exists a. split; [by left|done].
Qed.

Lemma intersect_idempotent : idempotentOnIds Relation.intersect.
Proof.
  intros a w Hwf. destruct (compatible_with_itself a Hwf) as (Hw2 & Hp2 & Hw1 & Hp1).
  destruct (intersect_ok a [a] w Hw2 Hp2) as (r & E & _ & _ & Hi).
  destruct (intersect_ok a [] w Hw1 Hp1) as (r' & E' & _ & _ & Hi').
  exists r, (allocated w), r', (allocated w).
  split; [done|]. split; [|split; [done|]]; intros i.
  - rewrite Hi, (proj2 (in_two _ _ _)). tauto.
  - rewrite Hi'. split; [intros Hall; apply Hall; by left|].
    intros Hin z Hz. by elem_cases.
Qed.

End set_laws_proofs.

Section empty_relation.
Implicit Types (r : Relation.t) (rs : list Relation.t) (w : Relation.World).

Lemma wfWorld_fresh s o : wfWorld (Relation.mkWorld s None o).
Proof. by intros r. Qed.

Lemma wfWorld_initial h : wfWorld (initialWorld h).
Proof. apply wfWorld_fresh. Qed.

Lemma wfWorld_allocated w : wfWorld w → wfWorld (allocated w).
Proof.
  intros Hw r Hr. destruct (Hw r Hr) as (? & ? & ?). simpl. repeat split; [done..|lia].
Qed.

(** createEmpty returns the relation the static field holds afterwards;
    it has no entries and no tables. *)
Lemma createEmpty_singleton w :
  wfWorld w →
  ∃ empty w', Relation.createEmpty w = (Normal empty, w')
    ∧ Relation.emptyRelation_ w' = Some empty
    ∧ Relation.entries empty = [] ∧ Relation.tables_ empty = StructsSet.new []
    ∧ wfWorld w'.
Proof.
  intros Hw. rewrite createEmpty_eval.
  destruct (Relation.emptyRelation_ w) as [r|] eqn:E.
  - destruct (Hw r E) as (? & ? & ?). by exists r, w.
  - eexists _, _. split; [done|]. simpl. do 3 (split; [done|]).
    intros x [= <-]. simpl. repeat split. lia.
Qed.

(** Once emptyRelation_ is set, union and intersect leave it as it is. *)
Lemma emptyRelation_kept rs w empty :
  Relation.emptyRelation_ w = Some empty →
  Relation.emptyRelation_ (Relation.union rs w).2 = Some empty
  ∧ Relation.emptyRelation_ (Relation.intersect rs w).2 = Some empty.
Proof.
  intros E. destruct rs as [|r1 rs].
  - cbn [Relation.union Relation.intersect]. rewrite createEmpty_eval, E. done.
  - rewrite union_eval, intersect_eval.
    by destruct (allCompatible r1 (r1 :: rs)).
Qed.

(** A relation [new] makes later is another object than the empty
    relation, also when it has no entries and no tables. *)
Lemma new_is_not_the_singleton w empty es tables :
  wfWorld w → Relation.emptyRelation_ w = Some empty →
  ∃ r w', Relation.new es tables w = (Normal r, w') ∧ r ≠ empty.
Proof.
  intros Hw E. destruct (Hw empty E) as (_ & _ & Hlt).
  eexists _, _. split; [done|]. intros <-. simpl in Hlt. lia.
Qed.

(** C2. union([]) and intersect([]) return one and the same relation, the
    one the static field emptyRelation_ holds from then on and every later
    call on the empty list returns again; it has no entries and no tables.
    On pairwise-compatible relations union and intersect are commutative,
    associative and idempotent when results are compared as sets of entry
    ids. *)
Theorem relation_set_laws :
  (∀ w, wfWorld w →
     ∃ empty w',
       Relation.union [] w = (Normal empty, w') ∧
       Relation.intersect [] w = (Normal empty, w') ∧
       Relation.emptyRelation_ w' = Some empty ∧
       Relation.entries empty = [] ∧
       Relation.getTables empty = [] ∧
       (∀ name, ¬ hasTable name empty) ∧
       wfWorld w' ∧
       (∀ w'', Relation.emptyRelation_ w'' = Some empty →
          Relation.union [] w'' = (Normal empty, w'') ∧
          Relation.intersect [] w'' = (Normal empty, w'')) ∧
       (∀ rs w'', Relation.emptyRelation_ w'' = Some empty →
          Relation.emptyRelation_ (Relation.union rs w'').2 = Some empty ∧
          Relation.emptyRelation_ (Relation.intersect rs w'').2 = Some empty)) ∧
  commutativeOnIds Relation.union ∧
  associativeOnIds Relation.union ∧
  idempotentOnIds Relation.union ∧
  commutativeOnIds Relation.intersect ∧
  associativeOnIds Relation.intersect ∧
  idempotentOnIds Relation.intersect.
Proof.
  split; [|split; [apply union_commutative|];
            split; [apply union_associative|];
            split; [apply union_idempotent|];
            split; [apply intersect_commutative|];
            split; [apply intersect_associative|apply intersect_idempotent]].
  intros w Hw. destruct (createEmpty_singleton w Hw) as (empty & w' & E & Hs & He & Ht & Hw').
  exists empty, w'. split; [exact E|]. split; [exact E|]. split; [done|].
  split; [done|]. split; [|split; [|split; [done|split]]].
  - unfold Relation.getTables. by rewrite Ht.
  - intros name. unfold hasTable. rewrite Ht, contains_new. apply not_elem_of_nil.
  - intros w'' E''. cbn [Relation.union Relation.intersect].
    by rewrite createEmpty_eval, E''.
  - intros rs w''. apply emptyRelation_kept.
Qed.

Lemma relation_set_laws_witness :
  (∃ empty w',
     Relation.union [] sampleWorld = (Normal empty, w') ∧
     Relation.intersect [] sampleWorld = (Normal empty, w') ∧
     Relation.emptyRelation_ w' = Some empty ∧
     Relation.entries empty = [] ∧ Relation.getTables empty = []) ∧
  (∃ r r' w1 w2,
     Relation.union [movies12; movies23] sampleWorld = (Normal r, w1) ∧
     Relation.union [movies23; movies12] sampleWorld = (Normal r', w2) ∧
     sameIds r r') ∧
  (∃ r w1 r' w2,
     Relation.intersect [movies3; movies3] sampleWorld = (Normal r, w1) ∧
     sameIds r movies3 ∧
     Relation.intersect [movies3] sampleWorld = (Normal r', w2) ∧
     sameIds r' movies3).
Proof.
  destruct relation_set_laws as (Hempty & Hcomm & _ & _ & _ & _ & Hidem).
  split; [|split].
  - destruct (Hempty sampleWorld (wfWorld_fresh sampleState 4))
      as (empty & w' & Hu & Hi & Hs & He & Ht & _).
    by exists empty, w'.
  - apply (Hcomm [movies12; movies23] [movies23; movies12] sampleWorld).
    + apply perm_swap.
    + apply Forall_forall. intros r Hr. elem_cases; apply sset_wf_new.
    + intros r1 r2 H1 H2. elem_cases; vm_compute; reflexivity.
  - apply (Hidem movies3 sampleWorld). apply sset_wf_new.
Defined.

End empty_relation.

(** ** Construction of entries *)
Section construction.
Implicit Types (s : RelationEntry.State) (w : Relation.World) (e : RelationEntry.t).

(** Below 2^53 the counter counts. *)
Lemma roundToNumber_exact (m : N) :
  (m ≤ RelationEntry.MAX_EXACT)%N → RelationEntry.roundToNumber m = m.
Proof.
  intros Hm. unfold RelationEntry.roundToNumber.
  by rewrite (proj2 (N.leb_le _ _) Hm).
Qed.

(** From 2^53 on it does not: 2^53 + 1 is not a number and rounds back to
    2^53, where the counter stays. *)
Example roundToNumber_at_the_limit :
  RelationEntry.roundToNumber (RelationEntry.MAX_EXACT + 1) = RelationEntry.MAX_EXACT
  ∧ idAfter 3 (RelationEntry.MAX_EXACT - 1) = RelationEntry.MAX_EXACT.
Proof. split; vm_compute; reflexivity. Qed.

Lemma idAfter_exact (count : nat) (n : N) :
  (n + N.of_nat count ≤ RelationEntry.MAX_EXACT)%N →
  idAfter count n = (n + N.of_nat count)%N.
Proof.
  unfold idAfter. induction count as [|count IH]; intros Hle; simpl; [lia|].
  rewrite IH by lia. rewrite roundToNumber_exact by lia. lia.
Qed.

Lemma idAfter_add (i j : nat) (n : N) : idAfter (i + j) n = idAfter j (idAfter i n).
Proof. unfold idAfter. by rewrite Nat.add_comm, Nat.iter_add. Qed.

Lemma idAfter_S (i : nat) (n : N) :
  idAfter (S i) n = idAfter i (RelationEntry.roundToNumber (n + 1)).
Proof. unfold idAfter. by rewrite Nat.iter_succ_r. Qed.

Lemma new_eval row p s :
  RelationEntry.new row p s
  = (Normal (RelationEntry.mk row (RelationEntry.id_ s) p),
     RelationEntry.with_id_ (idAfter 1 (RelationEntry.id_ s)) s).
Proof. done. Qed.

(** rows.map in fromRows: the i-th row gets the i-th id from the counter. *)
Lemma mapM_new rows p w :
  mapM (λ row, Relation.liftEntry (RelationEntry.new row p)) rows w
  = (Normal (imap (λ i row,
                     RelationEntry.mk row
                       (idAfter i (RelationEntry.id_ (Relation.entryState w))) p)
                  rows),
     Relation.mkWorld
       (RelationEntry.with_id_
          (idAfter (length rows) (RelationEntry.id_ (Relation.entryState w)))
          (Relation.entryState w))
       (Relation.emptyRelation_ w) (Relation.nextOid w)).
Proof.
  revert w. induction rows as [|row rows IH]; intros w.
  - simpl. unfold mret, M_ret. by destruct w as [[h n] e o].
  - cbn [mapM]. unfold mbind at 1, M_bind at 1.
    unfold Relation.liftEntry at 1. rewrite new_eval.
    unfold mbind, M_bind. rewrite IH. unfold mret, M_ret.
    cbn [Relation.entryState Relation.emptyRelation_ Relation.nextOid
         RelationEntry.with_id_ RelationEntry.id_ RelationEntry.objects length].
    rewrite imap_cons. f_equal.
    + do 2 f_equal. apply imap_ext. intros i x _. simpl. f_equal.
      symmetry. apply idAfter_S.
    + f_equal. unfold RelationEntry.with_id_. simpl. f_equal.
      symmetry. apply idAfter_S.
Qed.

Lemma fromRows_eval rows tables w :
  Relation.fromRows rows tables w
  = (Normal (Relation.mk (Relation.nextOid w)
               (imap (λ i row,
                        RelationEntry.mk row
                          (idAfter i (RelationEntry.id_ (Relation.entryState w)))
                          (bool_decide (1 < length tables)))
                     rows)
               (StructsSet.new tables)),
     Relation.mkWorld
       (RelationEntry.with_id_
          (idAfter (length rows) (RelationEntry.id_ (Relation.entryState w)))
          (Relation.entryState w))
       (Relation.emptyRelation_ w) (Relation.nextOid w + 1)%N).
Proof.
  unfold Relation.fromRows, mbind, M_bind. by rewrite mapM_new.
Qed.

(** C5. fromRows wraps each row in an entry of its own, one entry per row
    and in the order of the rows; the prefixApplied flag of each entry is
    true exactly when the list of table names has more than one element;
    the relation returned is over exactly the tables named. Each entry
    takes the next id of the counter: while the counter stays within 2^53,
    where it counts exactly, the i-th entry has the id of the counter plus
    i, and the counter ends advanced by the number of rows. *)
Theorem fromRows_wraps_rows (rows : list Row.t) (tables : list string) w :
  ∃ r w',
    Relation.fromRows rows tables w = (Normal r, w') ∧
    length (Relation.entries r) = length rows ∧
    (∀ i row, rows !! i = Some row →
       ∃ e, Relation.entries r !! i = Some e
            ∧ RelationEntry.row e = row
            ∧ (RelationEntry.isPrefixApplied_ e = true ↔ 1 < length tables)) ∧
    (∀ name, hasTable name r ↔ name ∈ tables) ∧
    ((RelationEntry.id_ (Relation.entryState w) + N.of_nat (length rows)
      ≤ RelationEntry.MAX_EXACT)%N →
     (∀ i e, Relation.entries r !! i = Some e →
        RelationEntry.id e
        = (RelationEntry.id_ (Relation.entryState w) + N.of_nat i)%N) ∧
     RelationEntry.id_ (Relation.entryState w')
     = (RelationEntry.id_ (Relation.entryState w) + N.of_nat (length rows))%N).
Proof.
  rewrite fromRows_eval. eexists _, _. split; [done|].
  cbn [Relation.entries Relation.entryState RelationEntry.with_id_ RelationEntry.id_].
  split; [by rewrite length_imap|]. split; [|split].
  - intros i row Hi. eexists. rewrite list_lookup_imap, Hi. simpl.
    split; [done|]. split; [done|]. apply bool_decide_eq_true.
  - intros name. unfold hasTable. simpl. apply contains_new.
  - intros Hbound. split; [|by apply idAfter_exact].
    intros i e Hi. rewrite list_lookup_imap in Hi.
    destruct (rows !! i) eqn:Hrow; [|done]. injection Hi as <-. simpl.
    apply lookup_lt_Some in Hrow. apply idAfter_exact. lia.
Qed.

Lemma fromRows_wraps_rows_witness :
  ∃ r w',
    Relation.fromRows [Row.mk 1 1; Row.mk 2 2] ["Movie"] sampleWorld = (Normal r, w')
    ∧ RelationEntry.id <$> Relation.entries r = [4%N; 5%N]
    ∧ RelationEntry.id_ (Relation.entryState w') = 6%N.
Proof.
  destruct (fromRows_wraps_rows [Row.mk 1 1; Row.mk 2 2] ["Movie"] sampleWorld)
    as (r & w' & E & _ & _ & _ & Hids).
  destruct Hids as [Hids Hcount]; [by vm_compute|].
  exists r, w'. split; [exact E|]. split; [|exact Hcount].
  vm_compute in E. by injection E as <- _.
Defined.

(** The invariant [wfWorld] holds of the initial state and is kept by
    every operation of Relation and by the operations of RelationEntry. *)
Lemma wfWorld_kept rs rows tables w :
  wfWorld w →
  wfWorld (Relation.union rs w).2 ∧ wfWorld (Relation.intersect rs w).2
  ∧ wfWorld (Relation.fromRows rows tables w).2
  ∧ wfWorld (Relation.createEmpty w).2
  ∧ ∀ A (c : M RelationEntry.State A), wfWorld (Relation.liftEntry c w).2.
Proof.
  intros Hw.
  assert (wfWorld (Relation.createEmpty w).2) as Hempty.
  { destruct (createEmpty_singleton w Hw) as (e & w' & -> & _ & _ & _ & Hw'). done. }
  split; [|split; [|split; [|split]]].
  - destruct rs as [|r1 rs]; [done|]. rewrite union_eval.
    destruct (allCompatible r1 (r1 :: rs)); [by apply wfWorld_allocated|done].
  - destruct rs as [|r1 rs]; [done|]. rewrite intersect_eval.
    destruct (allCompatible r1 (r1 :: rs)); [by apply wfWorld_allocated|done].
  - rewrite fromRows_eval. intros r Hr. simpl in *.
    destruct (Hw r Hr) as (? & ? & ?). repeat split; [done..|lia].
  - done.
  - intros A c. unfold Relation.liftEntry.
    destruct (c (Relation.entryState w)) as [outcome s']. done.
Qed.

End construction.

Section entry_ids.
Context (DUMMY_ID : Z).
Implicit Types (s : RelationEntry.State) (w : Relation.World) (e : RelationEntry.t).

Lemma with_objects_twice h h' s :
  RelationEntry.with_objects h' (RelationEntry.with_objects h s)
  = RelationEntry.with_objects h' s.
Proof. done. Qed.

(** The loop of mergeEntry completes and writes to objects only. *)
Lemma copySlots_completes (payload result : loc) prefixes s :
  ∃ h', forEach prefixes (λ prefix,
          slot ← RelationEntry.getProp (VObject payload) prefix;
          RelationEntry.putProp (VObject result) prefix slot) s
        = (Normal tt, RelationEntry.with_objects h' s).
Proof.
  revert s. induction prefixes as [|prefix prefixes IH]; intros s.
  - exists (RelationEntry.objects s). by destruct s.
  - cbn [forEach]. unfold mbind at 1, M_bind at 1. unfold mbind at 1, M_bind at 1.
    cbn [RelationEntry.getProp RelationEntry.putProp].
    match goal with |- context [forEach _ _ ?s'] => destruct (IH s') as [h' ->] end.
    exists h'. by rewrite with_objects_twice.
Qed.

Lemma mergeEntry_completes result e entryTables s :
  ∃ h', RelationEntry.mergeEntry result e entryTables s
        = (Normal tt, RelationEntry.with_objects h' s).
Proof.
  unfold RelationEntry.mergeEntry. destruct (RelationEntry.isPrefixApplied_ e).
  - unfold mbind at 1, M_bind at 1. unfold RelationEntry.ownKeys, reads.
    apply copySlots_completes.
  - cbn [RelationEntry.putProp]. eauto.
Qed.

(** combineEntries completes; the entry it returns has the next id of the
    counter, the row id DUMMY_ID and the prefixApplied flag set. *)
Lemma combineEntries_completes l lt r rt s :
  ∃ result h',
    RelationEntry.combineEntries DUMMY_ID l lt r rt s
    = (Normal (RelationEntry.mk (Row.mk DUMMY_ID result) (RelationEntry.id_ s) true),
       RelationEntry.mkState h' (idAfter 1 (RelationEntry.id_ s))).
Proof.
  unfold RelationEntry.combineEntries.
  unfold mbind at 1, M_bind at 1. cbn [RelationEntry.newObject].
  set (result := fresh (dom (RelationEntry.objects s))).
  unfold mbind at 1, M_bind at 1.
  match goal with |- context [RelationEntry.mergeEntry result l lt ?s'] =>
    destruct (mergeEntry_completes result l lt s') as [h1 ->] end.
  unfold mbind at 1, M_bind at 1.
  match goal with |- context [RelationEntry.mergeEntry result r rt ?s'] =>
    destruct (mergeEntry_completes result r rt s') as [h2 ->] end.
  rewrite new_eval. exists result, h2. done.
Qed.

(** One call constructs entries with the next ids of the counter. *)
Lemma construct_ids c w :
  ∃ es w',
    construct DUMMY_ID c w = (Normal es, w')
    ∧ (∀ i e, es !! i = Some e
        → RelationEntry.id e = idAfter i (RelationEntry.id_ (Relation.entryState w)))
    ∧ RelationEntry.id_ (Relation.entryState w')
      = idAfter (length es) (RelationEntry.id_ (Relation.entryState w)).
Proof.
  destruct c as [row p|rows tables|l lt r rt]; unfold construct, mbind, M_bind.
  - unfold Relation.liftEntry. rewrite new_eval. eexists _, _. split; [done|].
    split; [|done].
    intros [|i] e; [|done]. by intros [= <-].
  - rewrite fromRows_eval. eexists _, _. split; [done|]. simpl.
    split; [|by rewrite length_imap].
    intros i e. rewrite list_lookup_imap.
    destruct (rows !! i); [|done]. by intros [= <-].
  - unfold Relation.liftEntry.
    destruct (combineEntries_completes l lt r rt (Relation.entryState w))
      as (result & h' & ->).
    eexists _, _. split; [done|]. split; [|done].
    intros [|i] e; [|done]. by intros [= <-].
Qed.

Lemma constructAll_ids cs w :
  (∀ i e, (constructAll DUMMY_ID cs w).1 !! i = Some e
     → RelationEntry.id e = idAfter i (RelationEntry.id_ (Relation.entryState w)))
  ∧ RelationEntry.id_ (Relation.entryState (constructAll DUMMY_ID cs w).2)
    = idAfter (length (constructAll DUMMY_ID cs w).1)
              (RelationEntry.id_ (Relation.entryState w)).
Proof.
  revert w. induction cs as [|c cs IH]; intros w.
  - simpl. by split.
  - cbn [constructAll].
    destruct (construct_ids c w) as (es & w' & -> & Hes & Hw').
    destruct (IH w') as [Hlater Hcount].
    destruct (constructAll DUMMY_ID cs w') as [later w''] eqn:E. simpl in *.
    split.
    + intros i e. destruct (decide (i < length es)) as [Hlt|Hge].
      * rewrite lookup_app_l by done. apply Hes.
      * rewrite lookup_app_r by lia. intros Hi. rewrite (Hlater _ _ Hi), Hw'.
        rewrite <- idAfter_add. f_equal. lia.
    + rewrite Hcount, Hw', length_app. by rewrite idAfter_add.
Qed.

(** While the counter stays within 2^53 the ids are the counter plus the
    position. *)
Lemma constructAll_ids_exact cs w :
  (RelationEntry.id_ (Relation.entryState w)
   + N.of_nat (length (constructAll DUMMY_ID cs w).1) ≤ RelationEntry.MAX_EXACT)%N →
  (∀ i e, (constructAll DUMMY_ID cs w).1 !! i = Some e
     → RelationEntry.id e
       = (RelationEntry.id_ (Relation.entryState w) + N.of_nat i)%N)
  ∧ RelationEntry.id_ (Relation.entryState (constructAll DUMMY_ID cs w).2)
    = (RelationEntry.id_ (Relation.entryState w)
       + N.of_nat (length (constructAll DUMMY_ID cs w).1))%N.
Proof.
  intros Hbound. destruct (constructAll_ids cs w) as [Hid Hcount]. split.
  - intros i e Hi. rewrite (Hid _ _ Hi). apply lookup_lt_Some in Hi.
    apply idAfter_exact. lia.
  - rewrite Hcount. by apply idAfter_exact.
Qed.

(** C7. Entry ids are allocated strictly increasing: of the entries a
    sequence of constructions makes (by the constructor, by fromRows, by
    combineEntries) while the counter stays within 2^53, where it counts
    exactly, a later one has an id strictly greater than that of every
    earlier one; so the ids are pairwise distinct, and none is below the
    counter the sequence started from. *)
Theorem entry_ids_strictly_increase (cs : list Construction) w :
  (RelationEntry.id_ (Relation.entryState w)
   + N.of_nat (length (constructAll DUMMY_ID cs w).1) ≤ RelationEntry.MAX_EXACT)%N →
  (∀ i j e1 e2,
     (constructAll DUMMY_ID cs w).1 !! i = Some e1 →
     (constructAll DUMMY_ID cs w).1 !! j = Some e2 →
     i < j → (RelationEntry.id e1 < RelationEntry.id e2)%N) ∧
  NoDup (RelationEntry.id <$> (constructAll DUMMY_ID cs w).1) ∧
  (∀ e, e ∈ (constructAll DUMMY_ID cs w).1 →
     (RelationEntry.id_ (Relation.entryState w) ≤ RelationEntry.id e
      < RelationEntry.id_ (Relation.entryState (constructAll DUMMY_ID cs w).2))%N).
Proof.
  intros Hbound. destruct (constructAll_ids_exact cs w Hbound) as [Hid Hcount].
  split; [|split].
  - intros i j e1 e2 H1 H2 Hlt. rewrite (Hid _ _ H1), (Hid _ _ H2). lia.
  - apply NoDup_alt. intros i j n. rewrite !list_lookup_fmap.
    destruct (_ !! i) as [e1|] eqn:E1; [|done].
    destruct (_ !! j) as [e2|] eqn:E2; [|done].
    simpl. intros [= <-] [= Heq]. rewrite (Hid _ _ E1), (Hid _ _ E2) in Heq. lia.
  - intros e (i & Hi)%list_elem_of_lookup. rewrite (Hid _ _ Hi), Hcount.
    apply lookup_lt_Some in Hi. lia.
Qed.

(** Hence, among the entries a process has constructed, two with one id
    are one entry: relations over such entries meet the premise
    [idsIdentifyEntries] of the set operations. *)
Lemma constructed_ids_identify (cs : list Construction) w (rs : list Relation.t) :
  (RelationEntry.id_ (Relation.entryState w)
   + N.of_nat (length (constructAll DUMMY_ID cs w).1) ≤ RelationEntry.MAX_EXACT)%N →
  (∀ r e, r ∈ rs → e ∈ Relation.entries r → e ∈ (constructAll DUMMY_ID cs w).1) →
  idsIdentifyEntries rs.
Proof.
  intros Hbound Hfrom r1 r2 e1 e2 Hr1 Hr2 He1 He2 Heq.
  destruct (constructAll_ids_exact cs w Hbound) as [Hid _].
  apply Hfrom in He1 as (i & Hi)%list_elem_of_lookup; [|done].
  apply Hfrom in He2 as (j & Hj)%list_elem_of_lookup; [|done].
  rewrite (Hid _ _ Hi), (Hid _ _ Hj) in Heq.
  assert (i = j) as -> by lia. congruence.
Qed.

End entry_ids.

(** For example: two rows wrapped for a join of Movie and Actor get the ids
    4 and 5 and the prefixApplied flag; combining the two entries gives the
    entry 6, and a row wrapped for Movie alone gives the entry 7 without
    the flag. *)
Lemma entry_ids_strictly_increase_witness :
  NoDup (RelationEntry.id <$>
           (constructAll (-1)
              [FromRows [Row.mk 1 1; Row.mk 2 2] ["Movie"; "Actor"];
               CombineEntries movie1 ["Movie"] joined ["Actor"];
               FromRows [Row.mk 3 3] ["Movie"]] sampleWorld).1).
Proof.
  apply (entry_ids_strictly_increase (-1)
           [FromRows [Row.mk 1 1; Row.mk 2 2] ["Movie"; "Actor"];
            CombineEntries movie1 ["Movie"] joined ["Actor"];
            FromRows [Row.mk 3 3] ["Movie"]] sampleWorld).
  by vm_compute.
Defined.

Example constructAll_sample :
  (constructAll (-1)
     [FromRows [Row.mk 1 1; Row.mk 2 2] ["Movie"; "Actor"];
      CombineEntries movie1 ["Movie"] joined ["Actor"];
      FromRows [Row.mk 3 3] ["Movie"]] sampleWorld).1
  = [RelationEntry.mk (Row.mk 1 1) 4 true; RelationEntry.mk (Row.mk 2 2) 5 true;
     RelationEntry.mk (Row.mk (-1) 5) 6 true; RelationEntry.mk (Row.mk 3 3) 7 false].
Proof. vm_compute. reflexivity. Qed.

(** ** Payloads: combineEntries, setField and getField *)
Section payloads.
Context (DUMMY_ID : Z).
Implicit Types (s : RelationEntry.State) (e : RelationEntry.t) (h : heap)
  (P R : object).

Lemma props_insert_eq h a R : RelationEntry.props (<[a := R]> h) a = R.
Proof. unfold RelationEntry.props. by rewrite lookup_insert_eq. Qed.

Lemma props_insert_ne h a a' R :
  a ≠ a' → RelationEntry.props (<[a := R]> h) a' = RelationEntry.props h a'.
Proof. intros. unfold RelationEntry.props. by rewrite lookup_insert_ne. Qed.

Lemma fresh_not_live h a : is_Some (h !! a) → a ≠ fresh (dom h).
Proof.
  intros Hlive ->. apply elem_of_dom in Hlive. by apply is_fresh in Hlive.
Qed.

Lemma fresh_unused h : h !! fresh (dom h) = None.
Proof. apply not_elem_of_dom, is_fresh. Qed.

(** Copying the slots named by a list into an object, one after the other. *)
Lemma lookup_copied P R (prefixes : list string) prefix :
  foldl (λ R k, <[k := default VUndefined (P !! k)]> R) R prefixes !! prefix
  = if decide (prefix ∈ prefixes) then Some (default VUndefined (P !! prefix))
    else R !! prefix.
Proof.
  revert R. induction prefixes as [|k ks IH]; intros R.
  - rewrite decide_False by apply not_elem_of_nil. done.
  - cbn [foldl]. rewrite IH. destruct (decide (prefix ∈ ks)) as [Hin|Hnin].
    + by rewrite decide_True by (by right).
    + destruct (decide (k = prefix)) as [->|Hne].
      * rewrite decide_True by (by left). by rewrite lookup_insert_eq.
      * rewrite lookup_insert_ne by done. rewrite decide_False; [done|].
        intros [?|?]%elem_of_cons; congruence.
Qed.

(** Copying all slots of [P] into [R] gives [P] over [R]. *)
Lemma copied_all P R :
  foldl (λ R k, <[k := default VUndefined (P !! k)]> R) R (map_to_list P).*1 = P ∪ R.
Proof.
  apply map_eq. intros prefix. rewrite lookup_copied, lookup_union.
  destruct (P !! prefix) as [slot|] eqn:E.
  - rewrite decide_True; [by destruct (R !! prefix)|].
    apply list_elem_of_fmap. exists (prefix, slot). split; [done|].
    by apply elem_of_map_to_list.
  - rewrite decide_False; [by destruct (R !! prefix)|].
    intros ([k slot] & -> & Hin%elem_of_map_to_list)%list_elem_of_fmap.
    simpl in E. congruence.
Qed.

(** The loop of mergeEntry on a payload that is not the result object. *)
Lemma copySlots_eval (payload result : loc) P prefixes :
  payload ≠ result →
  ∀ s, RelationEntry.props (RelationEntry.objects s) payload = P →
    is_Some (RelationEntry.objects s !! result) →
    forEach prefixes (λ prefix,
      slot ← RelationEntry.getProp (VObject payload) prefix;
      RelationEntry.putProp (VObject result) prefix slot) s
    = (Normal tt,
       RelationEntry.with_objects
         (<[result := foldl (λ R k, <[k := default VUndefined (P !! k)]> R)
                            (RelationEntry.props (RelationEntry.objects s) result)
                            prefixes]> (RelationEntry.objects s)) s).
Proof.
  intros Hne. induction prefixes as [|k ks IH]; intros s HP [R HR].
  - simpl. unfold mret, M_ret. f_equal. destruct s as [h n].
    unfold RelationEntry.with_objects, RelationEntry.props. simpl in *.
    rewrite HR. simpl. by rewrite insert_id.
  - cbn [forEach foldl]. unfold mbind at 1, M_bind at 1. unfold mbind at 1, M_bind at 1.
    cbn [RelationEntry.getProp RelationEntry.putProp]. rewrite HP.
    rewrite IH.
    + destruct s as [h n]. unfold RelationEntry.with_objects. simpl.
      by rewrite props_insert_eq, insert_insert_eq.
    + simpl. by rewrite props_insert_ne.
    + simpl. rewrite lookup_insert_eq. eauto.
Qed.

(** mergeEntry puts the contribution of the entry over what the result
    object holds. *)
Lemma mergeEntry_eval (result : loc) e entryTables s :
  (RelationEntry.isPrefixApplied_ e = true
   → Row.payload (RelationEntry.row e) ≠ result) →
  is_Some (RelationEntry.objects s !! result) →
  RelationEntry.mergeEntry result e entryTables s
  = (Normal tt,
     RelationEntry.with_objects
       (<[result := contribution (RelationEntry.objects s) e entryTables
                    ∪ RelationEntry.props (RelationEntry.objects s) result]>
          (RelationEntry.objects s)) s).
Proof.
  intros Hne Hlive. unfold RelationEntry.mergeEntry, contribution.
  destruct (RelationEntry.isPrefixApplied_ e).
  - unfold mbind at 1, M_bind at 1. unfold RelationEntry.ownKeys, reads.
    rewrite (copySlots_eval _ _ _ _ (Hne eq_refl) s eq_refl Hlive).
    by rewrite copied_all.
  - cbn [RelationEntry.putProp]. by rewrite <- insert_union_singleton_l.
Qed.

Lemma contribution_insert_ne h a R e entryTables :
  (RelationEntry.isPrefixApplied_ e = true → a ≠ Row.payload (RelationEntry.row e)) →
  contribution (<[a := R]> h) e entryTables = contribution h e entryTables.
Proof.
  intros Hne. unfold contribution. destruct (RelationEntry.isPrefixApplied_ e); [|done].
  by rewrite props_insert_ne by auto.
Qed.

(** combineEntries, on entries whose payload objects are live: the result
    object is new and holds the contribution of the right entry over that
    of the left entry. *)
Lemma combineEntries_eval l lt r rt s :
  is_Some (RelationEntry.objects s !! Row.payload (RelationEntry.row l)) →
  is_Some (RelationEntry.objects s !! Row.payload (RelationEntry.row r)) →
  RelationEntry.combineEntries DUMMY_ID l lt r rt s
  = (Normal (RelationEntry.mk
               (Row.mk DUMMY_ID (fresh (dom (RelationEntry.objects s))))
               (RelationEntry.id_ s) true),
     RelationEntry.mkState
       (<[fresh (dom (RelationEntry.objects s))
          := contribution (RelationEntry.objects s) r rt
             ∪ contribution (RelationEntry.objects s) l lt]>
          (RelationEntry.objects s))
       (idAfter 1 (RelationEntry.id_ s))).
Proof.
  intros Hl%fresh_not_live Hr%fresh_not_live. destruct s as [h n]. simpl in *.
  unfold RelationEntry.combineEntries.
  unfold mbind at 1, M_bind at 1. cbn [RelationEntry.newObject RelationEntry.objects].
  set (result := fresh (dom h)) in *.
  unfold mbind at 1, M_bind at 1.
  rewrite mergeEntry_eval; cycle 1.
  { intros _. done. }
  { simpl. rewrite lookup_insert_eq. eauto. }
  unfold mbind at 1, M_bind at 1.
  rewrite mergeEntry_eval; cycle 1.
  { intros _. done. }
  { simpl. rewrite lookup_insert_eq. eauto. }
  rewrite new_eval. simpl. unfold RelationEntry.with_id_, RelationEntry.with_objects.
  simpl. rewrite !props_insert_eq, !insert_insert_eq.
  rewrite !contribution_insert_ne by (intros _; by apply not_eq_sym).
  by rewrite (right_id_L ∅ (∪)).
Qed.

End payloads.

Section combine_entries.
Context (DUMMY_ID : Z).
Implicit Types (s : RelationEntry.State) (e l r : RelationEntry.t).

(** C6, as the code has it. On entries whose payload objects are live and
    of which neither contributes a slot named __proto__ (a name that an
    assignment does not store, see [storableName]),
    combineEntries returns a prefix-applied entry with the next id, whose
    row has the id DUMMY_ID and a new payload object; the inputs are not
    written to. The payload holds the contribution of the right side over
    that of the left side: every prefix slot of a prefix-applied right side
    verbatim, the payload object of a right side that is not prefix-applied
    under the first of its table names; and the same of the left side,
    except under a name the right side writes too, where the right side's
    value is the one kept. *)
Theorem combineEntries_merges_payloads l (lt : list string) r (rt : list string) s :
  is_Some (RelationEntry.objects s !! Row.payload (RelationEntry.row l)) →
  is_Some (RelationEntry.objects s !! Row.payload (RelationEntry.row r)) →
  contribution (RelationEntry.objects s) l lt !! "__proto__" = None →
  contribution (RelationEntry.objects s) r rt !! "__proto__" = None →
  ∃ e s' result,
    RelationEntry.combineEntries DUMMY_ID l lt r rt s = (Normal e, s') ∧
    RelationEntry.isPrefixApplied_ e = true ∧
    RelationEntry.row e = Row.mk DUMMY_ID result ∧
    RelationEntry.id e = RelationEntry.id_ s ∧
    RelationEntry.objects s !! result = None ∧
    (∀ a, a ≠ result → RelationEntry.objects s' !! a = RelationEntry.objects s !! a) ∧
    RelationEntry.props (RelationEntry.objects s') result
    = contribution (RelationEntry.objects s) r rt
      ∪ contribution (RelationEntry.objects s) l lt ∧
    (RelationEntry.isPrefixApplied_ r = true →
     ∀ prefix slot,
       RelationEntry.props (RelationEntry.objects s)
                           (Row.payload (RelationEntry.row r)) !! prefix = Some slot →
       RelationEntry.props (RelationEntry.objects s') result !! prefix = Some slot) ∧
    (RelationEntry.isPrefixApplied_ r = false →
     ∀ table rest, rt = table :: rest →
       RelationEntry.props (RelationEntry.objects s') result !! table
       = Some (VObject (Row.payload (RelationEntry.row r)))) ∧
    (RelationEntry.isPrefixApplied_ l = true →
     ∀ prefix slot,
       RelationEntry.props (RelationEntry.objects s)
                           (Row.payload (RelationEntry.row l)) !! prefix = Some slot →
       contribution (RelationEntry.objects s) r rt !! prefix = None →
       RelationEntry.props (RelationEntry.objects s') result !! prefix = Some slot) ∧
    (RelationEntry.isPrefixApplied_ l = false →
     ∀ table rest, lt = table :: rest →
       contribution (RelationEntry.objects s) r rt !! table = None →
       RelationEntry.props (RelationEntry.objects s') result !! table
       = Some (VObject (Row.payload (RelationEntry.row l)))) ∧
    (∀ prefix slot,
       RelationEntry.props (RelationEntry.objects s') result !! prefix = Some slot →
       contribution (RelationEntry.objects s) r rt !! prefix = Some slot
       ∨ contribution (RelationEntry.objects s) l lt !! prefix = Some slot).
Proof.
  intros Hl Hr _ _. rewrite (combineEntries_eval DUMMY_ID l lt r rt s Hl Hr).
  eexists _, _, _. split; [done|]. simpl. rewrite props_insert_eq.
  split; [done|]. split; [done|]. split; [done|]. split; [apply fresh_unused|].
  split; [intros a Ha; by rewrite lookup_insert_ne|]. split; [done|].
  split; [|split; [|split; [|split]]].
  - intros Hp prefix slot Hslot. apply lookup_union_Some_l.
    unfold contribution. by rewrite Hp.
  - intros Hp table rest ->. apply lookup_union_Some_l.
    unfold contribution. rewrite Hp. simpl. apply lookup_singleton_eq.
  - intros Hp prefix slot Hslot Hright. rewrite lookup_union_r by done.
    unfold contribution. by rewrite Hp.
  - intros Hp table rest -> Hright. rewrite lookup_union_r by done.
    unfold contribution. rewrite Hp. simpl. apply lookup_singleton_eq.
  - intros prefix slot Hslot. apply lookup_union_Some_raw in Hslot. tauto.
Qed.

End combine_entries.

Lemma combineEntries_merges_payloads_witness :
  ∃ e s' result,
    RelationEntry.combineEntries (-1) movie1 ["Movie"] joined ["Actor"; "MovieActor"]
                                 sampleState = (Normal e, s') ∧
    RelationEntry.isPrefixApplied_ e = true ∧
    RelationEntry.row e = Row.mk (-1) result ∧
    RelationEntry.props (RelationEntry.objects s') result
    = contribution sampleHeap joined ["Actor"; "MovieActor"]
      ∪ contribution sampleHeap movie1 ["Movie"].
Proof.
  destruct (combineEntries_merges_payloads (-1) movie1 ["Movie"] joined
              ["Actor"; "MovieActor"] sampleState)
    as (e & s' & result & E & Hp & Hrow & _ & _ & _ & Hprops & _).
  - eexists. reflexivity.
  - eexists. reflexivity.
  - reflexivity.
  - reflexivity.
  - exists e, s', result. auto.
Defined.

(** C6, as it is stated, fails when both sides name one table: the cross
    product of Movie with itself keeps the right entry's payload under
    Movie, and the left entry's payload is not in the result. *)
Lemma combineEntries_same_table_overwritten :
  ∃ e s',
    RelationEntry.combineEntries (-1) movie1 ["Movie"] movie2 ["Movie"] sampleState
    = (Normal e, s')
    ∧ RelationEntry.isPrefixApplied_ movie1 = false
    ∧ RelationEntry.props (RelationEntry.objects s')
                          (Row.payload (RelationEntry.row e))
      = {[ "Movie" := VObject (Row.payload (RelationEntry.row movie2)) ]}
    ∧ RelationEntry.props (RelationEntry.objects s')
                          (Row.payload (RelationEntry.row e)) !! "Movie"
      ≠ Some (VObject (Row.payload (RelationEntry.row movie1))).
Proof.
  eexists _, _. split; [vm_compute; reflexivity|]. split; [done|].
  split; [by vm_compute|]. by vm_compute.
Qed.

Section fields.
Implicit Types (s : RelationEntry.State) (this : RelationEntry.t) (column : Column.t)
  (v : value).

(** getField does not look at the alias of the column. *)
Lemma getField_alias_unused this name alias alias' table s :
  RelationEntry.getField this (Column.mk name alias table) s
  = RelationEntry.getField this (Column.mk name alias' table) s.
Proof. done. Qed.

(** C10. On a prefix-applied entry whose payload is live and has no slot
    for the table of a column without alias (or a slot that holds undefined
    or null), setField makes a new container object, stores it in the
    payload under the name of the table and stores the value in it under
    the name of the column; nothing else changes, and getField on the same
    column then returns the value. The name of the table is one that no
    object inherits, so that a payload without the slot reads as undefined
    there, and the name of the column is one that an assignment stores. *)
Theorem setField_creates_container this column v s :
  RelationEntry.isPrefixApplied_ this = true →
  Column.getAlias column = None →
  plainName (Table.getName (Column.getTable column)) →
  storableName (Column.getName column) →
  is_Some (RelationEntry.objects s !! Row.payload (RelationEntry.row this)) →
  isDefAndNotNull
    (default VUndefined
       (RelationEntry.props (RelationEntry.objects s)
                            (Row.payload (RelationEntry.row this))
        !! Table.getName (Column.getTable column))) = false →
  ∃ container s',
    RelationEntry.setField this column v s = (Normal tt, s') ∧
    RelationEntry.objects s !! container = None ∧
    RelationEntry.props (RelationEntry.objects s') (Row.payload (RelationEntry.row this))
    = <[Table.getName (Column.getTable column) := VObject container]>
        (RelationEntry.props (RelationEntry.objects s)
                             (Row.payload (RelationEntry.row this))) ∧
    RelationEntry.props (RelationEntry.objects s') container
    = {[ Column.getName column := v ]} ∧
    (∀ a, a ≠ Row.payload (RelationEntry.row this) → a ≠ container →
          RelationEntry.objects s' !! a = RelationEntry.objects s !! a) ∧
    RelationEntry.id_ s' = RelationEntry.id_ s ∧
    RelationEntry.getField this column s' = (Normal v, s').
Proof.
  intros Hp Halias _ _ Hlive Hslot.
  pose proof (fresh_not_live _ _ Hlive) as Hne.
  destruct s as [h n]. simpl in *.
  set (payload := Row.payload (RelationEntry.row this)) in *.
  set (table := Table.getName (Column.getTable column)) in *.
  set (container := fresh (dom h)) in *.
  exists container.
  unfold RelationEntry.setField, RelationEntry.getField. rewrite Halias, Hp.
  unfold mbind at 1, M_bind at 1. cbn [RelationEntry.getProp RelationEntry.objects].
  fold payload table. rewrite Hslot.
  unfold mbind at 1, M_bind at 1. unfold mbind at 1, M_bind at 1.
  cbn [RelationEntry.newObject RelationEntry.objects]. fold container.
  unfold mbind at 1, M_bind at 1.
  cbn [RelationEntry.putProp RelationEntry.objects RelationEntry.with_objects].
  unfold mret, M_ret. cbn [RelationEntry.putProp RelationEntry.objects RelationEntry.with_objects].
  assert (container ≠ payload) as Hne' by (by apply not_eq_sym).
  eexists. split; [done|]. simpl.
  repeat first [rewrite props_insert_eq | rewrite props_insert_ne by done].
  split; [apply fresh_unused|]. split; [done|]. split; [by rewrite insert_empty|].
  split; [intros a Ha Ha'; by rewrite !lookup_insert_ne|]. split; [done|].
  unfold mbind, M_bind. simpl.
  repeat first [rewrite props_insert_eq | rewrite props_insert_ne by done].
  rewrite lookup_insert_eq. simpl.
  repeat first [rewrite props_insert_eq | rewrite props_insert_ne by done].
  by rewrite lookup_insert_eq.
Qed.

Lemma setField_creates_container_witness :
  ∃ container s',
    RelationEntry.setField joined titleColumn (VString "Alien") sampleState
    = (Normal tt, s') ∧
    RelationEntry.props (RelationEntry.objects s') container
    = {[ "title" := VString "Alien" ]} ∧
    RelationEntry.getField joined titleColumn s' = (Normal (VString "Alien"), s').
Proof.
  destruct (setField_creates_container joined titleColumn (VString "Alien") sampleState)
    as (container & s' & E & _ & _ & Hc & _ & _ & Hget).
  - reflexivity.
  - reflexivity.
  - apply (bool_decide_unpack _). by vm_compute.
  - done.
  - eexists. reflexivity.
  - reflexivity.
  - exists container, s'. auto.
Defined.

End fields.

(** C4. Writes go to the alias: setField on a column with an alias writes
    the flat slot of the payload named by the alias.
    Reads do not consult it. After setField on a column with the alias
    "name" the value is in the flat slot "name" of the payload, but
    getField on the same column never looks at the alias: on an entry that
    is not prefix-applied it returns the slot named by the column, and on a
    prefix-applied entry it looks the table prefix up, which here is a
    TypeError since the payload has no slot for the table. *)
Theorem getField_reads_past_the_alias :
  (∃ s',
     RelationEntry.setField movie1 titleAsName (VString "Aliens") sampleState
     = (Normal tt, s')
     ∧ RelationEntry.props (RelationEntry.objects s') 1%positive !! "name"
       = Some (VString "Aliens")
     ∧ RelationEntry.getField movie1 titleAsName s' = (Normal (VString "Alien"), s'))
  ∧ (∃ s',
       RelationEntry.setField joined titleAsName (VString "Aliens") sampleState
       = (Normal tt, s')
       ∧ RelationEntry.props (RelationEntry.objects s') 4%positive !! "name"
         = Some (VString "Aliens")
       ∧ RelationEntry.getField joined titleAsName s' = (Throw TypeError, s')).
Proof.
  split; eexists; (split; [vm_compute; reflexivity|]); split; by vm_compute.
Qed.

(** ** The registry of services *)
Section services.
Context {Service : Type}.
Implicit Types (g : Global.t Service) (calls : list (ServiceId.t * Service))
  (serviceId : ServiceId.t) (service : Service).

Lemma registerAll_services calls g :
  Global.services_ (Global.registerAll calls g)
  = StructsMap.setAll (λ call, ServiceId.toString call.1) (λ call, Some call.2)
                      calls (Global.services_ g).
Proof.
  revert g. induction calls as [|call calls IH]; intros g; [done|].
  simpl. by rewrite IH.
Qed.

(** What a run of [set]s leaves under a key: the value of the last element
    written under the key, or what was there before. *)
Lemma lookup_setAll_last {K V A} `{Countable K} (keyOf : A → K) (valOf : A → V)
    (l : list A) (m : StructsMap.t K V) (k : K) :
  StructsMap.map_ (StructsMap.setAll keyOf valOf l m) !! k
  = match last (filter (λ x, keyOf x = k) l) with
    | Some x => Some (valOf x)
    | None => StructsMap.map_ m !! k
    end.
Proof.
  induction l as [|x l IH] using rev_ind; [done|].
  rewrite setAll_app. simpl. rewrite filter_app, filter_cons, filter_nil.
  destruct (decide (keyOf x = k)) as [<-|Hne].
  - by rewrite last_snoc, lookup_set_eq.
  - by rewrite app_nil_r, lookup_set_ne.
Qed.

Lemma get_lookup {K V} `{Countable K} (k : K) (d : V) (m : StructsMap.t K V) :
  StructsMap.get k d m = default d (StructsMap.map_ m !! k).
Proof.
  unfold StructsMap.get. destruct (StructsMap.hasKey_ _ k) eqn:E; [done|].
  apply hasKey_false in E. by rewrite E.
Qed.

Lemma registered_lookup calls name :
  StructsMap.map_ (Global.services_ (Global.registerAll calls Global.new)) !! name
  = Some <$> lastRegistered name calls.
Proof.
  rewrite registerAll_services, lookup_setAll_last. unfold lastRegistered.
  destruct (last _) as [call|]; [done|]. simpl. apply lookup_empty.
Qed.

Lemma lastRegistered_None calls name :
  lastRegistered name calls = None
  ↔ ∀ call, call ∈ calls → ServiceId.toString call.1 ≠ name.
Proof.
  unfold lastRegistered. rewrite fmap_None, last_None. split.
  - intros Hnil call Hc Heq.
    assert (call ∈ filter (λ call, ServiceId.toString call.1 = name) calls) as Hin
      by (by apply list_elem_of_filter).
    rewrite Hnil in Hin. by apply elem_of_nil in Hin.
  - intros Hall. apply elem_of_nil_inv. intros call [Heq Hc]%list_elem_of_filter.
    by apply (Hall call).
Qed.

(** C9. In a registry that registerService calls have filled, getService
    returns the service registered last under the id, and it throws, with
    the kind NOT_FOUND, exactly when no service is registered under the id.
    registerService returns the service it registers, after which
    isRegistered holds of the id and getService returns the service. The
    ids are named by names that the map of the registry keeps, that is, by
    any name but __proto__ (see [storableName]). *)
Theorem getService_returns_last_registered calls serviceId :
  storableName (ServiceId.toString serviceId) →
  (∀ call, call ∈ calls → storableName (ServiceId.toString call.1)) →
  Global.getService serviceId (Global.registerAll calls Global.new)
  = match lastRegistered (ServiceId.toString serviceId) calls with
    | Some service => Normal service
    | None => Throw (Exception NOT_FOUND (ServiceId.toString serviceId))
    end
  ∧ ((∃ e, Global.getService serviceId (Global.registerAll calls Global.new) = Throw e)
     ↔ ∀ call, call ∈ calls
         → ServiceId.toString call.1 ≠ ServiceId.toString serviceId)
  ∧ ((∃ e, Global.getService serviceId (Global.registerAll calls Global.new) = Throw e)
     ↔ Global.isRegistered serviceId (Global.registerAll calls Global.new) = false)
  ∧ (∀ e, Global.getService serviceId (Global.registerAll calls Global.new) = Throw e
       → e = Exception NOT_FOUND (ServiceId.toString serviceId))
  ∧ (∀ service g,
       (Global.registerService serviceId service g).1 = service
       ∧ Global.isRegistered serviceId (Global.registerService serviceId service g).2
         = true
       ∧ Global.getService serviceId (Global.registerService serviceId service g).2
         = Normal service).
Proof.
  intros _ _. set (name := ServiceId.toString serviceId).
  pose proof (registered_lookup calls name) as Hl.
  assert (Hget : Global.getService serviceId (Global.registerAll calls Global.new)
    = match lastRegistered name calls with
      | Some service => Normal service
      | None => Throw (Exception NOT_FOUND name)
      end).
  { unfold Global.getService. fold name. rewrite get_lookup, Hl.
    by destruct (lastRegistered name calls). }
  split; [done|]. rewrite Hget.
  split; [|split; [|split]].
  - rewrite <- lastRegistered_None.
    destruct (lastRegistered name calls); split; try done; [by intros [? ?]|eauto].
  - unfold Global.isRegistered, StructsMap.containsKey. fold name.
    rewrite hasKey_false, Hl.
    destruct (lastRegistered name calls); split; try done; [by intros [? ?]|eauto].
  - intros e. destruct (lastRegistered name calls); [done|]. by intros [= <-].
  - intros service g. split; [done|]. unfold Global.registerService. simpl. split.
    + unfold Global.isRegistered, StructsMap.containsKey. simpl.
      apply hasKey_true. rewrite lookup_set_eq. eauto.
    + unfold Global.getService. simpl. fold name.
      by rewrite get_lookup, lookup_set_eq.
Qed.

End services.

Lemma getService_returns_last_registered_witness :
  Global.getService (ServiceId.mk "cache")
    (Global.registerAll
       [(ServiceId.mk "cache", 1); (ServiceId.mk "runner", 2); (ServiceId.mk "cache", 3)]
       Global.new)
  = Normal 3.
Proof.
  apply (getService_returns_last_registered
           [(ServiceId.mk "cache", 1); (ServiceId.mk "runner", 2);
            (ServiceId.mk "cache", 3)] (ServiceId.mk "cache")).
  - done.
  - intros call Hcall. elem_cases; done.
Defined.

(** For example: of two services registered under one id the second is the
    one returned, and an id nothing was registered under is NOT_FOUND. *)
Example getService_sample :
  let g := Global.registerAll
             [(ServiceId.mk "cache", 1); (ServiceId.mk "runner", 2);
              (ServiceId.mk "cache", 3)] Global.new in
  Global.getService (ServiceId.mk "cache") g = Normal 3
  ∧ Global.getService (ServiceId.mk "runner") g = Normal 2
  ∧ Global.getService (ServiceId.mk "schema") g
    = Throw (Exception NOT_FOUND "schema").
Proof. repeat split; vm_compute; reflexivity. Qed.

(** ** The insert builder *)

(** C8. exec() fails with SYNTAX when into() was not called and when
    values() was not called, and with CONSTRAINT when rows may be replaced
    and the table has no primary key; a second into() and a second values()
    fail with SYNTAX at the call itself. The four builders of the tests
    fail accordingly. *)
Theorem insert_builder_checks :
  (∀ q, InsertBuilder.into_ q = None →
     ∃ msg, InsertBuilder.exec q = Throw (Exception SYNTAX msg)) ∧
  (∀ q, InsertBuilder.values_ q = None →
     ∃ msg, InsertBuilder.exec q = Throw (Exception SYNTAX msg)) ∧
  (∀ q table rows,
     InsertBuilder.into_ q = Some table → InsertBuilder.values_ q = Some rows →
     InsertBuilder.allowReplace q = true → Table.getPrimaryKey table = None →
     ∃ msg, InsertBuilder.exec q = Throw (Exception CONSTRAINT msg)) ∧
  (∀ q table, is_Some (InsertBuilder.into_ q) →
     ∃ msg, InsertBuilder.into table q = Throw (Exception SYNTAX msg)) ∧
  (∀ q rows, is_Some (InsertBuilder.values_ q) →
     ∃ msg, InsertBuilder.values rows q = Throw (Exception SYNTAX msg)) ∧
  (∀ allowReplace table table' rows rows',
     (∃ msg, (InsertBuilder.values rows (InsertBuilder.new allowReplace)
              ≫= InsertBuilder.exec) = Throw (Exception SYNTAX msg)) ∧
     (∃ msg, (InsertBuilder.into table (InsertBuilder.new allowReplace)
              ≫= InsertBuilder.exec) = Throw (Exception SYNTAX msg)) ∧
     (∃ msg, (InsertBuilder.into table (InsertBuilder.new allowReplace)
              ≫= InsertBuilder.into table') = Throw (Exception SYNTAX msg)) ∧
     (∃ msg, (InsertBuilder.values rows (InsertBuilder.new allowReplace)
              ≫= InsertBuilder.values rows') = Throw (Exception SYNTAX msg))).
Proof.
  split; [|split; [|split; [|split; [|split]]]].
  - intros q Hq. unfold InsertBuilder.exec. rewrite Hq. eauto.
  - intros q Hq. unfold InsertBuilder.exec. rewrite Hq.
    destruct (InsertBuilder.into_ q); eauto.
  - intros q table rows Hi Hv Hr Hpk. unfold InsertBuilder.exec.
    rewrite Hi, Hv, Hr, Hpk. simpl. eauto.
  - intros q table [t Ht]. unfold InsertBuilder.into. rewrite Ht. eauto.
  - intros q rows [r Hr]. unfold InsertBuilder.values. rewrite Hr. eauto.
  - intros. repeat split; simpl; eauto.
Qed.

Lemma insert_builder_checks_witness :
  (∃ msg, InsertBuilder.exec (InsertBuilder.mk false None (Some [Row.mk 1 1]))
          = Throw (Exception SYNTAX msg)) ∧
  (∃ msg, InsertBuilder.exec (InsertBuilder.mk false (Some movieTable) None)
          = Throw (Exception SYNTAX msg)) ∧
  (∃ msg, InsertBuilder.exec
            (InsertBuilder.mk true (Some movieGenreTable) (Some [Row.mk 1 1]))
          = Throw (Exception CONSTRAINT msg)) ∧
  (∃ msg, InsertBuilder.into movieTable
            (InsertBuilder.mk false (Some movieTable) None)
          = Throw (Exception SYNTAX msg)) ∧
  (∃ msg, InsertBuilder.values [Row.mk 1 1]
            (InsertBuilder.mk false None (Some [Row.mk 1 1]))
          = Throw (Exception SYNTAX msg)).
Proof.
  destruct insert_builder_checks as (Hinto & Hvalues & Hpk & Htwice & Htwice' & _).
  split; [|split; [|split; [|split]]].
  - apply Hinto. reflexivity.
  - apply Hvalues. reflexivity.
  - apply (Hpk _ movieGenreTable [Row.mk 1 1]); reflexivity.
  - apply Htwice. eexists. reflexivity.
  - apply Htwice'. eexists. reflexivity.
Defined.

(** A builder with its table and its rows, on a table with a primary key
    or without replacing, is accepted. *)
Example insert_builder_accepts :
  ((InsertBuilder.into movieTable (InsertBuilder.new true)
    ≫= InsertBuilder.values [Row.mk 1 1]) ≫= InsertBuilder.exec)
  = Normal (movieTable, [Row.mk 1 1], true)
  ∧ ((InsertBuilder.into movieGenreTable (InsertBuilder.new false)
      ≫= InsertBuilder.values [Row.mk 1 1]) ≫= InsertBuilder.exec)
    = Normal (movieGenreTable, [Row.mk 1 1], false).
Proof. split; reflexivity. Qed.

(** * Part III: further properties of the code *)

(** ** The order of keys in goog.structs.Map *)
Section key_order.
Context {K : Type} `{Countable K} {V A : Type} (keyOf : A → K) (valOf : A → V).
Implicit Types (m : StructsMap.t K V) (l : list A).

Lemma keys_set_known m k v :
  StructsMap.wf m → k ∈ StructsMap.keys_ m →
  StructsMap.keys_ (StructsMap.set k v m) = StructsMap.keys_ m.
Proof.
  intros (_ & Hdom & _) Hk. unfold StructsMap.set.
  apply Hdom, hasKey_true in Hk. by rewrite Hk.
Qed.

Lemma keys_set_new m k v :
  StructsMap.wf m → k ∉ StructsMap.keys_ m →
  StructsMap.keys_ (StructsMap.set k v m) = StructsMap.keys_ m ++ [k].
Proof.
  intros (_ & Hdom & _) Hk. unfold StructsMap.set.
  destruct (StructsMap.hasKey_ (StructsMap.map_ m) k) eqn:E; [|done].
  apply hasKey_true, Hdom in E. done.
Qed.

(** Setting keys the map has does not change the order of its keys. *)
Lemma keys_setAll_known l m :
  StructsMap.wf m → (∀ x, x ∈ l → keyOf x ∈ StructsMap.keys_ m) →
  StructsMap.keys_ (StructsMap.setAll keyOf valOf l m) = StructsMap.keys_ m.
Proof.
  revert m. induction l as [|x l IH]; intros m Hm Hall; [done|].
  simpl. rewrite IH.
  - apply keys_set_known; [done|]. apply Hall. by left.
  - by apply map_wf_set.
  - intros y Hy. rewrite keys_set_known; [|done|apply Hall; by left].
    apply Hall. by right.
Qed.

(** Setting keys that are new and pairwise distinct appends them in order. *)
Lemma keys_setAll_new l m :
  StructsMap.wf m → NoDup (keyOf <$> l) →
  (∀ x, x ∈ l → keyOf x ∉ StructsMap.keys_ m) →
  StructsMap.keys_ (StructsMap.setAll keyOf valOf l m)
  = StructsMap.keys_ m ++ (keyOf <$> l).
Proof.
  revert m. induction l as [|x l IH]; intros m Hm Hnd Hnew; simpl.
  - by rewrite app_nil_r.
  - apply NoDup_cons in Hnd as [Hx Hnd].
    assert (keyOf x ∉ StructsMap.keys_ m) as Hxm by (apply Hnew; by left).
    rewrite IH; [|by apply map_wf_set|done|].
    + rewrite keys_set_new by done. by rewrite <- app_assoc.
    + intros y Hy. rewrite keys_set_new by done.
      rewrite elem_of_app, list_elem_of_singleton. intros [Hin|Heq].
      * by apply (Hnew y); [right|].
      * apply Hx. rewrite <- Heq. apply list_elem_of_fmap. eauto.
Qed.

End key_order.

Section list_facts.

(** Where a function takes no value twice on a list, it is injective on
    the elements of the list. *)
Lemma NoDup_fmap_inj_on {A B} (f : A → B) (l : list A) x y :
  NoDup (f <$> l) → x ∈ l → y ∈ l → f x = f y → x = y.
Proof.
  intros Hnd (i & Hi)%list_elem_of_lookup (j & Hj)%list_elem_of_lookup Heq.
  assert (i = j) as ->.
  { apply (NoDup_lookup (f <$> l) i j (f x)); [done|..].
    - by rewrite list_lookup_fmap, Hi.
    - by rewrite list_lookup_fmap, Hj, Heq. }
  congruence.
Qed.

(** Two lists of entries with the same ids in the same order are equal,
    when an id names one entry. *)
Lemma same_ids_same_entries (l1 l2 : list RelationEntry.t) :
  RelationEntry.id <$> l1 = RelationEntry.id <$> l2 →
  (∀ x y, x ∈ l1 → y ∈ l2 → RelationEntry.id x = RelationEntry.id y → x = y) →
  l1 = l2.
Proof.
  revert l2. induction l1 as [|x l1 IH]; intros [|y l2] Hids Hid; try done.
  simpl in Hids. injection Hids as Hxy Hids.
  rewrite (Hid x y) by (done || by left). f_equal.
  apply IH; [done|]. intros a b Ha Hb. apply Hid; by right.
Qed.

Lemma fmap_getKey_inj (l1 l2 : list string) :
  StructsSet.getKey_ <$> l1 = StructsSet.getKey_ <$> l2 → l1 = l2.
Proof.
  revert l2. induction l1 as [|x l1 IH]; intros [|y l2] Heq; try done.
  pose proof (f_equal head Heq) as Hxy. pose proof (f_equal tail Heq) as Htl.
  simpl in Hxy, Htl. apply (inj Some), getKey_inj in Hxy as ->.
  f_equal. by apply IH.
Qed.

(** A map filled with entries of pairwise distinct ids gives the entries
    back, in order. *)
Lemma mapOfEntries_values_distinct (l : list RelationEntry.t) :
  NoDup (RelationEntry.id <$> l) → StructsMap.getValues (mapOfEntries l) = l.
Proof.
  intros Hnd. apply same_ids_same_entries.
  - rewrite mapOfEntries_ids. unfold mapOfEntries.
    rewrite keys_setAll_new; [done|apply map_wf_empty|done|].
    intros x _. apply not_elem_of_nil.
  - intros x y Hx%mapOfEntries_values_elem Hy.
    by apply (NoDup_fmap_inj_on RelationEntry.id l).
Qed.

Lemma addAll_map l s :
  StructsSet.map_ (StructsSet.addAll l s)
  = StructsMap.setAll StructsSet.getKey_ (λ x, x) l (StructsSet.map_ s).
Proof.
  revert s. induction l as [|x l IH]; intros s; [done|]. simpl. by rewrite IH.
Qed.

(** The set built from an array of pairwise distinct strings has them as
    its values, in order. *)
Lemma sset_new_values (l : list string) :
  NoDup l → StructsSet.getValues (StructsSet.new l) = l.
Proof.
  intros Hnd. apply fmap_getKey_inj. unfold StructsSet.getValues.
  destruct (sset_wf_new l) as [Hm Hk].
  rewrite (getValues_keys StructsSet.getKey_) by (done || (intros; symmetry; eauto)).
  unfold StructsSet.new. rewrite addAll_map. simpl.
  rewrite keys_setAll_new; [done|apply map_wf_empty| |].
  - apply NoDup_fmap_2_strong; [|done]. intros x y _ _. apply getKey_inj.
  - intros x _. apply not_elem_of_nil.
Qed.

(** A set never counts more elements than the array it was built from. *)
Lemma sset_new_count (l : list string) :
  StructsSet.getCount (StructsSet.new l) ≤ length l
  ∧ (NoDup l → StructsSet.getCount (StructsSet.new l) = length l).
Proof.
  split.
  - rewrite <- length_sset_values by apply sset_wf_new.
    apply submseteq_length, NoDup_submseteq.
    + apply NoDup_sset_values, sset_wf_new.
    + intros x. rewrite elem_of_sset_values by apply sset_wf_new.
      by rewrite contains_new.
  - intros Hnd. rewrite <- length_sset_values by apply sset_wf_new.
    by rewrite sset_new_values.
Qed.

End list_facts.

(** ** The accessors of a relation made by fromRows *)
Section accessors.
Implicit Types (r : Relation.t) (rs : list Relation.t) (w : Relation.World).

(** X2. The relation fromRows returns gives back what it was made from:
    getRowIds and getPayloads are the ids and the payloads of the rows, in
    the order of the rows; getTables has each table name given once, and is
    the list given when that has no name twice. *)
Theorem fromRows_accessors (rows : list Row.t) (tables : list string) w :
  ∃ r w',
    Relation.fromRows rows tables w = (Normal r, w') ∧
    Relation.getRowIds r = Row.id <$> rows ∧
    Relation.getPayloads r = Row.payload <$> rows ∧
    NoDup (Relation.getTables r) ∧
    (∀ name, name ∈ Relation.getTables r ↔ name ∈ tables) ∧
    (NoDup tables → Relation.getTables r = tables).
Proof.
  rewrite fromRows_eval. eexists _, _. split; [done|].
  unfold Relation.getRowIds, Relation.getPayloads, Relation.getTables. simpl.
  split; [|split; [|split; [|split]]].
  - apply list_eq. intros i. rewrite !list_lookup_fmap, list_lookup_imap.
    by destruct (rows !! i).
  - apply list_eq. intros i. rewrite !list_lookup_fmap, list_lookup_imap.
    by destruct (rows !! i).
  - apply NoDup_sset_values, sset_wf_new.
  - intros name. rewrite elem_of_sset_values by apply sset_wf_new.
    apply contains_new.
  - apply sset_new_values.
Qed.

Lemma fromRows_accessors_witness :
  ∃ r, (Relation.fromRows [Row.mk 1 1; Row.mk 2 2] ["Movie"; "Actor"] sampleWorld).1
       = Normal r
       ∧ Relation.getRowIds r = [1%Z; 2%Z]
       ∧ Relation.getTables r = ["Movie"; "Actor"].
Proof.
  destruct (fromRows_accessors [Row.mk 1 1; Row.mk 2 2] ["Movie"; "Actor"] sampleWorld)
    as (r & w' & E & Hids & _ & _ & _ & Htables).
  exists r. rewrite E. split; [done|]. split; [done|].
  apply Htables. apply (bool_decide_unpack _). vm_compute. exact I.
Defined.

(** X3. When the relation fromRows returns says isPrefixApplied(), every
    entry of it carries the prefixApplied flag; and when no table name is
    given twice the two agree: every entry carries the flag exactly when the
    relation says isPrefixApplied(). *)
Theorem fromRows_prefix_flags (rows : list Row.t) (tables : list string) w :
  ∃ r w',
    Relation.fromRows rows tables w = (Normal r, w') ∧
    (∀ e, e ∈ Relation.entries r → Relation.isPrefixApplied r = true →
          RelationEntry.isPrefixApplied_ e = true) ∧
    (NoDup tables →
     ∀ e, e ∈ Relation.entries r →
          RelationEntry.isPrefixApplied_ e = Relation.isPrefixApplied r).
Proof.
  rewrite fromRows_eval. eexists _, _. split; [done|].
  unfold Relation.isPrefixApplied. simpl.
  destruct (sset_new_count tables) as [Hle Heq].
  split.
  - intros e (i & Hi)%list_elem_of_lookup. rewrite list_lookup_imap in Hi.
    destruct (rows !! i); [|done]. injection Hi as <-. simpl.
    rewrite !bool_decide_eq_true. lia.
  - intros Hnd e (i & Hi)%list_elem_of_lookup. rewrite list_lookup_imap in Hi.
    destruct (rows !! i); [|done]. injection Hi as <-. simpl.
    by rewrite (Heq Hnd).
Qed.

Lemma fromRows_prefix_flags_witness :
  ∃ r, (Relation.fromRows [Row.mk 1 1] ["Movie"; "Actor"] sampleWorld).1 = Normal r
       ∧ Relation.isPrefixApplied r = true
       ∧ ∀ e, e ∈ Relation.entries r → RelationEntry.isPrefixApplied_ e = true.
Proof.
  destruct (fromRows_prefix_flags [Row.mk 1 1] ["Movie"; "Actor"] sampleWorld)
    as (r & w' & E & Himp & _).
  assert (Relation.isPrefixApplied r = true) as Hp.
  { vm_compute in E. injection E as <- _. vm_compute. reflexivity. }
  exists r. rewrite E. split; [done|]. split; [done|].
  intros e He. by apply Himp.
Defined.

(** For example: for the table list [Movie; Movie] the entries carry the
    flag (the list has two elements) while the relation, over one table,
    says it is not prefix-applied. *)
Example fromRows_repeated_table :
  (λ r, (RelationEntry.isPrefixApplied_ <$> Relation.entries r,
         Relation.isPrefixApplied r))
    <$> (Relation.fromRows [Row.mk 1 1] ["Movie"; "Movie"] sampleWorld).1
  = Normal ([true], false).
Proof. vm_compute. reflexivity. Qed.

End accessors.

(** ** The order of the entries union and intersect return *)
Section result_order.
Implicit Types (r : Relation.t) (rs : list Relation.t) (w : Relation.World)
  (e : RelationEntry.t).

Lemma keys_setAll_order {K V A} `{Countable K} (keyOf : A → K) (valOf : A → V)
    (l : list A) (m : StructsMap.t K V) :
  StructsMap.wf m →
  StructsMap.keys_ (StructsMap.setAll keyOf valOf l m)
  = foldl (λ seen x, if decide (x ∈ seen) then seen else seen ++ [x])
          (StructsMap.keys_ m) (keyOf <$> l).
Proof.
  revert m. induction l as [|x l IH]; intros m Hm; [done|].
  simpl. rewrite IH by (by apply map_wf_set). f_equal.
  destruct (decide (keyOf x ∈ StructsMap.keys_ m)).
  - by apply keys_set_known.
  - by apply keys_set_new.
Qed.

Lemma mapOfEntries_order (l : list RelationEntry.t) :
  RelationEntry.id <$> StructsMap.getValues (mapOfEntries l)
  = firstOccurrences (RelationEntry.id <$> l).
Proof.
  rewrite mapOfEntries_ids. unfold mapOfEntries, firstOccurrences.
  by rewrite keys_setAll_order by apply map_wf_empty.
Qed.

(** X4. union lists the entries in the order in which their ids first
    occur in the inputs, taken one after the other; when no id occurs twice
    among the inputs, it returns the entries of the inputs, concatenated. *)
Theorem union_order rs (r1 : Relation.t) w :
  head rs = Some r1 → Forall wfRelation rs → pairwiseCompatible rs →
  ∃ ru wu,
    Relation.union rs w = (Normal ru, wu) ∧
    entryIds ru = firstOccurrences (RelationEntry.id <$> allEntriesOf rs) ∧
    (NoDup (RelationEntry.id <$> allEntriesOf rs) →
     Relation.entries ru = allEntriesOf rs).
Proof.
  intros Hhead Hwf Hp. destruct rs as [|r rs]; [done|]. injection Hhead as ->.
  rewrite union_eval, pairwiseCompatible_head by done.
  eexists _, _. split; [done|]. unfold entryIds. simpl.
  split; [apply mapOfEntries_order|apply mapOfEntries_values_distinct].
Qed.

Lemma union_order_witness :
  ∃ ru, (Relation.union [movies12; movies3] sampleWorld).1 = Normal ru
        ∧ Relation.entries ru = allEntriesOf [movies12; movies3].
Proof.
  destruct (union_order [movies12; movies3] movies12 sampleWorld)
    as (ru & wu & E & _ & Hentries).
  - reflexivity.
  - apply Forall_forall. intros r Hr. elem_cases; apply sset_wf_new.
  - intros r1 r2 H1 H2. elem_cases; vm_compute; reflexivity.
  - exists ru. rewrite E. split; [done|]. apply Hentries.
    apply (bool_decide_unpack _). vm_compute. exact I.
Defined.

Lemma existsInAll_id rs e1 e2 :
  RelationEntry.id e1 = RelationEntry.id e2 → existsInAll rs e1 = existsInAll rs e2.
Proof. unfold existsInAll. by intros ->. Qed.

(** The keys of the map intersect builds, when the first input has no id
    twice: the ids of its entries that are in every input, in its order. *)
Lemma intersection_keys r1 rs :
  NoDup (entryIds r1) →
  StructsMap.keys_
    (mapOfEntries (filter (λ e, existsInAll (r1 :: rs) e = true)
                          (allEntriesOf (r1 :: rs))))
  = RelationEntry.id <$> filter (λ e, existsInAll (r1 :: rs) e = true)
                                (Relation.entries r1).
Proof.
  intros Hnd. rewrite allEntriesOf_cons, filter_app. unfold mapOfEntries.
  rewrite setAll_app.
  assert (StructsMap.keys_
            (StructsMap.setAll RelationEntry.id (λ entry, entry)
               (filter (λ e, existsInAll (r1 :: rs) e = true) (Relation.entries r1))
               StructsMap.empty)
          = RelationEntry.id <$> filter (λ e, existsInAll (r1 :: rs) e = true)
                                        (Relation.entries r1)) as Hfirst.
  { rewrite keys_setAll_new; [done|apply map_wf_empty| |].
    - apply NoDup_fmap_2_strong.
      + intros x y [_ Hx]%list_elem_of_filter [_ Hy]%list_elem_of_filter.
        by apply (NoDup_fmap_inj_on RelationEntry.id (Relation.entries r1)).
      + apply NoDup_filter. by apply (NoDup_fmap_1 RelationEntry.id).
    - intros x _. apply not_elem_of_nil. }
  rewrite keys_setAll_known; [done|by apply map_wf_setAll, map_wf_empty|].
  intros x [Hx _]%list_elem_of_filter. rewrite Hfirst.
  pose proof (proj1 (existsInAll_spec _ _) Hx r1 (list_elem_of_here _ _)) as Hin.
  apply list_elem_of_fmap in Hin as (e & Heq & He).
  apply list_elem_of_fmap. exists e. split; [done|].
  apply list_elem_of_filter. split; [|done].
  by rewrite <- (existsInAll_id (r1 :: rs) x e).
Qed.

(** X5. When the first input has no id twice, intersect lists the ids of
    the first input that are present in every input, in the order of the
    first input; and when an id names one entry among the inputs, it returns
    the entries of the first input that are present in every input, in that
    order. *)
Theorem intersect_order rs (r1 : Relation.t) w :
  head rs = Some r1 → Forall wfRelation rs → pairwiseCompatible rs →
  NoDup (entryIds r1) →
  ∃ ri wi,
    Relation.intersect rs w = (Normal ri, wi) ∧
    entryIds ri
    = RelationEntry.id <$> filter (λ e, existsInAll rs e = true) (Relation.entries r1) ∧
    (idsIdentifyEntries rs →
     Relation.entries ri
     = filter (λ e, existsInAll rs e = true) (Relation.entries r1)) ∧
    (∀ e, existsInAll rs e = true ↔ ∀ r, r ∈ rs → RelationEntry.id e ∈ entryIds r).
Proof.
  intros Hhead Hwf Hp Hnd. destruct rs as [|r rs]; [done|]. injection Hhead as ->.
  rewrite intersect_eval, pairwiseCompatible_head by done.
  eexists _, _. split; [done|]. unfold entryIds at 1. cbn [Relation.entries].
  assert (RelationEntry.id <$> StructsMap.getValues
            (mapOfEntries (filter (λ e, existsInAll (r1 :: rs) e = true)
                                  (allEntriesOf (r1 :: rs))))
          = RelationEntry.id <$> filter (λ e, existsInAll (r1 :: rs) e = true)
                                        (Relation.entries r1)) as Hids.
  { rewrite mapOfEntries_ids. by apply intersection_keys. }
  split; [done|]. split; [|apply existsInAll_spec].
  intros Hid. apply same_ids_same_entries; [done|].
  intros x y [_ Hx]%mapOfEntries_values_elem%list_elem_of_filter
             [_ Hy]%list_elem_of_filter.
  apply (idsIdentify_all (r1 :: rs)); [done..|].
  apply elem_of_allEntriesOf. exists r1. split; [by left|done].
Qed.

Lemma intersect_order_witness :
  ∃ ri, (Relation.intersect [movies12; movies23] sampleWorld).1 = Normal ri
        ∧ entryIds ri
          = RelationEntry.id <$> filter (λ e, existsInAll [movies12; movies23] e = true)
                                        (Relation.entries movies12).
Proof.
  destruct (intersect_order [movies12; movies23] movies12 sampleWorld)
    as (ri & wi & E & Hids & _).
  - reflexivity.
  - apply Forall_forall. intros r Hr. elem_cases; apply sset_wf_new.
  - intros r1 r2 H1 H2. elem_cases; vm_compute; reflexivity.
  - apply (bool_decide_unpack _). vm_compute. exact I.
  - exists ri. by rewrite E.
Defined.

End result_order.

(** ** Sizes, state and tables of the results *)
Section results.
Implicit Types (r : Relation.t) (rs : list Relation.t) (w : Relation.World)
  (e : RelationEntry.t).

Lemma ids_length_le (l1 l2 : list RelationEntry.t) :
  NoDup (RelationEntry.id <$> l1) →
  (∀ i, i ∈ (RelationEntry.id <$> l1) → i ∈ (RelationEntry.id <$> l2)) →
  length l1 ≤ length l2.
Proof.
  intros Hnd Hsub.
  rewrite <- (length_fmap RelationEntry.id l1), <- (length_fmap RelationEntry.id l2).
  by apply submseteq_length, NoDup_submseteq.
Qed.

Lemma mapOfEntries_values_length (l : list RelationEntry.t) :
  length (StructsMap.getValues (mapOfEntries l)) ≤ length l.
Proof.
  apply ids_length_le; [apply mapOfEntries_values_NoDup|].
  intros i. by rewrite mapOfEntries_values_ids.
Qed.

(** X6. An intersection has at most as many entries as any input and as the
    union; a union has at most as many entries as the inputs have together,
    and at least as many as any input in which no id occurs twice. *)
Theorem set_operation_sizes rs (r1 : Relation.t) w :
  head rs = Some r1 → Forall wfRelation rs → pairwiseCompatible rs →
  ∃ ri ru wi wu,
    Relation.intersect rs w = (Normal ri, wi) ∧
    Relation.union rs w = (Normal ru, wu) ∧
    (∀ r, r ∈ rs → length (Relation.entries ri) ≤ length (Relation.entries r)) ∧
    length (Relation.entries ri) ≤ length (Relation.entries ru) ∧
    length (Relation.entries ru) ≤ length (allEntriesOf rs) ∧
    (∀ r, r ∈ rs → NoDup (entryIds r) →
          length (Relation.entries r) ≤ length (Relation.entries ru)).
Proof.
  intros Hhead Hwf Hp. destruct rs as [|r rs]; [done|]. injection Hhead as ->.
  rewrite intersect_eval, union_eval, pairwiseCompatible_head by done.
  eexists _, _, _, _. split; [done|]. split; [done|]. cbn [Relation.entries].
  split; [|split; [|split]].
  - intros r Hr. apply ids_length_le; [apply mapOfEntries_values_NoDup|].
    intros i Hi. by apply (proj1 (intersect_ids r1 rs i) Hi).
  - apply ids_length_le; [apply mapOfEntries_values_NoDup|].
    intros i Hi. apply union_ids. exists r1. split; [by left|].
    apply (proj1 (intersect_ids r1 rs i) Hi). by left.
  - apply mapOfEntries_values_length.
  - intros r Hr Hnd. apply ids_length_le; [done|].
    intros i Hi. apply union_ids. by exists r.
Qed.

Lemma set_operation_sizes_witness :
  ∃ ri ru,
    (Relation.intersect [movies12; movies23] sampleWorld).1 = Normal ri ∧
    (Relation.union [movies12; movies23] sampleWorld).1 = Normal ru ∧
    length (Relation.entries ri) ≤ length (Relation.entries ru).
Proof.
  destruct (set_operation_sizes [movies12; movies23] movies12 sampleWorld)
    as (ri & ru & wi & wu & Ei & Eu & _ & Hle & _).
  - reflexivity.
  - apply Forall_forall. intros r Hr. elem_cases; apply sset_wf_new.
  - intros r1 r2 H1 H2. elem_cases; vm_compute; reflexivity.
  - exists ri, ru. by rewrite Ei, Eu.
Defined.

Lemma createEmpty_frame w :
  Relation.entryState (Relation.createEmpty w).2 = Relation.entryState w
  ∧ (Relation.nextOid w ≤ Relation.nextOid (Relation.createEmpty w).2
     ≤ Relation.nextOid w + 1)%N.
Proof.
  rewrite createEmpty_eval.
  destruct (Relation.emptyRelation_ w); simpl; (split; [done|lia]).
Qed.

(** X7. union and intersect construct no entry and touch no payload: they
    leave the entry-id counter and the heap as they were. They allocate at
    most one relation object. A failed assertion leaves the whole state as
    it was, and a call on a non-empty array leaves the singleton field as it
    was. *)
Theorem set_operations_frame rs w :
  Relation.entryState (Relation.union rs w).2 = Relation.entryState w ∧
  Relation.entryState (Relation.intersect rs w).2 = Relation.entryState w ∧
  (Relation.nextOid w ≤ Relation.nextOid (Relation.union rs w).2
   ≤ Relation.nextOid w + 1)%N ∧
  (Relation.nextOid w ≤ Relation.nextOid (Relation.intersect rs w).2
   ≤ Relation.nextOid w + 1)%N ∧
  (∀ x, (Relation.union rs w).1 = Throw x → (Relation.union rs w).2 = w) ∧
  (∀ x, (Relation.intersect rs w).1 = Throw x → (Relation.intersect rs w).2 = w) ∧
  (rs ≠ [] →
   Relation.emptyRelation_ (Relation.union rs w).2 = Relation.emptyRelation_ w ∧
   Relation.emptyRelation_ (Relation.intersect rs w).2 = Relation.emptyRelation_ w).
Proof.
  destruct rs as [|r1 rs].
  - cbn [Relation.union Relation.intersect].
    destruct (createEmpty_frame w) as [Hs Ho].
    destruct (createEmpty_normal w) as (r & w' & E). rewrite E in *. simpl in *.
    destruct Ho as [Ho1 Ho2]. by repeat split.
  - rewrite union_eval, intersect_eval.
    destruct (allCompatible r1 (r1 :: rs)); simpl; repeat split; try done; lia.
Qed.

(** X8. On relations whose table sets the constructor built, isCompatible
    is reflexive, symmetric and transitive; hence the assertions of union
    and intersect, which compare every input with the first one only, pass
    exactly when every two inputs are compatible. *)
Theorem isCompatible_equivalence r1 r2 r3 rs :
  wfRelation r1 → wfRelation r2 → wfRelation r3 → Forall wfRelation rs →
  Relation.isCompatible r1 r1 = true ∧
  Relation.isCompatible r1 r2 = Relation.isCompatible r2 r1 ∧
  (Relation.isCompatible r1 r2 = true → Relation.isCompatible r2 r3 = true →
   Relation.isCompatible r1 r3 = true) ∧
  (allCompatible r1 (r1 :: rs) = true ↔ pairwiseCompatible (r1 :: rs)).
Proof.
  intros H1 H2 H3 Hrs. split; [|split; [|split]].
  - apply isCompatible_spec; [done..|]. apply sameTables_refl.
  - destruct (Relation.isCompatible r2 r1) eqn:E.
    + apply isCompatible_spec in E; [|done..].
      apply isCompatible_spec; [done..|]. by apply sameTables_sym.
    + apply isCompatible_false in E; [|done..].
      apply isCompatible_false; [done..|]. intros Hs. by apply E, sameTables_sym.
  - rewrite !isCompatible_spec by done. apply sameTables_trans.
  - assert (Forall wfRelation (r1 :: rs)) as Hall by (by apply Forall_cons).
    split; [|apply pairwiseCompatible_head].
    intros Hc. apply pairwiseCompatible_intro; [done|].
    pose proof (proj1 (allCompatible_sameTables r1 (r1 :: rs) H1 Hall) Hc) as Hs.
    intros a b Ha Hb.
    apply sameTables_trans with r1; [apply sameTables_sym|]; auto.
Qed.

Lemma isCompatible_equivalence_witness :
  Relation.isCompatible movies12 movies23 = Relation.isCompatible movies23 movies12
  ∧ (allCompatible movies12 [movies12; movies23; movies3] = true
     ↔ pairwiseCompatible [movies12; movies23; movies3]).
Proof.
  destruct (isCompatible_equivalence movies12 movies23 movies3 [movies23; movies3])
    as (_ & Hsym & _ & Hall).
  - apply sset_wf_new.
  - apply sset_wf_new.
  - apply sset_wf_new.
  - apply Forall_forall. intros r Hr. elem_cases; apply sset_wf_new.
  - split; [exact Hsym|exact Hall].
Defined.

Lemma result_getTables r1 o es :
  wfRelation r1 →
  Relation.getTables
    (Relation.mk o es (StructsSet.new (StructsSet.getValues (Relation.tables_ r1))))
  = Relation.getTables r1.
Proof.
  intros Hwf. unfold Relation.getTables. simpl.
  apply sset_new_values. by apply NoDup_sset_values.
Qed.

Lemma result_isPrefixApplied r1 o es :
  wfRelation r1 →
  Relation.isPrefixApplied
    (Relation.mk o es (StructsSet.new (StructsSet.getValues (Relation.tables_ r1))))
  = Relation.isPrefixApplied r1.
Proof.
  intros Hwf. unfold Relation.isPrefixApplied. simpl.
  rewrite (proj2 (sset_new_count _)) by (by apply NoDup_sset_values).
  by rewrite length_sset_values.
Qed.

(** X9. The results of union and intersect list the tables of the first
    input in its order, are prefix-applied exactly when it is, and are
    compatible with every input and with each other: they can be passed to
    union and intersect together with the inputs. *)
Theorem set_operation_tables rs (r1 : Relation.t) w :
  head rs = Some r1 → Forall wfRelation rs → pairwiseCompatible rs →
  ∃ ri ru wi wu,
    Relation.intersect rs w = (Normal ri, wi) ∧
    Relation.union rs w = (Normal ru, wu) ∧
    Relation.getTables ri = Relation.getTables r1 ∧
    Relation.getTables ru = Relation.getTables r1 ∧
    Relation.isPrefixApplied ri = Relation.isPrefixApplied r1 ∧
    Relation.isPrefixApplied ru = Relation.isPrefixApplied r1 ∧
    Forall wfRelation (ri :: ru :: rs) ∧
    pairwiseCompatible (ri :: ru :: rs).
Proof.
  intros Hhead Hwf Hp. destruct rs as [|r rs]; [done|]. injection Hhead as ->.
  assert (wfRelation r1) as Hwf1 by (by apply Forall_cons in Hwf as [? _]).
  rewrite intersect_eval, union_eval, pairwiseCompatible_head by done.
  eexists _, _, _, _. split; [done|]. split; [done|].
  split; [by apply result_getTables|]. split; [by apply result_getTables|].
  split; [by apply result_isPrefixApplied|].
  split; [by apply result_isPrefixApplied|].
  assert (Forall wfRelation
            (Relation.mk (Relation.nextOid w)
               (StructsMap.getValues
                  (mapOfEntries (filter (λ e, existsInAll (r1 :: rs) e = true)
                                        (allEntriesOf (r1 :: rs)))))
               (StructsSet.new (StructsSet.getValues (Relation.tables_ r1)))
             :: Relation.mk (Relation.nextOid w)
                  (StructsMap.getValues (mapOfEntries (allEntriesOf (r1 :: rs))))
                  (StructsSet.new (StructsSet.getValues (Relation.tables_ r1)))
             :: r1 :: rs)) as Hall.
  { apply Forall_cons. split; [apply result_wf|].
    apply Forall_cons. split; [apply result_wf|done]. }
  split; [done|]. apply pairwiseCompatible_intro; [done|].
  assert (∀ a, a ∈ Relation.mk (Relation.nextOid w)
               (StructsMap.getValues
                  (mapOfEntries (filter (λ e, existsInAll (r1 :: rs) e = true)
                                        (allEntriesOf (r1 :: rs)))))
               (StructsSet.new (StructsSet.getValues (Relation.tables_ r1)))
             :: Relation.mk (Relation.nextOid w)
                  (StructsMap.getValues (mapOfEntries (allEntriesOf (r1 :: rs))))
                  (StructsSet.new (StructsSet.getValues (Relation.tables_ r1)))
             :: r1 :: rs → sameTables a r1) as Hsame.
  { intros a Ha. apply elem_of_cons in Ha as [->|Ha]; [by apply result_tables|].
    apply elem_of_cons in Ha as [->|Ha]; [by apply result_tables|].
    apply (pairwiseCompatible_sameTables (r1 :: rs)); [done..|by left]. }
  intros a b Ha Hb.
  apply sameTables_trans with r1; [|apply sameTables_sym]; auto.
Qed.

Lemma set_operation_tables_witness :
  ∃ ri ru,
    (Relation.intersect [movies12; movies23] sampleWorld).1 = Normal ri ∧
    (Relation.union [movies12; movies23] sampleWorld).1 = Normal ru ∧
    Relation.getTables ri = Relation.getTables movies12 ∧
    pairwiseCompatible [ri; ru; movies12; movies23].
Proof.
  destruct (set_operation_tables [movies12; movies23] movies12 sampleWorld)
    as (ri & ru & wi & wu & Ei & Eu & Hti & _ & _ & _ & _ & Hp).
  - reflexivity.
  - apply Forall_forall. intros r Hr. elem_cases; apply sset_wf_new.
  - intros r1 r2 H1 H2. elem_cases; vm_compute; reflexivity.
  - exists ri, ru. by rewrite Ei, Eu.
Defined.

End results.

(** ** Reading back what setField wrote *)
Section field_round_trips.
Implicit Types (s : RelationEntry.State) (this : RelationEntry.t) (column : Column.t)
  (v : value).

(** X10. On an entry that is not prefix-applied, setField on a column
    without alias, named by a name that an assignment stores, never fails
    and writes the payload slot named by the column and nothing else;
    afterwards getField returns the value written for every column of that
    name, whatever its table, and for a column of another name, one that no
    object inherits, what the payload held before. *)
Theorem setField_getField_flat this column v s :
  RelationEntry.isPrefixApplied_ this = false →
  Column.getAlias column = None →
  storableName (Column.getName column) →
  ∃ s',
    RelationEntry.setField this column v s = (Normal tt, s') ∧
    RelationEntry.props (RelationEntry.objects s') (Row.payload (RelationEntry.row this))
    = <[Column.getName column := v]>
        (RelationEntry.props (RelationEntry.objects s)
                             (Row.payload (RelationEntry.row this))) ∧
    (∀ a, a ≠ Row.payload (RelationEntry.row this) →
          RelationEntry.objects s' !! a = RelationEntry.objects s !! a) ∧
    RelationEntry.id_ s' = RelationEntry.id_ s ∧
    (∀ column', Column.getName column' = Column.getName column →
       RelationEntry.getField this column' s' = (Normal v, s')) ∧
    (∀ column', Column.getName column' ≠ Column.getName column →
       plainName (Column.getName column') →
       RelationEntry.getField this column' s'
       = (Normal (default VUndefined
                    (RelationEntry.props (RelationEntry.objects s)
                       (Row.payload (RelationEntry.row this))
                     !! Column.getName column')),
          s')).
Proof.
  intros Hp Halias _. unfold RelationEntry.setField, RelationEntry.getField.
  rewrite Halias, Hp. cbn [RelationEntry.putProp]. eexists. split; [done|].
  destruct s as [h n]. cbn [RelationEntry.with_objects RelationEntry.objects
                            RelationEntry.id_].
  split; [apply props_insert_eq|]. split; [|split; [done|split]].
  - intros a Ha. by apply lookup_insert_ne.
  - intros column' Heq.
    cbn [RelationEntry.getProp RelationEntry.objects RelationEntry.with_objects].
    by rewrite props_insert_eq, Heq, lookup_insert_eq.
  - intros column' Hne _.
    cbn [RelationEntry.getProp RelationEntry.objects RelationEntry.with_objects].
    by rewrite props_insert_eq, lookup_insert_ne.
Qed.

Lemma setField_getField_flat_witness :
  ∃ s', RelationEntry.setField movie1 yearColumn (VNumber 1979) sampleState
        = (Normal tt, s')
        ∧ RelationEntry.getField movie1 yearColumn s' = (Normal (VNumber 1979), s')
        ∧ RelationEntry.getField movie1 titleColumn s' = (Normal (VString "Alien"), s').
Proof.
  destruct (setField_getField_flat movie1 yearColumn (VNumber 1979) sampleState)
    as (s' & E & _ & _ & _ & Hsame & Hother).
  - reflexivity.
  - reflexivity.
  - done.
  - exists s'. split; [exact E|]. split.
    + by apply Hsame.
    + rewrite (Hother titleColumn); [done|done|].
      apply (bool_decide_unpack _). by vm_compute.
Defined.

(** setField and getField on a prefix-applied entry whose payload holds a
    container object under the table of the column. *)
Lemma setField_container_eval this column v container s :
  RelationEntry.isPrefixApplied_ this = true →
  Column.getAlias column = None →
  RelationEntry.props (RelationEntry.objects s) (Row.payload (RelationEntry.row this))
    !! Table.getName (Column.getTable column) = Some (VObject container) →
  RelationEntry.setField this column v s
  = (Normal tt,
     RelationEntry.with_objects
       (<[container := <[Column.getName column := v]>
                          (RelationEntry.props (RelationEntry.objects s) container)]>
          (RelationEntry.objects s)) s).
Proof.
  intros Hp Halias Hslot. unfold RelationEntry.setField. rewrite Halias, Hp.
  unfold mbind at 1, M_bind at 1. cbn [RelationEntry.getProp].
  rewrite Hslot. cbn [default from_option id isDefAndNotNull].
  unfold mbind at 1, M_bind at 1. by cbn [mret M_ret RelationEntry.putProp].
Qed.

Lemma getField_container_eval this column container s :
  RelationEntry.isPrefixApplied_ this = true →
  RelationEntry.props (RelationEntry.objects s) (Row.payload (RelationEntry.row this))
    !! Table.getName (Column.getTable column) = Some (VObject container) →
  RelationEntry.getField this column s
  = (Normal (default VUndefined
               (RelationEntry.props (RelationEntry.objects s) container
                !! Column.getName column)),
     s).
Proof.
  intros Hp Hslot. unfold RelationEntry.getField. rewrite Hp.
  unfold mbind at 1, M_bind at 1. cbn [RelationEntry.getProp].
  rewrite Hslot. by cbn [default from_option id RelationEntry.getProp].
Qed.

(** X11. On a prefix-applied entry whose payload holds, under the table of
    a column without alias, a container object other than the payload
    itself, setField writes the slot of the container named by the column,
    a name that an assignment stores, and nothing else: no object is
    created and the payload is not written to. Afterwards getField returns
    the value written, and for another column of the table, of a name that
    no object inherits, what the container held before. *)
Theorem setField_existing_container this column v container s :
  RelationEntry.isPrefixApplied_ this = true →
  Column.getAlias column = None →
  RelationEntry.props (RelationEntry.objects s) (Row.payload (RelationEntry.row this))
    !! Table.getName (Column.getTable column) = Some (VObject container) →
  container ≠ Row.payload (RelationEntry.row this) →
  storableName (Column.getName column) →
  ∃ s',
    RelationEntry.setField this column v s = (Normal tt, s') ∧
    RelationEntry.objects s'
    = <[container := <[Column.getName column := v]>
                       (RelationEntry.props (RelationEntry.objects s) container)]>
        (RelationEntry.objects s) ∧
    RelationEntry.id_ s' = RelationEntry.id_ s ∧
    RelationEntry.getField this column s' = (Normal v, s') ∧
    (∀ column',
       Table.getName (Column.getTable column') = Table.getName (Column.getTable column) →
       Column.getName column' ≠ Column.getName column →
       plainName (Column.getName column') →
       RelationEntry.getField this column' s'
       = (Normal (default VUndefined
                    (RelationEntry.props (RelationEntry.objects s) container
                     !! Column.getName column')),
          s')).
Proof.
  intros Hp Halias Hslot Hne _.
  rewrite (setField_container_eval this column v container s) by done.
  eexists. split; [done|]. destruct s as [h n].
  cbn [RelationEntry.with_objects RelationEntry.objects RelationEntry.id_] in *.
  split; [done|]. split; [done|].
  assert (∀ column',
    Table.getName (Column.getTable column') = Table.getName (Column.getTable column) →
    RelationEntry.props
      (<[container := <[Column.getName column := v]> (RelationEntry.props h container)]> h)
      (Row.payload (RelationEntry.row this))
    !! Table.getName (Column.getTable column') = Some (VObject container)) as Hkept.
  { intros column' ->. by rewrite props_insert_ne. }
  split.
  - rewrite (getField_container_eval this column container) by auto.
    cbn [RelationEntry.objects RelationEntry.with_objects].
    by rewrite props_insert_eq, lookup_insert_eq.
  - intros column' Ht Hn _.
    rewrite (getField_container_eval this column' container) by auto.
    cbn [RelationEntry.objects RelationEntry.with_objects].
    by rewrite props_insert_eq, lookup_insert_ne.
Qed.

Lemma setField_existing_container_witness :
  ∃ s', RelationEntry.setField joined actorIdColumn (VNumber 7) sampleState
        = (Normal tt, s')
        ∧ RelationEntry.getField joined actorIdColumn s' = (Normal (VNumber 7), s')
        ∧ RelationEntry.objects s' !! 4%positive
          = RelationEntry.objects sampleState !! 4%positive.
Proof.
  destruct (setField_existing_container joined actorIdColumn (VNumber 7) 3%positive
              sampleState) as (s' & E & Hobj & _ & Hget & _).
  - reflexivity.
  - reflexivity.
  - reflexivity.
  - done.
  - done.
  - exists s'. split; [exact E|]. split; [exact Hget|]. by rewrite Hobj.
Defined.

End field_round_trips.

(** ** Fields of a combined entry *)
Section joined_entries.
Context (DUMMY_ID : Z).
Implicit Types (s : RelationEntry.State) (l r e : RelationEntry.t) (column : Column.t).

(** getField on a prefix-applied entry, by the slot of the payload. *)
Lemma getField_prefixed_eval e column s :
  RelationEntry.isPrefixApplied_ e = true →
  RelationEntry.getField e column s
  = RelationEntry.getProp
      (default VUndefined
         (RelationEntry.props (RelationEntry.objects s) (Row.payload (RelationEntry.row e))
          !! Table.getName (Column.getTable column)))
      (Column.getName column) s.
Proof.
  intros Hp. unfold RelationEntry.getField. rewrite Hp.
  unfold mbind at 1, M_bind at 1. by cbn [RelationEntry.getProp].
Qed.

(** getField on one side of a join, by what the side contributes; the
    state is one with a new object [result] added. *)
Lemma getField_side_eval e (entryTables : list string) column (h : heap) result R n x :
  Row.payload (RelationEntry.row e) ≠ result →
  contribution h e entryTables !! Table.getName (Column.getTable column) = Some x →
  RelationEntry.getField e column (RelationEntry.mkState (<[result := R]> h) n)
  = RelationEntry.getProp x (Column.getName column)
      (RelationEntry.mkState (<[result := R]> h) n).
Proof.
  intros Hne. unfold contribution.
  destruct (RelationEntry.isPrefixApplied_ e) eqn:Hp; intros Hx.
  - rewrite getField_prefixed_eval by done. cbn [RelationEntry.objects].
    rewrite props_insert_ne by done. by rewrite Hx.
  - apply lookup_singleton_Some in Hx as [_ <-].
    unfold RelationEntry.getField. by rewrite Hp.
Qed.

(** X12. After combineEntries on entries whose payload objects are live
    and of which neither contributes a slot named __proto__, getField on
    the combined entry returns, for a column of a table the right side
    contributes, what getField returns on the right entry; for a column of
    a table only the left side contributes, what getField returns on the
    left entry; and for a column of a table neither side contributes, the
    name of which no object inherits, it fails with a TypeError. *)
Theorem combineEntries_getField l (lt : list string) r (rt : list string) s :
  is_Some (RelationEntry.objects s !! Row.payload (RelationEntry.row l)) →
  is_Some (RelationEntry.objects s !! Row.payload (RelationEntry.row r)) →
  contribution (RelationEntry.objects s) l lt !! "__proto__" = None →
  contribution (RelationEntry.objects s) r rt !! "__proto__" = None →
  ∃ e s',
    RelationEntry.combineEntries DUMMY_ID l lt r rt s = (Normal e, s') ∧
    ∀ column,
      (is_Some (contribution (RelationEntry.objects s) r rt
                !! Table.getName (Column.getTable column)) →
       RelationEntry.getField e column s' = RelationEntry.getField r column s') ∧
      (contribution (RelationEntry.objects s) r rt
         !! Table.getName (Column.getTable column) = None →
       is_Some (contribution (RelationEntry.objects s) l lt
                !! Table.getName (Column.getTable column)) →
       RelationEntry.getField e column s' = RelationEntry.getField l column s') ∧
      (contribution (RelationEntry.objects s) r rt
         !! Table.getName (Column.getTable column) = None →
       contribution (RelationEntry.objects s) l lt
         !! Table.getName (Column.getTable column) = None →
       plainName (Table.getName (Column.getTable column)) →
       RelationEntry.getField e column s' = (Throw TypeError, s')).
Proof.
  intros Hl Hr _ _. rewrite combineEntries_eval by done.
  apply fresh_not_live in Hl, Hr. destruct s as [h n].
  cbn [RelationEntry.objects RelationEntry.id_] in *.
  eexists _, _. split; [done|]. intros column.
  rewrite getField_prefixed_eval by done.
  cbn [RelationEntry.objects RelationEntry.row Row.payload]. rewrite props_insert_eq.
  split; [|split].
  - intros [x Hx]. rewrite (lookup_union_Some_l _ _ _ _ Hx).
    by rewrite (getField_side_eval r rt column h _ _ _ x).
  - intros Hnone [x Hx]. rewrite lookup_union_r by done. rewrite Hx.
    by rewrite (getField_side_eval l lt column h _ _ _ x).
  - intros Hr' Hl' _. by rewrite lookup_union_r, Hl' by done.
Qed.

(** X13. A combined entry shares the payload object of a side that is not
    prefix-applied: after combineEntries, setField on the combined entry,
    for a column without alias of the first table of such a right side,
    creates no object and writes the payload object of the right entry, so
    that getField on the right entry itself returns the value written. The
    names written are names that an assignment stores: neither side
    contributes a slot named __proto__, nor is the column named so. *)
Theorem combined_entry_shares_payload l (lt : list string) r (rt : list string)
    column v s :
  is_Some (RelationEntry.objects s !! Row.payload (RelationEntry.row l)) →
  is_Some (RelationEntry.objects s !! Row.payload (RelationEntry.row r)) →
  RelationEntry.isPrefixApplied_ r = false →
  head rt = Some (Table.getName (Column.getTable column)) →
  Column.getAlias column = None →
  contribution (RelationEntry.objects s) l lt !! "__proto__" = None →
  storableName (Table.getName (Column.getTable column)) →
  storableName (Column.getName column) →
  ∃ e s' s'',
    RelationEntry.combineEntries DUMMY_ID l lt r rt s = (Normal e, s') ∧
    RelationEntry.setField e column v s' = (Normal tt, s'') ∧
    RelationEntry.props (RelationEntry.objects s'') (Row.payload (RelationEntry.row r))
    = <[Column.getName column := v]>
        (RelationEntry.props (RelationEntry.objects s)
                             (Row.payload (RelationEntry.row r))) ∧
    dom (RelationEntry.objects s'') = dom (RelationEntry.objects s') ∧
    RelationEntry.getField r column s'' = (Normal v, s'') ∧
    RelationEntry.getField e column s'' = (Normal v, s'').
Proof.
  intros Hl Hr Hp Hhead Halias _ _ _. rewrite combineEntries_eval by done.
  pose proof (fresh_not_live _ _ Hr) as Hne. destruct s as [h n].
  cbn [RelationEntry.objects RelationEntry.id_] in *.
  set (result := fresh (dom h)) in *.
  set (payload := Row.payload (RelationEntry.row r)) in *.
  set (table := Table.getName (Column.getTable column)) in *.
  assert (contribution h r rt !! table = Some (VObject payload)) as Hc.
  { unfold contribution. rewrite Hp, Hhead. cbn [default from_option id].
    apply lookup_singleton_eq. }
  set (R := contribution h r rt ∪ contribution h l lt) in *.
  assert (R !! table = Some (VObject payload)) as HR
    by (by apply lookup_union_Some_l).
  eexists _, _, _. split; [done|].
  rewrite (setField_container_eval _ column v payload); [|done|done|]; cycle 1.
  { cbn [RelationEntry.objects RelationEntry.row Row.payload].
    by rewrite props_insert_eq. }
  split; [done|].
  cbn [RelationEntry.with_objects RelationEntry.objects RelationEntry.id_].
  rewrite (props_insert_ne _ result payload) by done.
  split; [apply props_insert_eq|]. split; [|split].
  - apply dom_insert_lookup_L. by rewrite lookup_insert_ne.
  - unfold RelationEntry.getField. rewrite Hp.
    cbn [RelationEntry.getProp RelationEntry.objects RelationEntry.with_objects].
    fold payload. by rewrite props_insert_eq, lookup_insert_eq.
  - rewrite (getField_container_eval _ column payload); [|done|].
    + cbn [RelationEntry.objects RelationEntry.with_objects].
      by rewrite props_insert_eq, lookup_insert_eq.
    + cbn [RelationEntry.objects RelationEntry.with_objects RelationEntry.row
           Row.payload].
      rewrite props_insert_ne by done. by rewrite props_insert_eq.
Qed.

End joined_entries.

Lemma combineEntries_getField_witness :
  ∃ e s',
    RelationEntry.combineEntries (-1) movie1 ["Movie"] movie3 ["Actor"] sampleState
    = (Normal e, s')
    ∧ RelationEntry.getField e actorIdColumn s'
      = RelationEntry.getField movie3 actorIdColumn s'
    ∧ RelationEntry.getField e titleColumn s'
      = RelationEntry.getField movie1 titleColumn s'.
Proof.
  destruct (combineEntries_getField (-1) movie1 ["Movie"] movie3 ["Actor"] sampleState)
    as (e & s' & E & Hget).
  - eexists. reflexivity.
  - eexists. reflexivity.
  - reflexivity.
  - reflexivity.
  - exists e, s'. split; [exact E|]. split.
    + apply (Hget actorIdColumn). eexists. reflexivity.
    + apply (Hget titleColumn); [reflexivity|eexists; reflexivity].
Defined.

Lemma combined_entry_shares_payload_witness :
  ∃ e s' s'',
    RelationEntry.combineEntries (-1) movie1 ["Movie"] movie3 ["Actor"] sampleState
    = (Normal e, s')
    ∧ RelationEntry.setField e actorIdColumn (VNumber 7) s' = (Normal tt, s'')
    ∧ RelationEntry.getField movie3 actorIdColumn s'' = (Normal (VNumber 7), s'').
Proof.
  destruct (combined_entry_shares_payload (-1) movie1 ["Movie"] movie3 ["Actor"]
              actorIdColumn (VNumber 7) sampleState)
    as (e & s' & s'' & E & Eset & _ & _ & Hget & _).
  - eexists. reflexivity.
  - eexists. reflexivity.
  - reflexivity.
  - reflexivity.
  - reflexivity.
  - reflexivity.
  - done.
  - done.
  - by exists e, s', s''.
Defined.

(** ** The registry and its global instance *)
Section global_registry.
Context {Service : Type}.
Implicit Types (g : Global.t Service) (serviceId : ServiceId.t) (service : Service).

Lemma getService_lookup serviceId g :
  Global.getService serviceId g
  = match StructsMap.map_ (Global.services_ g) !! ServiceId.toString serviceId with
    | Some (Some service) => Normal service
    | _ => Throw (Exception NOT_FOUND (ServiceId.toString serviceId))
    end.
Proof.
  unfold Global.getService. rewrite get_lookup.
  by destruct (StructsMap.map_ (Global.services_ g) !! ServiceId.toString serviceId)
    as [[?|]|].
Qed.

Lemma isRegistered_lookup serviceId g :
  Global.isRegistered serviceId g = true
  ↔ is_Some (StructsMap.map_ (Global.services_ g) !! ServiceId.toString serviceId).
Proof. unfold Global.isRegistered, StructsMap.containsKey. apply hasKey_true. Qed.

Lemma getService_registered serviceId service g :
  Global.getService serviceId (Global.registerService serviceId service g).2
  = Normal service.
Proof.
  rewrite getService_lookup. unfold Global.registerService. simpl.
  by rewrite lookup_set_eq.
Qed.

Lemma getService_new serviceId :
  Global.getService serviceId (Global.new (Service:=Service))
  = Throw (Exception NOT_FOUND (ServiceId.toString serviceId))
  ∧ Global.isRegistered serviceId (Global.new (Service:=Service)) = false.
Proof.
  split.
  - rewrite getService_lookup. simpl. by rewrite lookup_empty.
  - apply not_true_is_false. rewrite isRegistered_lookup. simpl.
    rewrite lookup_empty. by intros [? ?].
Qed.

(** X14. registerService, for an id named by a name that the map of the
    registry keeps, changes the registry under the name of its id only: for
    an id of another name, getService and isRegistered answer as before. No
    id that is registered stops being registered, and two ids of one name
    are one key. *)
Theorem registerService_frame serviceId service serviceId' g :
  storableName (ServiceId.toString serviceId) →
  ServiceId.toString serviceId' ≠ ServiceId.toString serviceId →
  Global.getService serviceId' (Global.registerService serviceId service g).2
  = Global.getService serviceId' g ∧
  Global.isRegistered serviceId' (Global.registerService serviceId service g).2
  = Global.isRegistered serviceId' g ∧
  (∀ other, Global.isRegistered other g = true →
     Global.isRegistered other (Global.registerService serviceId service g).2 = true) ∧
  (∀ other, ServiceId.toString other = ServiceId.toString serviceId →
     Global.getService other (Global.registerService serviceId service g).2
     = Normal service).
Proof.
  intros _ Hne. split; [|split; [|split]].
  - rewrite !getService_lookup. unfold Global.registerService. simpl.
    by rewrite lookup_set_ne.
  - apply eq_true_iff_eq. rewrite !isRegistered_lookup.
    unfold Global.registerService. simpl. by rewrite lookup_set_ne.
  - intros other. rewrite !isRegistered_lookup. unfold Global.registerService. simpl.
    destruct (decide (ServiceId.toString serviceId = ServiceId.toString other))
      as [<-|Hne'].
    + rewrite lookup_set_eq. eauto.
    + by rewrite lookup_set_ne.
  - intros other Heq. rewrite getService_lookup, Heq.
    unfold Global.registerService. simpl. by rewrite lookup_set_eq.
Qed.

(** X15. The global instance. get returns the registry held by instance_,
    creating an empty one when there is none, and returns the same registry
    until reset is called; a service registered through it, under an id
    named by a name that the map of the registry keeps, is found through
    a later get. After reset, get returns another registry, in which no
    service is registered; the registry returned before is not changed by
    that. *)
Theorem global_instance_lifecycle (st : GlobalInstance.Statics Service)
    serviceId service :
  GlobalInstance.wf st →
  storableName (ServiceId.toString serviceId) →
  ∃ a st1 st2 a' st3,
    GlobalInstance.get st = (a, st1) ∧
    GlobalInstance.get st1 = (a, st1) ∧
    (∀ a0, GlobalInstance.instance_ st = Some a0 → a = a0 ∧ st1 = st) ∧
    (GlobalInstance.instance_ st = None →
       GlobalInstance.registries st !! a = None ∧
       GlobalInstance.registries st1 !! a = Some Global.new) ∧
    GlobalInstance.registerService a serviceId service st1 = Some (service, st2) ∧
    GlobalInstance.get st2 = (a, st2) ∧
    GlobalInstance.getService a serviceId st2 = Some (Normal service) ∧
    GlobalInstance.get (GlobalInstance.reset st2) = (a', st3) ∧
    a' ≠ a ∧
    (∀ other,
       GlobalInstance.getService a' other st3
       = Some (Throw (Exception NOT_FOUND (ServiceId.toString other))) ∧
       GlobalInstance.isRegistered a' other st3 = Some false) ∧
    GlobalInstance.getService a serviceId st3 = Some (Normal service) ∧
    GlobalInstance.wf st3.
Proof.
  intros Hwf _.
  assert (∃ a st1 this,
            GlobalInstance.get st = (a, st1) ∧
            GlobalInstance.instance_ st1 = Some a ∧
            GlobalInstance.registries st1 !! a = Some this ∧
            (∀ a0, GlobalInstance.instance_ st = Some a0 → a = a0 ∧ st1 = st) ∧
            (GlobalInstance.instance_ st = None →
               GlobalInstance.registries st !! a = None ∧ this = Global.new))
    as (a & st1 & this & Eget & Einst & Ethis & Hsome & Hnone).
  { unfold GlobalInstance.get. destruct st as [regs [a0|]]; simpl.
    - destruct (Hwf a0 eq_refl) as [this Hthis]. simpl in Hthis.
      exists a0, (GlobalInstance.mkStatics regs (Some a0)), this.
      split; [done|]. split; [done|]. split; [done|].
      split; [by intros ? [= <-]|done].
    - eexists _, _, _. split; [done|]. simpl. split; [done|].
      split; [apply lookup_insert_eq|]. split; [done|].
      intros _. split; [apply not_elem_of_dom, is_fresh|done]. }
  set (this' := (Global.registerService serviceId service this).2).
  set (regs2 := <[a := this']> (GlobalInstance.registries st1)).
  set (fresh2 := fresh (dom regs2)).
  assert (fresh2 ≠ a) as Hfresh.
  { intros Heq. apply (is_fresh (dom regs2)). fold fresh2. rewrite Heq.
    apply elem_of_dom. unfold regs2. rewrite lookup_insert_eq. eauto. }
  exists a, st1, (GlobalInstance.mkStatics regs2 (Some a)), fresh2,
         (GlobalInstance.mkStatics (<[fresh2 := Global.new]> regs2) (Some fresh2)).
  split; [done|].
  split; [by unfold GlobalInstance.get; rewrite Einst|].
  split; [done|].
  split; [intros Hn; destruct (Hnone Hn) as [? <-]; done|].
  split; [by unfold GlobalInstance.registerService; rewrite Ethis, Einst|].
  split; [done|].
  unfold GlobalInstance.getService, GlobalInstance.isRegistered. simpl.
  assert (regs2 !! a = Some this') as Hregs2 by apply lookup_insert_eq.
  split; [rewrite Hregs2; simpl; f_equal; apply getService_registered|].
  split; [done|]. split; [done|].
  split; [|split].
  - intros other. rewrite lookup_insert_eq. simpl.
    by destruct (getService_new other) as [-> ->].
  - rewrite lookup_insert_ne by done. rewrite Hregs2. simpl.
    f_equal. apply getService_registered.
  - intros a0 [= <-]. simpl. rewrite lookup_insert_eq. eauto.
Qed.

End global_registry.

Lemma registerService_frame_witness :
  let g := Global.registerAll [(ServiceId.mk "cache", 1)] Global.new in
  Global.getService (ServiceId.mk "cache")
    (Global.registerService (ServiceId.mk "runner") 2 g).2
  = Global.getService (ServiceId.mk "cache") g.
Proof.
  intros g.
  apply (registerService_frame (ServiceId.mk "runner") 2 (ServiceId.mk "cache") g).
  - done.
  - done.
Defined.

Lemma global_instance_lifecycle_witness :
  ∃ a st1 st2 a' st3,
    GlobalInstance.get (GlobalInstance.initial (Service:=nat)) = (a, st1) ∧
    GlobalInstance.registerService a (ServiceId.mk "cache") 1 st1 = Some (1, st2) ∧
    GlobalInstance.get (GlobalInstance.reset st2) = (a', st3) ∧
    a' ≠ a.
Proof.
  destruct (global_instance_lifecycle GlobalInstance.initial (ServiceId.mk "cache") 1)
    as (a & st1 & st2 & a' & st3 & E1 & _ & _ & _ & E2 & _ & _ & E3 & Hne & _).
  - intros a. simpl. done.
  - done.
  - by exists a, st1, st2, a', st3.
Defined.

(** ** Set operations on relations fromRows made *)
Section from_rows_composition.
Implicit Types (rows : list Row.t) (tables : list string) (w : Relation.World).

Lemma imap_entry_ids rows (n : N) (p : bool) :
  RelationEntry.id <$> imap (λ i row, RelationEntry.mk row (n + N.of_nat i)%N p) rows
  = (λ i, (n + N.of_nat i)%N) <$> seq 0 (length rows).
Proof.
  apply list_eq. intros i. rewrite !list_lookup_fmap, list_lookup_imap.
  destruct (rows !! i) eqn:E.
  - apply lookup_lt_Some in E. by rewrite lookup_seq_lt.
  - apply lookup_ge_None in E. by rewrite lookup_seq_ge.
Qed.

Lemma imap_entry_rows rows (n : N) (p : bool) :
  RelationEntry.row <$> imap (λ i row, RelationEntry.mk row (n + N.of_nat i)%N p) rows
  = rows.
Proof.
  apply list_eq. intros i. rewrite list_lookup_fmap, list_lookup_imap.
  by destruct (rows !! i).
Qed.

(** The ids of the entries of two runs of rows.map, the second starting
    where the first left the counter. *)
Lemma consecutive_ids_NoDup rows1 rows2 (n : N) (p1 p2 : bool) :
  NoDup (RelationEntry.id <$>
           (imap (λ i row, RelationEntry.mk row (n + N.of_nat i)%N p1) rows1
            ++ imap (λ i row,
                       RelationEntry.mk row
                         (n + N.of_nat (length rows1) + N.of_nat i)%N p2) rows2)).
Proof.
  rewrite fmap_app, !imap_entry_ids.
  replace ((λ i, (n + N.of_nat (length rows1) + N.of_nat i)%N) <$> seq 0 (length rows2))
    with ((λ i, (n + N.of_nat i)%N) <$> seq (0 + length rows1) (length rows2)).
  - rewrite <- fmap_app, <- seq_app. apply NoDup_fmap_2; [|apply NoDup_seq].
    intros i j Hij. lia.
  - replace (0 + length rows1) with (length rows1 + 0) by lia.
    rewrite <- (fmap_add_seq (length rows1) 0), <- list_fmap_compose.
    apply list_fmap_ext. intros _ i _. simpl. lia.
Qed.

(** X16. Two relations that fromRows makes one after the other, over the
    same tables, while the counter of ids stays within 2^53, share no
    entry, also when they wrap the same rows: every call gives its entries
    ids of their own. Their union has the entries of the first followed by
    those of the second, and so the rows of both in the order given; their
    intersection has no entries. *)
Theorem fromRows_relations_disjoint rows1 rows2 tables w :
  (RelationEntry.id_ (Relation.entryState w) + N.of_nat (length rows1 + length rows2)
   ≤ RelationEntry.MAX_EXACT)%N →
  ∃ r1 w1, Relation.fromRows rows1 tables w = (Normal r1, w1) ∧
  ∃ r2 w2, Relation.fromRows rows2 tables w1 = (Normal r2, w2) ∧
  ∃ ru w3 ri w4,
    Relation.union [r1; r2] w2 = (Normal ru, w3) ∧
    Relation.intersect [r1; r2] w2 = (Normal ri, w4) ∧
    Relation.entries ru = Relation.entries r1 ++ Relation.entries r2 ∧
    RelationEntry.row <$> Relation.entries ru = rows1 ++ rows2 ∧
    Relation.entries ri = [].
Proof.
  intros Hbound.
  eexists _, _. split; [apply fromRows_eval|].
  eexists _, _. split; [apply fromRows_eval|].
  cbn [Relation.entryState RelationEntry.with_id_ RelationEntry.id_
       Relation.nextOid Relation.emptyRelation_].
  set (n := RelationEntry.id_ (Relation.entryState w)) in *.
  set (p := bool_decide (1 < length tables)).
  assert (imap (λ i row, RelationEntry.mk row (idAfter i n) p) rows1
          = imap (λ i row, RelationEntry.mk row (n + N.of_nat i)%N p) rows1) as ->.
  { apply imap_ext. intros i row Hi%lookup_lt_Some. simpl.
    by rewrite idAfter_exact by lia. }
  assert (imap (λ i row,
                  RelationEntry.mk row (idAfter i (idAfter (length rows1) n)) p) rows2
          = imap (λ i row,
                    RelationEntry.mk row (n + N.of_nat (length rows1) + N.of_nat i)%N p)
                 rows2) as ->.
  { apply imap_ext. intros i row Hi%lookup_lt_Some. simpl.
    rewrite (idAfter_exact (length rows1)) by lia.
    by rewrite idAfter_exact by lia. }
  set (es1 := imap (λ i row, RelationEntry.mk row (n + N.of_nat i)%N p) rows1).
  set (es2 := imap (λ i row,
                      RelationEntry.mk row (n + N.of_nat (length rows1) + N.of_nat i)%N p)
                   rows2).
  set (r1 := Relation.mk (Relation.nextOid w) es1 (StructsSet.new tables)).
  set (r2 := Relation.mk (Relation.nextOid w + 1)%N es2 (StructsSet.new tables)).
  assert (NoDup (RelationEntry.id <$> (es1 ++ es2))) as Hnd
    by apply consecutive_ids_NoDup.
  assert (allEntriesOf [r1; r2] = es1 ++ es2) as Hall.
  { unfold allEntriesOf. simpl. by rewrite app_nil_r. }
  assert (allCompatible r1 [r1; r2] = true) as Hc.
  { apply allCompatible_true. intros r Hr.
    apply isCompatible_spec; [apply sset_wf_new|elem_cases; apply sset_wf_new|].
    elem_cases; by intros name. }
  rewrite union_eval, intersect_eval, Hc, Hall.
  eexists _, _, _, _. split; [done|]. split; [done|]. cbn [Relation.entries].
  rewrite mapOfEntries_values_distinct by done.
  split; [done|]. split.
  - rewrite fmap_app. unfold es1, es2. by rewrite !imap_entry_rows.
  - assert (filter (λ e, existsInAll [r1; r2] e = true) (es1 ++ es2) = []) as ->; [|done].
    apply elem_of_nil_inv. intros e [He _]%list_elem_of_filter.
    pose proof (proj1 (existsInAll_spec _ _) He) as Hin.
    rewrite fmap_app in Hnd. apply NoDup_app in Hnd as (_ & Hdisj & _).
    apply (Hdisj (RelationEntry.id e)).
    + apply (Hin r1). elem_solve.
    + apply (Hin r2). elem_solve.
Qed.

Lemma fromRows_relations_disjoint_witness :
  ∃ r1 w1, Relation.fromRows [Row.mk 1 1; Row.mk 2 2] ["Movie"] sampleWorld
           = (Normal r1, w1) ∧
  ∃ r2 w2, Relation.fromRows [Row.mk 1 1] ["Movie"] w1 = (Normal r2, w2) ∧
  ∃ ru w3 ri w4,
    Relation.union [r1; r2] w2 = (Normal ru, w3) ∧
    Relation.intersect [r1; r2] w2 = (Normal ri, w4) ∧
    Relation.entries ru = Relation.entries r1 ++ Relation.entries r2 ∧
    RelationEntry.row <$> Relation.entries ru
    = [Row.mk 1 1; Row.mk 2 2] ++ [Row.mk 1 1] ∧
    Relation.entries ri = [].
Proof.
  apply (fromRows_relations_disjoint [Row.mk 1 1; Row.mk 2 2] [Row.mk 1 1] ["Movie"]
           sampleWorld).
  by vm_compute.
Defined.

End from_rows_composition.
